(** * Environmental scoring pipeline of [analytics_engine.py]

    A shallow embedding of [calculate_environmental_scores] and the
    properties its specification states about it.

    Modelling conventions.
    - A frame is a table of rows.  The rows of the roads carry their row
      labels, integers, which are their positions [0 .. n-1] in a frame
      built like those of the demo and anything else in a frame that was
      filtered, sliced or concatenated: pandas aligns the division of two
      columns of different frames on these labels.  The merged frame, and
      so the returned one, is labelled [0 .. n-1] anew.  The labels of the
      trees are read nowhere.  Input frames are lists of rows; the returned
      frame is kept column-wise, the way the source builds it, one
      assignment per column.
    - The reference system of a frame is an identifier or, for a frame
      that has none, [None].
    - Numbers are exact: a float that holds a number is a real, and the
      float type adds the three IEEE specials that the divisions produce.
      Rounding and overflow are not modelled.
    - shapely and pyproj are an interface ([Geometry]): the pipeline is
      verified for every implementation of it.  [Planar] is one concrete
      implementation, on which the pipeline is run on explicit inputs.
    - The two frames of the caller live in a store that the function reads
      and writes; [print] appends to the standard output of the caller. *)

From Stdlib Require Import Reals Lra Lia ZArith List String Bool.
From Stdlib Require Import DecimalString Sorting.Sorted Sorting.Permutation.
Import ListNotations.

Local Open Scope R_scope.

(** ** Floats: reals with the IEEE special values *)

Module Float.

Inductive float : Type :=
| Fin (r : R)
| PInf
| NInf
| NaN.

Definition isnan (x : float) : bool :=
  match x with NaN => true | _ => false end.

(** [a / b] on two columns of numbers, as numpy divides: a zero
    denominator gives a signed infinity, and [0 / 0] gives NaN. *)
Definition div (a b : R) : float :=
  if Req_dec_T b 0 then
    if Req_dec_T a 0 then NaN
    else if Rlt_dec 0 a then PInf else NInf
  else Fin (a / b).

(** [np.log1p]. *)
Definition log1p (x : R) : float :=
  if Rlt_dec (-1) x then Fin (ln (1 + x))
  else if Req_dec_T x (-1) then NInf else NaN.

(** [w * x] for a Python float constant [w]. *)
Definition scale (w : R) (x : float) : float :=
  match x with
  | Fin r => Fin (w * r)
  | NaN => NaN
  | PInf => if Req_dec_T w 0 then NaN else if Rlt_dec 0 w then PInf else NInf
  | NInf => if Req_dec_T w 0 then NaN else if Rlt_dec 0 w then NInf else PInf
  end.

Definition add (x y : float) : float :=
  match x, y with
  | NaN, _ | _, NaN => NaN
  | Fin a, Fin b => Fin (a + b)
  | PInf, NInf | NInf, PInf => NaN
  | PInf, _ | _, PInf => PInf
  | NInf, _ | _, NInf => NInf
  end.

(** The order of floats; NaN is below, above and equal to nothing. *)
Definition lt (x y : float) : Prop :=
  match x, y with
  | NaN, _ | _, NaN => False
  | _, NInf => False
  | NInf, _ => True
  | PInf, _ => False
  | Fin _, PInf => True
  | Fin a, Fin b => a < b
  end.

Definition eq (x y : float) : Prop :=
  match x, y with
  | NaN, _ | _, NaN => False
  | Fin a, Fin b => a = b
  | PInf, PInf | NInf, NInf => True
  | _, _ => False
  end.

Definition le (x y : float) : Prop := lt x y \/ eq x y.

Definition ltb (x y : float) : bool :=
  match x, y with
  | NaN, _ | _, NaN => false
  | _, NInf => false
  | NInf, _ => true
  | PInf, _ => false
  | Fin _, PInf => true
  | Fin a, Fin b => if Rlt_dec a b then true else false
  end.

Definition eqb (x y : float) : bool :=
  match x, y with
  | NaN, _ | _, NaN => false
  | Fin a, Fin b => if Req_dec_T a b then true else false
  | PInf, PInf | NInf, NInf => true
  | _, _ => false
  end.

Definition leb (x y : float) : bool := ltb x y || eqb x y.

End Float.

Import Float.

(** ** Series: the column operations of pandas the pipeline uses *)

Module Series.

Definition sum (xs : list R) : R := fold_right Rplus 0 xs.

(** [a / b] for two columns whose rows carry the same labels in the same
    order, as two columns of one frame do: cell by cell. *)
Fixpoint div (a b : list R) : list float :=
  match a, b with
  | [], _ => []
  | x :: a', [] => NaN :: div a' []
  | x :: a', y :: b' => Float.div x y :: div a' b'
  end.

(** [Index.equals]: the same labels in the same order. *)
Definition index_equals (index labels : list Z) : bool :=
  if list_eq_dec Z.eq_dec index labels then true else false.

(** [Index.is_unique] *)
Fixpoint is_unique (labels : list Z) : bool :=
  match labels with
  | [] => true
  | i :: rest => negb (existsb (Z.eqb i) rest) && is_unique rest
  end.

(** The cell of the column [b] in the row labelled [i], in a frame whose
    rows are labelled [labels]. *)
Definition loc (labels : list Z) (b : list R) (i : Z) : option R :=
  option_map snd (find (fun cell => (fst cell =? i)%Z) (combine labels b)).

(** [a / b] aligned on the row labels, read at the labels [index] of [a]:
    under a label stands the quotient of the two cells under that label,
    and NaN when [b] has no row of that label. *)
Definition div_aligned (index : list Z) (a : list R) (labels : list Z)
  (b : list R) : list float :=
  map (fun cell => match loc labels b (fst cell) with
                   | Some y => Float.div (snd cell) y
                   | None => NaN
                   end)
      (combine index a).

(** [a / b] for a column [a] of a frame labelled [index] and a column [b]
    of a frame labelled [labels], as far as the frame of [a] reads it:
    pandas divides cell by cell when the two indexes are equal and aligns
    the operands on their labels when they are not. *)
Definition quotient (index : list Z) (a : list R) (labels : list Z)
  (b : list R) : list float :=
  if index_equals index labels then div a b
  else div_aligned index a labels b.

Definition scale (w : R) (xs : list float) : list float :=
  map (Float.scale w) xs.

Definition add (xs ys : list float) : list float :=
  map (fun p => Float.add (fst p) (snd p)) (combine xs ys).

(** *** [Series.rank(pct=True)]

    Defaults: [method='average'], [na_option='keep'], ascending.  The
    values that are not NaN are sorted; the members of a group of equal
    values occupy consecutive positions of the sorted order and each
    receives the mean of those positions; NaN cells stay NaN and are not
    counted. *)

Definition count_lt (col : list float) (x : float) : nat :=
  List.length (filter (fun y => Float.ltb y x) col).

Definition count_eq (col : list float) (x : float) : nat :=
  List.length (filter (fun y => Float.eqb y x) col).

Definition count_valid (col : list float) : nat :=
  List.length (filter (fun y => negb (isnan y)) col).

(** The positions (from 1) of a tie group that follows [below] smaller
    values and has [dups] members, summed. *)
Definition sum_ranks (below dups : nat) : R :=
  sum (map INR (seq (S below) dups)).

Definition rank_average (col : list float) (x : float) : float :=
  if isnan x then NaN
  else Fin (sum_ranks (count_lt col x) (count_eq col x)
            / INR (count_eq col x)).

(** [pct=True] divides the rank by the number of ranked values. *)
Definition pct (col : list float) (x : float) : float :=
  match rank_average col x with
  | Fin r => Fin (r / INR (count_valid col))
  | other => other
  end.

Definition rank_pct (col : list float) : list float := map (pct col) col.

End Series.

(** ** Geometry: what the pipeline asks of shapely and pyproj *)

Definition CRS := string.

(** [a == b] on the attribute [crs] of two frames, [None] for a frame
    without a reference system. *)
Definition crs_eqb (a b : option CRS) : bool :=
  match a, b with
  | Some x, Some y => (x =? y)%string
  | None, None => true
  | _, _ => false
  end.

Class Geometry : Type := {
  geom : Type;
  (** [g.buffer(distance)] *)
  buffer : geom -> Z -> geom;
  (** [g.area] *)
  area : geom -> R;
  (** [g.length] *)
  length : geom -> R;
  (** the [within] predicate of the spatial join *)
  within : geom -> geom -> bool;
  (** the coordinate transform behind [to_crs], from one system to another *)
  transform : CRS -> CRS -> geom -> geom
}.

(** ** Frames *)

Section Frames.
Context {G : Geometry}.

(** A row of [roads_gdf]. *)
Record Road : Type := {
  segment_id : Z;
  geometry : geom
}.

(** [roads_gdf]: its reference system and its rows, each under its row
    label. *)
Record RoadsFrame : Type := {
  roads_crs : option CRS;
  roads_table : list (Z * Road)
}.

(** [roads_gdf.index] *)
Definition roads_index (roads_gdf : RoadsFrame) : list Z :=
  map fst (roads_table roads_gdf).

Definition roads_rows (roads_gdf : RoadsFrame) : list Road :=
  map snd (roads_table roads_gdf).

(** A row of [trees_gdf]. *)
Record Tree : Type := {
  canopy_dia_m : R;
  CO2_sequestered_kg : R;
  botanical_name : string;
  tree_geometry : geom
}.

(** [trees_gdf]; the column [canopy_area_sq_m] is absent from the frame
    ([None]) until something assigns it. *)
Record TreesFrame : Type := {
  trees_crs : option CRS;
  trees_rows : list Tree;
  canopy_area_sq_m : option (list R)
}.

(** A row of [road_buffers]. *)
Record Buffer : Type := {
  buffer_segment_id : Z;
  buffer_geometry : geom;
  buffer_area_sq_m : R
}.

(** A row of [joined_gdf]: the columns of a tree next to those of a
    buffer that contains it. *)
Record Joined : Type := {
  joined_canopy_area_sq_m : R;
  joined_CO2_sequestered_kg : R;
  joined_botanical_name : string;
  joined_segment_id : Z
}.

(** A row of [eco_scores], indexed by [segment_id]. *)
Record EcoScore : Type := {
  eco_segment_id : Z;
  eco_canopy_area_sq_m : R;
  eco_s_co2_total : R;
  eco_s_bio_count : nat
}.

(** A row of the left merge; [None] is a missing value. *)
Record Merged : Type := {
  merged_road : Road;
  merged_canopy_area_sq_m : option R;
  merged_s_co2_total : option R;
  merged_s_bio_count : option R
}.

(** The returned frame [roads_with_scores], column by column; its rows
    are labelled [0 .. n-1]. *)
Record ScoredFrame : Type := {
  out_crs : option CRS;
  out_roads : list Road;
  out_canopy_area_sq_m : list R;
  out_s_co2_total : list R;
  out_s_bio_count : list R;
  s_canopy : list float;
  s_co2 : list float;
  s_bio : list float;
  s_canopy_norm : list float;
  s_co2_norm : list float;
  s_bio_norm : list float;
  static_eqs : list float;
  serenity_score : list float
}.

End Frames.


(** ** The caller's store and the monad of a call *)

Inductive outcome (A : Type) : Type :=
| Returned (a : A)
| Raised (exception : string).
Arguments Returned {A} a.
Arguments Raised {A} exception.

Section Store.
Context {G : Geometry}.

(** What a call can reach of its caller: the two frames passed as
    arguments, by reference, and the standard output. *)
Record Caller : Type := {
  caller_roads : RoadsFrame;
  caller_trees : TreesFrame;
  stdout : list string
}.

Definition Py (A : Type) : Type := Caller -> outcome A * Caller.

Definition ret {A} (a : A) : Py A := fun s => (Returned a, s).

Definition bind {A B} (c : Py A) (k : A -> Py B) : Py B :=
  fun s => match c s with
           | (Returned a, s') => k a s'
           | (Raised e, s') => (Raised e, s')
           end.

Definition raise {A} (e : string) : Py A := fun s => (Raised e, s).

(** A computation that does not touch the store. *)
Definition lift {A} (c : outcome A) : Py A := fun s => (c, s).

Definition print (line : string) : Py unit :=
  fun s => (Returned tt,
            {| caller_roads := caller_roads s;
               caller_trees := caller_trees s;
               stdout := stdout s ++ [line] |}).

(** The object a local name for a trees frame is bound to: the frame the
    caller passed, or a frame created during the call. *)
Inductive TreesName : Type :=
| CallerObject
| LocalObject (frame : TreesFrame).

Definition read_roads : Py RoadsFrame :=
  fun s => (Returned (caller_roads s), s).

Definition read_trees (name : TreesName) : Py TreesFrame :=
  fun s => (Returned match name with
                     | CallerObject => caller_trees s
                     | LocalObject frame => frame
                     end, s).

Definition assign_canopy_area (frame : TreesFrame) (col : list R) : TreesFrame :=
  {| trees_crs := trees_crs frame;
     trees_rows := trees_rows frame;
     canopy_area_sq_m := Some col |}.

(** [name['canopy_area_sq_m'] = col] writes into the object behind the
    name. *)
Definition setitem_canopy_area (name : TreesName) (col : list R) : Py TreesName :=
  match name with
  | CallerObject =>
      fun s => (Returned CallerObject,
                {| caller_roads := caller_roads s;
                   caller_trees := assign_canopy_area (caller_trees s) col;
                   stdout := stdout s |})
  | LocalObject frame => ret (LocalObject (assign_canopy_area frame col))
  end.

End Store.

Declare Scope py_scope.
Delimit Scope py_scope with py.
Notation "x <- c ;; k" := (bind c (fun x => k))
  (at level 61, c at next level, right associativity) : py_scope.
Notation "c ;; k" := (bind c (fun _ => k))
  (at level 61, right associativity) : py_scope.

(** ** The pipeline *)

Section Pipeline.
Context {G : Geometry}.

(** [str(n)] of a Python int. *)
Definition str (n : Z) : string := NilZero.string_of_int (Z.to_int n).

(** A tree with its geometry transformed from one system to another. *)
Definition reproject (from to : CRS) (t : Tree) : Tree :=
  {| canopy_dia_m := canopy_dia_m t;
     CO2_sequestered_kg := CO2_sequestered_kg t;
     botanical_name := botanical_name t;
     tree_geometry := transform from to (tree_geometry t) |}.

(** [trees_gdf.to_crs(crs)]: a new frame, each geometry transformed.
    geopandas raises [ValueError] when the frame has no reference system
    to transform from, and when [crs] is [None]. *)
Definition to_crs (trees : TreesFrame) (crs : option CRS) : outcome TreesFrame :=
  match trees_crs trees, crs with
  | Some from, Some to =>
      Returned {| trees_crs := Some to;
                  trees_rows := map (reproject from to) (trees_rows trees);
                  canopy_area_sq_m := canopy_area_sq_m trees |}
  | _, _ => Raised "ValueError"
  end.

(** Step 1: a copy of two columns of the roads, the geometry replaced by
    its buffer, and the area of the buffer.  The copy keeps the row labels
    of the roads, [roads_index]. *)
Definition make_road_buffers (roads_gdf : RoadsFrame) (buffer_size_meters : Z)
  : list Buffer :=
  map (fun r => let b := buffer (geometry r) buffer_size_meters in
                {| buffer_segment_id := segment_id r;
                   buffer_geometry := b;
                   buffer_area_sq_m := area b |})
      (roads_rows roads_gdf).

(** Step 2: [np.pi * (canopy_dia_m / 2)**2]. *)
Definition canopy_area (t : Tree) : R := PI * (canopy_dia_m t / 2) ^ 2.

(** Step 3: [gpd.sjoin(trees_gdf, road_buffers, how='inner',
    predicate='within')]; a tree gives one row per buffer it lies within.
    The rows carry [canopy_area_sq_m], which the aggregation reads. *)
Definition join_rows (trees : list (Tree * R)) (road_buffers : list Buffer)
  : list Joined :=
  flat_map
    (fun ta : Tree * R =>
       map (fun b => {| joined_canopy_area_sq_m := snd ta;
                        joined_CO2_sequestered_kg := CO2_sequestered_kg (fst ta);
                        joined_botanical_name := botanical_name (fst ta);
                        joined_segment_id := buffer_segment_id b |})
           (filter (fun b => within (tree_geometry (fst ta)) (buffer_geometry b))
                   road_buffers))
    trees.

Definition sjoin (trees : TreesFrame) (road_buffers : list Buffer)
  : Py (list Joined) :=
  match canopy_area_sq_m trees with
  | None => raise "KeyError"
  | Some col => ret (join_rows (combine (trees_rows trees) col) road_buffers)
  end.

(** Step 4: [groupby('segment_id')] makes one group per distinct key, the
    keys in ascending order. *)
Fixpoint insert_key (k : Z) (keys : list Z) : list Z :=
  match keys with
  | [] => [k]
  | h :: rest =>
      if (k <? h)%Z then k :: keys
      else if (k =? h)%Z then keys
      else h :: insert_key k rest
  end.

Definition group_keys (joined : list Joined) : list Z :=
  fold_right insert_key [] (map joined_segment_id joined).

Definition group (joined : list Joined) (k : Z) : list Joined :=
  filter (fun j => (joined_segment_id j =? k)%Z) joined.

(** [nunique] of a column of strings. *)
Definition nunique (names : list string) : nat :=
  List.length (nodup string_dec names).

Definition groupby_agg (joined : list Joined) : list EcoScore :=
  map (fun k =>
         let rows := group joined k in
         {| eco_segment_id := k;
            eco_canopy_area_sq_m := Series.sum (map joined_canopy_area_sq_m rows);
            eco_s_co2_total := Series.sum (map joined_CO2_sequestered_kg rows);
            eco_s_bio_count := nunique (map joined_botanical_name rows) |})
      (group_keys joined).

(** Step 5: [roads_gdf.merge(eco_scores, on='segment_id', how='left')]:
    the rows of the left frame in their order, each once per matching row
    of the right frame, or once with missing values when none matches. *)
Definition merge (roads_gdf : RoadsFrame) (eco_scores : list EcoScore)
  : list Merged :=
  flat_map
    (fun r =>
       match filter (fun e => (eco_segment_id e =? segment_id r)%Z) eco_scores with
       | [] => [ {| merged_road := r;
                    merged_canopy_area_sq_m := None;
                    merged_s_co2_total := None;
                    merged_s_bio_count := None |} ]
       | matches =>
           map (fun e => {| merged_road := r;
                            merged_canopy_area_sq_m := Some (eco_canopy_area_sq_m e);
                            merged_s_co2_total := Some (eco_s_co2_total e);
                            merged_s_bio_count := Some (INR (eco_s_bio_count e)) |})
               matches
       end)
    (roads_rows roads_gdf).

(** [.fillna(0)] on a cell. *)
Definition fillna (cell : option R) : R :=
  match cell with Some x => x | None => 0 end.

Definition warning : string :=
  "Warning: CRS mismatch. Re-projecting trees to match roads CRS."%string.

Definition banner (buffer_size_meters : Z) : string :=
  ("Performing vectorized analysis with a " ++ str buffer_size_meters
     ++ "-meter buffer...")%string.

(** [RangeIndex(n)], the labels [0 .. n-1] that [merge] gives its result. *)
Definition RangeIndex (n : nat) : list Z := map Z.of_nat (seq 0 n).

(** [frame[column] = a / b], for a column [a] of [frame], whose rows are
    labelled [index], and a column [b] of another frame, whose rows are
    labelled [labels].  The quotient carries the labels of both operands,
    and the assignment reads it at the labels of [frame]; when the two
    indexes differ and one of them has a label twice, so has the
    quotient, and the assignment raises [ValueError] (cannot reindex on an
    axis with duplicate labels). *)
Definition assign_quotient (index : list Z) (a : list R) (labels : list Z)
  (b : list R) : outcome (list float) :=
  if Series.index_equals index labels
     || (Series.is_unique index && Series.is_unique labels)
  then Returned (Series.quotient index a labels b)
  else Raised "ValueError".

(** Lines 53 to 68: the columns that follow from the merged rows and from
    the column [s_canopy] of line 52. *)
Definition scores_from (roads_gdf : RoadsFrame) (merged : list Merged)
  (s_canopy : list float) : ScoredFrame :=
  let roads := map merged_road merged in
  let canopy := map (fun m => fillna (merged_canopy_area_sq_m m)) merged in
  let co2 := map (fun m => fillna (merged_s_co2_total m)) merged in
  let bio := map (fun m => fillna (merged_s_bio_count m)) merged in
  let s_co2 := Series.div co2 (map (fun r => length (geometry r)) roads) in
  let s_bio := map Float.log1p bio in
  let s_canopy_norm := Series.rank_pct s_canopy in
  let s_co2_norm := Series.rank_pct s_co2 in
  let s_bio_norm := Series.rank_pct s_bio in
  {| out_crs := roads_crs roads_gdf;
     out_roads := roads;
     out_canopy_area_sq_m := canopy;
     out_s_co2_total := co2;
     out_s_bio_count := bio;
     s_canopy := s_canopy;
     s_co2 := s_co2;
     s_bio := s_bio;
     s_canopy_norm := s_canopy_norm;
     s_co2_norm := s_co2_norm;
     s_bio_norm := s_bio_norm;
     static_eqs :=
       Series.add (Series.add (Series.scale (5/10) s_canopy_norm)
                              (Series.scale (3/10) s_co2_norm))
                  (Series.scale (2/10) s_bio_norm);
     serenity_score :=
       Series.add (Series.scale (7/10) s_canopy_norm)
                  (Series.scale (3/10) s_bio_norm) |}.

(** Steps 4 to 8: from the joined rows to the returned frame.  Line 52
    divides a column of the merged frame, labelled [0 .. n-1], by a column
    of [road_buffers], labelled as the roads are. *)
Definition score (roads_gdf : RoadsFrame) (road_buffers : list Buffer)
  (joined_gdf : list Joined) : outcome ScoredFrame :=
  let eco_scores := groupby_agg joined_gdf in
  let merged := merge roads_gdf eco_scores in
  let canopy := map (fun m => fillna (merged_canopy_area_sq_m m)) merged in
  match assign_quotient (RangeIndex (List.length merged)) canopy
                        (roads_index roads_gdf)
                        (map buffer_area_sq_m road_buffers) with
  | Returned s_canopy => Returned (scores_from roads_gdf merged s_canopy)
  | Raised e => Raised e
  end.

Local Open Scope py_scope.

Definition calculate_environmental_scores (buffer_size_meters : Z)
  : Py ScoredFrame :=
  print (banner buffer_size_meters) ;;
  roads_gdf <- read_roads ;;
  passed <- read_trees CallerObject ;;
  trees_gdf <-
    (if negb (crs_eqb (roads_crs roads_gdf) (trees_crs passed))
     then print warning ;;
          reprojected <- lift (to_crs passed (roads_crs roads_gdf)) ;;
          ret (LocalObject reprojected)
     else ret CallerObject) ;;
  let road_buffers := make_road_buffers roads_gdf buffer_size_meters in
  trees <- read_trees trees_gdf ;;
  trees_gdf <- setitem_canopy_area trees_gdf (map canopy_area (trees_rows trees)) ;;
  trees <- read_trees trees_gdf ;;
  joined_gdf <- sjoin trees road_buffers ;;
  lift (score roads_gdf road_buffers joined_gdf).

End Pipeline.

(** ** A planar implementation of the geometry interface

    Points and straight segments with integer coordinates.  The buffer of
    a segment is the set of points closer to it than the distance, so
    its area is that of a rectangle and two half discs; [within] is the
    strict containment test, decided on squared distances. *)

Module Planar.

Inductive shape : Type :=
| Empty
| Point (x y : Z)
| LineString (x1 y1 x2 y2 : Z)
| Capsule (x1 y1 x2 y2 d : Z).

Definition span (x1 y1 x2 y2 : Z) : R :=
  sqrt (IZR ((x2 - x1) * (x2 - x1) + (y2 - y1) * (y2 - y1))).

Definition buffer (g : shape) (d : Z) : shape :=
  match g with
  | Empty => Empty
  | Point x y => if (0 <? d)%Z then Capsule x y x y d else Empty
  | LineString x1 y1 x2 y2 =>
      if (0 <? d)%Z then Capsule x1 y1 x2 y2 d else Empty
  | Capsule x1 y1 x2 y2 d0 =>
      if (0 <? d0 + d)%Z then Capsule x1 y1 x2 y2 (d0 + d) else Empty
  end.

Definition area (g : shape) : R :=
  match g with
  | Capsule x1 y1 x2 y2 d => 2 * IZR d * span x1 y1 x2 y2 + PI * IZR d * IZR d
  | _ => 0
  end.

Definition length (g : shape) : R :=
  match g with
  | LineString x1 y1 x2 y2 => span x1 y1 x2 y2
  | Capsule x1 y1 x2 y2 d => 2 * span x1 y1 x2 y2 + 2 * PI * IZR d
  | _ => 0
  end.

Definition within (p q : shape) : bool :=
  match p, q with
  | Point x y, Capsule x1 y1 x2 y2 d =>
      let dx := (x2 - x1)%Z in
      let dy := (y2 - y1)%Z in
      let px := (x - x1)%Z in
      let py := (y - y1)%Z in
      let len2 := (dx * dx + dy * dy)%Z in
      let dot := (px * dx + py * dy)%Z in
      if (dot <=? 0)%Z then (px * px + py * py <? d * d)%Z
      else if (len2 <=? dot)%Z
           then ((x - x2) * (x - x2) + (y - y2) * (y - y2) <? d * d)%Z
           else ((px * px + py * py) * len2 - dot * dot <? d * d * len2)%Z
  | _, _ => false
  end.

(** Two reference systems on the same plane: the second has its origin
    1000 units to the east of the first. *)
Definition utm43n : CRS := "EPSG:32643"%string.
Definition shifted : CRS := "LOCAL:1000E"%string.

Definition easting (crs : CRS) : Z :=
  if (crs =? shifted)%string then 1000%Z else 0%Z.

Definition transform (from to : CRS) (g : shape) : shape :=
  let dx := (easting from - easting to)%Z in
  match g with
  | Empty => Empty
  | Point x y => Point (x + dx) y
  | LineString x1 y1 x2 y2 => LineString (x1 + dx) y1 (x2 + dx) y2
  | Capsule x1 y1 x2 y2 d => Capsule (x1 + dx) y1 (x2 + dx) y2 d
  end.

#[export] Instance plane : Geometry :=
  Build_Geometry shape buffer area length within transform.

(** The frames of the demo at the end of [analytics_engine.py]. *)
Definition demo_roads : RoadsFrame :=
  {| roads_crs := Some utm43n;
     roads_table :=
       [ (0%Z, {| segment_id := 1; geometry := LineString 0 0 100 0 |});
         (1%Z, {| segment_id := 2; geometry := LineString 0 50 100 50 |}) ] |}.

Definition tree (dia co2 : R) (name : string) (x y : Z) : Tree :=
  {| canopy_dia_m := dia;
     CO2_sequestered_kg := co2;
     botanical_name := name;
     tree_geometry := Point x y |}.

Definition demo_trees : TreesFrame :=
  {| trees_crs := Some utm43n;
     trees_rows := [ tree 10 50 "Ficus religiosa" 25 2;
                     tree 8 30 "Azadirachta indica" 75 (-1);
                     tree 12 70 "Ficus religiosa" 25 48;
                     tree 5 15 "Peltophorum pterocarpum" 75 51 ];
     canopy_area_sq_m := None |}.

Definition call (roads : RoadsFrame) (trees : TreesFrame) : Caller :=
  {| caller_roads := roads; caller_trees := trees; stdout := [] |}.

(** The call of the demo, on a fresh standard output. *)
Definition demo : Caller := call demo_roads demo_trees.

(** The first road of the demo and a road reduced to a point,
    [LineString([(0, 50), (0, 50)])]. *)
Definition roads_with_point : RoadsFrame :=
  {| roads_crs := Some utm43n;
     roads_table :=
       [ (0%Z, {| segment_id := 1; geometry := LineString 0 0 100 0 |});
         (1%Z, {| segment_id := 2; geometry := LineString 0 50 0 50 |}) ] |}.

(** The two demo trees that stand along the first road. *)
Definition south_trees : TreesFrame :=
  {| trees_crs := Some utm43n;
     trees_rows := [ tree 10 50 "Ficus religiosa" 25 2;
                     tree 8 30 "Azadirachta indica" 75 (-1) ];
     canopy_area_sq_m := None |}.

(** A call on the roads with the point and the trees of the first road. *)
Definition degenerate : Caller := call roads_with_point south_trees.

(** One tree, its canopy diameter negative. *)
Definition negative_tree : TreesFrame :=
  {| trees_crs := Some utm43n;
     trees_rows := [ tree (-2) 50 "Ficus religiosa" 25 2 ];
     canopy_area_sq_m := None |}.

(** The roads of the demo as a slice [5:7] of a longer frame leaves them:
    under the row labels 5 and 6. *)
Definition sliced_roads : RoadsFrame :=
  {| roads_crs := Some utm43n;
     roads_table :=
       [ (5%Z, {| segment_id := 1; geometry := LineString 0 0 100 0 |});
         (6%Z, {| segment_id := 2; geometry := LineString 0 50 100 50 |}) ] |}.

(** The roads of the demo as the concatenation of two frames of one row
    leaves them: both under the row label 0. *)
Definition concatenated_roads : RoadsFrame :=
  {| roads_crs := Some utm43n;
     roads_table :=
       [ (0%Z, {| segment_id := 1; geometry := LineString 0 0 100 0 |});
         (0%Z, {| segment_id := 2; geometry := LineString 0 50 100 50 |}) ] |}.


(** The demo trees in a frame that was given no reference system. *)
Definition naive_trees : TreesFrame :=
  {| trees_crs := None;
     trees_rows := [ tree 10 50 "Ficus religiosa" 25 2;
                     tree 8 30 "Azadirachta indica" 75 (-1);
                     tree 12 70 "Ficus religiosa" 25 48;
                     tree 5 15 "Peltophorum pterocarpum" 75 51 ];
     canopy_area_sq_m := None |}.


End Planar.

(** ** Vocabulary of the properties *)

Section Vocabulary.
Context {G : Geometry}.

(** What a call returns, and the store it leaves to its caller. *)
Definition result (buffer_size_meters : Z) (s : Caller) : outcome ScoredFrame :=
  fst (calculate_environmental_scores buffer_size_meters s).

Definition after (buffer_size_meters : Z) (s : Caller) : Caller :=
  snd (calculate_environmental_scores buffer_size_meters s).

(** The rows of the trees in the reference system of the roads (none
    when they cannot be taken there). *)
Definition aligned_trees (s : Caller) : list Tree :=
  if crs_eqb (roads_crs (caller_roads s)) (trees_crs (caller_trees s))
  then trees_rows (caller_trees s)
  else match to_crs (caller_trees s) (roads_crs (caller_roads s)) with
       | Returned reprojected => trees_rows reprojected
       | Raised _ => []
       end.

(** The two frames are in the same reference system, or each has one. *)
Definition reprojectable (s : Caller) : Prop :=
  roads_crs (caller_roads s) = trees_crs (caller_trees s) \/
  (roads_crs (caller_roads s) <> None /\ trees_crs (caller_trees s) <> None).

(** The inputs on which a call returns: the trees can be taken to the
    reference system of the roads, and no two roads have the same row
    label. *)
Definition runs (s : Caller) : Prop :=
  reprojectable s /\ NoDup (roads_index (caller_roads s)).

(** The rows of the roads are labelled by their positions, as pandas labels
    a frame that is given no index. *)
Definition default_labels (roads_gdf : RoadsFrame) : Prop :=
  roads_index roads_gdf = RangeIndex (List.length (roads_table roads_gdf)).

(** The trees joined to the buffer of a road. *)
Definition trees_joined (buffer_size_meters : Z) (s : Caller) (r : Road)
  : list Tree :=
  filter (fun t => within (tree_geometry t)
                          (buffer (geometry r) buffer_size_meters))
         (aligned_trees s).

(** The store of a caller who passes the trees [trees] instead. *)
Definition with_trees (s : Caller) (trees : TreesFrame) : Caller :=
  {| caller_roads := caller_roads s;
     caller_trees := trees;
     stdout := stdout s |}.

(** A tree, and a frame of trees, with the canopy diameter replaced by its
    absolute value. *)
Definition absolute_diameter (t : Tree) : Tree :=
  {| canopy_dia_m := Rabs (canopy_dia_m t);
     CO2_sequestered_kg := CO2_sequestered_kg t;
     botanical_name := botanical_name t;
     tree_geometry := tree_geometry t |}.

Definition absolute_diameters (trees : TreesFrame) : TreesFrame :=
  {| trees_crs := trees_crs trees;
     trees_rows := map absolute_diameter (trees_rows trees);
     canopy_area_sq_m := canopy_area_sq_m trees |}.

(** The rows of [joined_gdf] in a call. *)
Definition joined_rows (buffer_size_meters : Z) (s : Caller) : list Joined :=
  join_rows (combine (aligned_trees s) (map canopy_area (aligned_trees s)))
            (make_road_buffers (caller_roads s) buffer_size_meters).

(** The frame of steps 4 to 8 when line 52 raises nothing. *)
Definition scored_frame (roads_gdf : RoadsFrame) (road_buffers : list Buffer)
  (joined_gdf : list Joined) : ScoredFrame :=
  let merged := merge roads_gdf (groupby_agg joined_gdf) in
  scores_from roads_gdf merged
    (Series.quotient (RangeIndex (List.length merged))
       (map (fun m => fillna (merged_canopy_area_sq_m m)) merged)
       (roads_index roads_gdf)
       (map buffer_area_sq_m road_buffers)).

(** The frame of a call that returns. *)
Definition frame (buffer_size_meters : Z) (s : Caller) : ScoredFrame :=
  scored_frame (caller_roads s)
              (make_road_buffers (caller_roads s) buffer_size_meters)
              (joined_rows buffer_size_meters s).

(** The cells of a merged row: those of the group of its key, or missing
    values when the key has no group. *)
Definition merged_row (joined : list Joined) (r : Road) : Merged :=
  if in_dec Z.eq_dec (segment_id r) (map joined_segment_id joined)
  then
    let rows := group joined (segment_id r) in
    {| merged_road := r;
       merged_canopy_area_sq_m :=
         Some (Series.sum (map joined_canopy_area_sq_m rows));
       merged_s_co2_total :=
         Some (Series.sum (map joined_CO2_sequestered_kg rows));
       merged_s_bio_count :=
         Some (INR (nunique (map joined_botanical_name rows))) |}
  else
    {| merged_road := r;
       merged_canopy_area_sq_m := None;
       merged_s_co2_total := None;
       merged_s_bio_count := None |}.

(** The number of rows of the returned frame keyed by [k]. *)
Definition rows_keyed (k : Z) (out : ScoredFrame) : nat :=
  count_occ Z.eq_dec (map segment_id (out_roads out)) k.

(** Every column of the returned frame has one cell per row. *)
Definition rectangular (out : ScoredFrame) : Prop :=
  let n := List.length (out_roads out) in
  List.length (out_canopy_area_sq_m out) = n /\
  List.length (out_s_co2_total out) = n /\
  List.length (out_s_bio_count out) = n /\
  List.length (s_canopy out) = n /\
  List.length (s_co2 out) = n /\
  List.length (s_bio out) = n /\
  List.length (s_canopy_norm out) = n /\
  List.length (s_co2_norm out) = n /\
  List.length (s_bio_norm out) = n /\
  List.length (static_eqs out) = n /\
  List.length (serenity_score out) = n.

(** The number of values of a column that are at most [x]. *)
Definition count_le (col : list float) (x : float) : nat :=
  List.length (filter (fun y => Float.leb y x) col).

(** A float that holds a number of the interval (0, 1]. *)
Definition unit_interval (x : float) : Prop :=
  exists r, x = Fin r /\ 0 < r <= 1.

(** [norm] holds the percentile ranks of [raw].  A NaN stays NaN.  Any
    other value gets the mean rank fraction of its tie group, the ranks
    counted among the values that are not NaN (all of them, when none is
    NaN); when the value is not tied
    this is the fraction of those values that are at most it.  Such a rank
    lies in (0, 1], is 1 for a value that occurs once and bounds the
    others, and does not decrease when the raw value increases. *)
Definition percentile_ranked (raw norm : list float) : Prop :=
  List.length norm = List.length raw /\
  ((forall x, In x raw -> isnan x = false) ->
   Series.count_valid raw = List.length raw) /\
  forall i x, nth_error raw i = Some x ->
    exists p, nth_error norm i = Some p /\
      (isnan x = true -> p = NaN) /\
      (isnan x = false ->
         p = Fin ((INR (Series.count_lt raw x)
                   + (INR (Series.count_eq raw x) + 1) / 2)
                  / INR (Series.count_valid raw)) /\
         (Series.count_eq raw x = 1%nat ->
          p = Fin (INR (count_le raw x) / INR (Series.count_valid raw))) /\
         unit_interval p /\
         (Series.count_eq raw x = 1%nat ->
          count_le raw x = Series.count_valid raw -> p = Fin 1) /\
         (forall j y q, nth_error raw j = Some y -> nth_error norm j = Some q ->
                        Float.le x y -> Float.le p q)).

End Vocabulary.

(** ** Float arithmetic on two floats

    The operations of the collaborators, whose operands are themselves
    results of float arithmetic.  Zero has no sign here: a division by zero
    takes the sign of its numerator.  Numbers being exact, a quotient
    never underflows to zero and [x ** 2] never overflows: the
    [OverflowError] that Python raises there is outside the model. *)

Module FloatArith.

Definition mul (x y : float) : float :=
  match x, y with
  | NaN, _ | _, NaN => NaN
  | Fin a, _ => Float.scale a y
  | _, Fin b => Float.scale b x
  | PInf, PInf | NInf, NInf => PInf
  | PInf, NInf | NInf, PInf => NInf
  end.

(** [x / y] as numpy divides. *)
Definition fdiv (x y : float) : float :=
  match x, y with
  | NaN, _ | _, NaN => NaN
  | Fin a, Fin b => Float.div a b
  | Fin _, _ => Fin 0
  | PInf, Fin b => if Rlt_dec b 0 then NInf else PInf
  | NInf, Fin b => if Rlt_dec b 0 then PInf else NInf
  | _, _ => NaN
  end.

(** [x / y] on two Python floats: a zero divisor is an exception. *)
Definition truediv (x y : float) : outcome float :=
  match y with
  | Fin b => if Req_dec_T b 0 then Raised "ZeroDivisionError"
             else Returned (fdiv x y)
  | _ => Returned (fdiv x y)
  end.

Definition sub (x y : float) : float := Float.add x (Float.scale (-1) y).

(** [x ** 2] *)
Definition square (x : float) : float := mul x x.

(** Sequencing of two computations that may raise. *)
Definition and_then {A B} (c : outcome A) (k : A -> outcome B) : outcome B :=
  match c with
  | Returned a => k a
  | Raised e => Raised e
  end.

End FloatArith.

Declare Scope outcome_scope.
Delimit Scope outcome_scope with outcome.
Notation "x <- c ;; k" := (FloatArith.and_then c (fun x => k))
  (at level 61, c at next level, right associativity) : outcome_scope.

(** ** The route-cost evaluator of [routing_logic.py] *)

Module Routing.
Local Open Scope outcome_scope.

Definition calculate_emission_factor_g_per_km (speed_kmh : float)
  : outcome float :=
  let speed_kmh := if Float.ltb speed_kmh (Fin 1) then Fin 1 else speed_kmh in
  let k1 := Fin 80 in
  let k2 := Fin 6500 in
  let k3 := Fin (3 / 100) in
  congestion_term <- FloatArith.truediv k2 speed_kmh ;;
  let drag_term := FloatArith.mul k3 (FloatArith.square speed_kmh) in
  Returned (Float.add (Float.add k1 congestion_term) drag_term).

(** [Series.mean()]: the sum of the values that are not NaN over their
    number, and NaN when there is none. *)
Definition mean (col : list float) : float :=
  match filter (fun y => negb (isnan y)) col with
  | [] => NaN
  | valid =>
      FloatArith.fdiv (fold_right Float.add (Fin 0) valid)
                      (Fin (INR (List.length valid)))
  end.

(** The dictionary under the key ["components"]. *)
Record Components : Type := {
  distance_cost : float;
  emissions_cost : float;
  environmental_reward : float
}.

(** The dictionary that [analyze_route_holistic_cost] returns. *)
Record Analysis : Type := {
  holistic_cost : float;
  avg_eco_score : float;
  total_emissions_kg : float;
  components : Components
}.

(** [route_segments_data] is read through its column ['static_eqs']. *)
Definition analyze_route_holistic_cost (static_eqs : list float)
  (route_length_km route_time_min : R) : outcome Analysis :=
  let W_DIST := Fin (3 / 10) in
  let W_EMIS := Fin (5 / 10) in
  let W_ECO := Fin (2 / 10) in
  avg_speed_kmh <-
    (if Rlt_dec 0 route_time_min
     then hours <- FloatArith.truediv (Fin route_time_min) (Fin 60) ;;
          FloatArith.truediv (Fin route_length_km) hours
     else Returned (Fin 0)) ;;
  emissions_g_per_km <- calculate_emission_factor_g_per_km avg_speed_kmh ;;
  total_emissions_kg <-
    FloatArith.truediv (FloatArith.mul emissions_g_per_km (Fin route_length_km))
                       (Fin 1000) ;;
  let distance_cost := FloatArith.mul W_DIST (Fin route_length_km) in
  let emissions_cost := FloatArith.mul W_EMIS total_emissions_kg in
  let avg_eco_score := mean static_eqs in
  let environmental_reward :=
    FloatArith.mul (FloatArith.mul W_ECO avg_eco_score) (Fin route_length_km) in
  let holistic_cost :=
    FloatArith.sub (Float.add distance_cost emissions_cost) environmental_reward in
  Returned
    {| holistic_cost := holistic_cost;
       avg_eco_score := avg_eco_score;
       total_emissions_kg := total_emissions_kg;
       components := {| distance_cost := distance_cost;
                        emissions_cost := emissions_cost;
                        environmental_reward := environmental_reward |} |}.

End Routing.

(** ** The measurement model of [photogrammetry_model.py] *)

Module Photogrammetry.
Local Open Scope outcome_scope.

Definition calculate_camera_constant (sensor_width_mm focal_length_mm : R)
  : outcome float :=
  if Rle_dec focal_length_mm 0 then Raised "ValueError"
  else FloatArith.truediv (Fin sensor_width_mm) (Fin focal_length_mm).

Definition calculate_scale_factor (camera_constant : float)
  (distance_to_object_m : R) (image_width_px : Z) : outcome float :=
  if (image_width_px <=? 0)%Z then Raised "ValueError"
  else
    let scene_width_m := FloatArith.mul camera_constant (Fin distance_to_object_m) in
    FloatArith.truediv scene_width_m (Fin (IZR image_width_px)).

Definition measure_dimension_from_pixels (scale_factor_m_per_px : float)
  (dimension_in_pixels : Z) : float :=
  FloatArith.mul scale_factor_m_per_px (Fin (IZR dimension_in_pixels)).

(** Steps 1 to 3 of the example: from the camera, the distance and the
    photo to a real dimension. *)
Definition measure (sensor_width_mm focal_length_mm distance_m : R)
  (photo_width_px dimension_in_pixels : Z) : outcome float :=
  cam_const <- calculate_camera_constant sensor_width_mm focal_length_mm ;;
  scale_factor <- calculate_scale_factor cam_const distance_m photo_width_px ;;
  Returned (measure_dimension_from_pixels scale_factor dimension_in_pixels).

End Photogrammetry.

(** ** Vocabulary of the further properties *)

Section FurtherVocabulary.
Context {G : Geometry}.

(** A geometry of the trees, in the reference system of the roads. *)
Definition in_roads_crs (s : Caller) (g : geom) : geom :=
  match trees_crs (caller_trees s), roads_crs (caller_roads s) with
  | Some from, Some to => if (to =? from)%string then g else transform from to g
  | _, _ => g
  end.

(** The store of a caller who passes the roads [roads] instead. *)
Definition with_roads (s : Caller) (roads : RoadsFrame) : Caller :=
  {| caller_roads := roads;
     caller_trees := caller_trees s;
     stdout := stdout s |}.

(** The raw scores of a road in a call. *)
Definition raw_canopy (d : Z) (s : Caller) (r : Road) : float :=
  Float.div (fillna (merged_canopy_area_sq_m (merged_row (joined_rows d s) r)))
            (area (buffer (geometry r) d)).

Definition raw_co2 (d : Z) (s : Caller) (r : Road) : float :=
  Float.div (fillna (merged_s_co2_total (merged_row (joined_rows d s) r)))
            (length (geometry r)).

Definition raw_bio (d : Z) (s : Caller) (r : Road) : float :=
  Float.log1p (fillna (merged_s_bio_count (merged_row (joined_rows d s) r))).

End FurtherVocabulary.

(** The average rank of a value, before the division of [pct=True]. *)
Definition rank_value (col : list float) (x : float) : R :=
  INR (Series.count_lt col x) + (INR (Series.count_eq col x) + 1) / 2.

Definition indicator (b : bool) : R := if b then 1 else 0.

(** A cell that is NaN or a number of (0, 1]. *)
Definition scored (cell : float) : Prop :=
  cell = NaN \/ exists e, cell = Fin e /\ 0 < e <= 1.

(** The curve of the emission factor at a speed of at least 1 km/h. *)
Definition emission_curve (v : R) : R := 80 + 6500 / v + 3 / 100 * (v * v).

(** The average speed of a route, 0 when it takes no time. *)
Definition avg_speed (route_length_km route_time_min : R) : R :=
  if Rlt_dec 0 route_time_min then route_length_km / (route_time_min / 60) else 0.

(** Variations of the demo frames: its roads one by one, its roads in reverse
    order, its trees with one more tree far from both roads, and its trees
    with the first two rows swapped. *)
Module Variations.

Definition first_road : @Road Planar.plane :=
  @Build_Road Planar.plane 1 (Planar.LineString 0 0 100 0).

Definition second_road : @Road Planar.plane :=
  @Build_Road Planar.plane 2 (Planar.LineString 0 50 100 50).

Definition point_road : @Road Planar.plane :=
  @Build_Road Planar.plane 2 (Planar.LineString 0 50 0 50).

Definition reversed_roads : @RoadsFrame Planar.plane :=
  @Build_RoadsFrame Planar.plane (Some Planar.utm43n)
    [(0%Z, second_road); (1%Z, first_road)].

Definition far_tree : @Tree Planar.plane :=
  Planar.tree 3 9 "Ficus religiosa" 500 500.

Definition trees_with_far_tree : @TreesFrame Planar.plane :=
  @Build_TreesFrame Planar.plane (Some Planar.utm43n)
    (far_tree :: @trees_rows Planar.plane Planar.demo_trees) None.

Definition swapped_trees : @TreesFrame Planar.plane :=
  @Build_TreesFrame Planar.plane (Some Planar.utm43n)
    [ Planar.tree 8 30 "Azadirachta indica" 75 (-1);
      Planar.tree 10 50 "Ficus religiosa" 25 2;
      Planar.tree 12 70 "Ficus religiosa" 25 48;
      Planar.tree 5 15 "Peltophorum pterocarpum" 75 51 ]
    None.

End Variations.

(** ** Running a call *)

Section Run.
Context {G : Geometry}.
Implicit Types (s : Caller) (d : Z).

Lemma crs_eqb_eq (a b : option CRS) : crs_eqb a b = true <-> a = b.
Proof.
  destruct a as [x|], b as [y|]; cbn; try (split; [discriminate|discriminate]).
  - rewrite String.eqb_eq. split; [intros ->; reflexivity|congruence].
  - tauto.
Qed.

Lemma crs_eqb_neq (a b : option CRS) : crs_eqb a b = false <-> a <> b.
Proof.
  rewrite <- crs_eqb_eq. destruct (crs_eqb a b); split; congruence.
Qed.

Lemma crs_eqb_refl (a : option CRS) : crs_eqb a a = true.
Proof. apply crs_eqb_eq. reflexivity. Qed.

Lemma index_equals_eq (index labels : list Z) :
  Series.index_equals index labels = true <-> index = labels.
Proof.
  unfold Series.index_equals.
  destruct (list_eq_dec Z.eq_dec index labels); split; congruence.
Qed.

Lemma is_unique_NoDup (labels : list Z) :
  Series.is_unique labels = true <-> NoDup labels.
Proof.
  induction labels as [|i rest IH]; cbn.
  - split; [constructor|reflexivity].
  - rewrite andb_true_iff, negb_true_iff, IH. split.
    + intros [Hnot Hnd]. constructor; [|exact Hnd].
      intro Hin. assert (existsb (Z.eqb i) rest = true) as Habs.
      { apply existsb_exists. exists i. split; [exact Hin|apply Z.eqb_refl]. }
      congruence.
    + intros Hnd. inversion Hnd as [|? ? Hnot Hnd']; subst.
      split; [|exact Hnd'].
      destruct (existsb (Z.eqb i) rest) eqn:He; [|reflexivity].
      apply existsb_exists in He. destruct He as (j & Hin & Hj).
      apply Z.eqb_eq in Hj. subst j. contradiction.
Qed.

Lemma RangeIndex_NoDup (n : nat) : NoDup (RangeIndex n).
Proof.
  unfold RangeIndex. apply Finite.Injective_map_NoDup; [|apply seq_NoDup].
  intros a b. apply Nat2Z.inj.
Qed.

Lemma RangeIndex_length (n : nat) : List.length (RangeIndex n) = n.
Proof. unfold RangeIndex. rewrite length_map. apply length_seq. Qed.

(** Line 52 raises nothing exactly when no two roads have the same label. *)
Lemma assign_quotient_unique (n : nat) (a : list R) (labels : list Z) (b : list R) :
  NoDup labels ->
  assign_quotient (RangeIndex n) a labels b
  = Returned (Series.quotient (RangeIndex n) a labels b).
Proof.
  intros Hnd. unfold assign_quotient.
  rewrite (proj2 (is_unique_NoDup _) (RangeIndex_NoDup n)).
  rewrite (proj2 (is_unique_NoDup _) Hnd). rewrite orb_true_r. reflexivity.
Qed.

Lemma assign_quotient_duplicate (n : nat) (a : list R) (labels : list Z) (b : list R) :
  ~ NoDup labels ->
  assign_quotient (RangeIndex n) a labels b = Raised "ValueError".
Proof.
  intros Hdup. unfold assign_quotient.
  destruct (Series.index_equals (RangeIndex n) labels) eqn:He.
  - exfalso. apply Hdup. apply index_equals_eq in He. rewrite <- He.
    apply RangeIndex_NoDup.
  - destruct (Series.is_unique labels) eqn:Hu.
    + exfalso. apply Hdup. apply is_unique_NoDup. exact Hu.
    + rewrite andb_false_r. reflexivity.
Qed.

Lemma score_eq (roads_gdf : RoadsFrame) (bufs : list Buffer) (joined : list Joined) :
  NoDup (roads_index roads_gdf) ->
  score roads_gdf bufs joined = Returned (scored_frame roads_gdf bufs joined).
Proof.
  intros Hnd. unfold score, scored_frame.
  rewrite assign_quotient_unique by exact Hnd. reflexivity.
Qed.

Lemma score_duplicate (roads_gdf : RoadsFrame) (bufs : list Buffer)
  (joined : list Joined) :
  ~ NoDup (roads_index roads_gdf) ->
  score roads_gdf bufs joined = Raised "ValueError".
Proof.
  intros Hdup. unfold score.
  rewrite assign_quotient_duplicate by exact Hdup. reflexivity.
Qed.

(** A call, step by step: what it returns or raises, and the store it
    leaves, which is the same in either case. *)
Lemma run_eq d s :
  calculate_environmental_scores d s =
  (if crs_eqb (roads_crs (caller_roads s)) (trees_crs (caller_trees s))
   then score (caller_roads s) (make_road_buffers (caller_roads s) d)
              (joined_rows d s)
   else match to_crs (caller_trees s) (roads_crs (caller_roads s)) with
        | Returned _ =>
            score (caller_roads s) (make_road_buffers (caller_roads s) d)
                  (joined_rows d s)
        | Raised e => Raised e
        end,
   {| caller_roads := caller_roads s;
      caller_trees :=
        if crs_eqb (roads_crs (caller_roads s)) (trees_crs (caller_trees s))
        then assign_canopy_area (caller_trees s)
               (map canopy_area (trees_rows (caller_trees s)))
        else caller_trees s;
      stdout :=
        stdout s ++ banner d ::
          (if crs_eqb (roads_crs (caller_roads s)) (trees_crs (caller_trees s))
           then [] else [warning]) |}).
Proof.
  unfold calculate_environmental_scores, joined_rows, aligned_trees, bind,
    print, read_roads, read_trees, ret, lift.
  cbn [caller_roads caller_trees stdout].
  destruct (crs_eqb (roads_crs (caller_roads s)) (trees_crs (caller_trees s)));
    cbn [negb setitem_canopy_area ret sjoin assign_canopy_area
         canopy_area_sq_m trees_rows caller_roads caller_trees stdout].
  - reflexivity.
  - rewrite <- app_assoc. cbn [app].
    destruct (to_crs (caller_trees s) (roads_crs (caller_roads s)));
      reflexivity.
Qed.

Lemma after_eq d s :
  after d s =
  {| caller_roads := caller_roads s;
     caller_trees :=
       if crs_eqb (roads_crs (caller_roads s)) (trees_crs (caller_trees s))
       then assign_canopy_area (caller_trees s)
              (map canopy_area (trees_rows (caller_trees s)))
       else caller_trees s;
     stdout :=
       stdout s ++ banner d ::
         (if crs_eqb (roads_crs (caller_roads s)) (trees_crs (caller_trees s))
          then [] else [warning]) |}.
Proof. unfold after. rewrite run_eq. reflexivity. Qed.

Lemma to_crs_returns s :
  reprojectable s ->
  crs_eqb (roads_crs (caller_roads s)) (trees_crs (caller_trees s)) = false ->
  exists reprojected,
    to_crs (caller_trees s) (roads_crs (caller_roads s)) = Returned reprojected.
Proof.
  intros [Heq|[Hr Ht]] Hne.
  - apply crs_eqb_neq in Hne. contradiction.
  - unfold to_crs. destruct (trees_crs (caller_trees s)); [|contradiction].
    destruct (roads_crs (caller_roads s)); [|contradiction].
    eexists. reflexivity.
Qed.

Lemma to_crs_raises s :
  ~ reprojectable s ->
  crs_eqb (roads_crs (caller_roads s)) (trees_crs (caller_trees s)) = false /\
  to_crs (caller_trees s) (roads_crs (caller_roads s)) = Raised "ValueError".
Proof.
  intros Hnot. unfold reprojectable in Hnot. split.
  - apply crs_eqb_neq. tauto.
  - unfold to_crs. destruct (trees_crs (caller_trees s)) as [from|];
      [|reflexivity].
    destruct (roads_crs (caller_roads s)) as [to|]; [|reflexivity].
    exfalso. apply Hnot. right. split; discriminate.
Qed.

Lemma reprojectable_dec s : reprojectable s \/ ~ reprojectable s.
Proof.
  unfold reprojectable.
  destruct (roads_crs (caller_roads s)) as [x|],
           (trees_crs (caller_trees s)) as [y|].
  - left. right. split; discriminate.
  - right. intros [H|[_ H]]; [discriminate|contradiction].
  - right. intros [H|[H _]]; [discriminate|contradiction].
  - left. left. reflexivity.
Qed.

(** When the call returns, it returns [frame]. *)
Lemma result_eq d s : runs s -> result d s = Returned (frame d s).
Proof.
  intros [Hcrs Hnd]. unfold result, frame. rewrite run_eq. cbn [fst].
  destruct (crs_eqb (roads_crs (caller_roads s)) (trees_crs (caller_trees s)))
    eqn:He.
  - apply score_eq. exact Hnd.
  - destruct (to_crs_returns s Hcrs He) as (reprojected & ->).
    apply score_eq. exact Hnd.
Qed.

(** On any other input it raises [ValueError]. *)
Lemma result_raises d s : ~ runs s -> result d s = Raised "ValueError".
Proof.
  intros Hnot. unfold result. rewrite run_eq. cbn [fst].
  destruct (reprojectable_dec s) as [Hcrs|Hcrs].
  - assert (~ NoDup (roads_index (caller_roads s))) as Hdup.
    { intro Hnd. apply Hnot. split; assumption. }
    destruct (crs_eqb _ _) eqn:He; [apply score_duplicate; exact Hdup|].
    destruct (to_crs_returns s Hcrs He) as (reprojected & ->).
    apply score_duplicate. exact Hdup.
  - destruct (to_crs_raises s Hcrs) as [-> ->]. reflexivity.
Qed.

End Run.

(** ** Grouping and merging *)

Section Grouping.
Context {G : Geometry}.

Lemma insert_key_In (k x : Z) (keys : list Z) :
  In x (insert_key k keys) <-> x = k \/ In x keys.
Proof.
  induction keys as [|h rest IH]; simpl.
  - intuition.
  - destruct (Z.ltb_spec k h); [simpl; intuition|].
    destruct (Z.eqb_spec k h); simpl; [subst; intuition|].
    rewrite IH. intuition.
Qed.

Lemma insert_key_sorted (k : Z) (keys : list Z) :
  StronglySorted Z.lt keys -> StronglySorted Z.lt (insert_key k keys).
Proof.
  induction 1 as [|h rest Hs IH Hall]; simpl.
  - repeat constructor.
  - destruct (Z.ltb_spec k h).
    + constructor; [constructor; assumption|].
      constructor; [assumption|].
      eapply Forall_impl; [|exact Hall]. intros; lia.
    + destruct (Z.eqb_spec k h); [constructor; assumption|].
      constructor; [assumption|].
      apply Forall_forall. intros x Hx. apply insert_key_In in Hx.
      destruct Hx as [->|Hx]; [lia|].
      rewrite Forall_forall in Hall. auto.
Qed.

Lemma sorted_NoDup (keys : list Z) : StronglySorted Z.lt keys -> NoDup keys.
Proof.
  induction 1 as [|h rest Hs IH Hall]; constructor; [|assumption].
  intro Hin. rewrite Forall_forall in Hall. specialize (Hall _ Hin). lia.
Qed.

Lemma group_keys_sorted (joined : list Joined) :
  StronglySorted Z.lt (group_keys joined).
Proof.
  unfold group_keys. induction (map joined_segment_id joined); simpl.
  - constructor.
  - apply insert_key_sorted. assumption.
Qed.

Lemma group_keys_In (joined : list Joined) (k : Z) :
  In k (group_keys joined) <-> In k (map joined_segment_id joined).
Proof.
  unfold group_keys. induction (map joined_segment_id joined); simpl.
  - tauto.
  - rewrite insert_key_In, IHl. intuition.
Qed.

Lemma groupby_agg_keys (joined : list Joined) :
  map eco_segment_id (groupby_agg joined) = group_keys joined.
Proof.
  unfold groupby_agg. rewrite map_map. simpl. apply map_id.
Qed.

(** The index of [eco_scores] has no duplicate. *)
Lemma groupby_agg_unique (joined : list Joined) :
  NoDup (map eco_segment_id (groupby_agg joined)).
Proof.
  rewrite groupby_agg_keys. apply sorted_NoDup, group_keys_sorted.
Qed.

Lemma filter_unique_key {A} (key : A -> Z) (k : Z) (l : list A) :
  NoDup (map key l) ->
  filter (fun e => (key e =? k)%Z) l = [] \/
  exists e, In e l /\ key e = k /\ filter (fun e => (key e =? k)%Z) l = [e].
Proof.
  induction l as [|a l IH]; simpl; intros Hnd; [left; reflexivity|].
  inversion Hnd as [|? ? Hnotin Hnd']; subst.
  destruct (Z.eqb_spec (key a) k) as [Heq|Hne].
  - right. exists a. repeat split; auto.
    f_equal. destruct (IH Hnd') as [He|(e & Hin & Hk & _)]; [exact He|].
    exfalso. apply Hnotin. rewrite Heq, <- Hk. apply in_map. exact Hin.
  - destruct (IH Hnd') as [He|(e & Hin & Hk & He)]; [left; exact He|].
    right. exists e. auto.
Qed.

Lemma flat_map_singletons {A B} (f : A -> list B) (g : A -> B) (l : list A) :
  (forall a, In a l -> f a = [g a]) -> flat_map f l = map g l.
Proof.
  induction l as [|a l IH]; intros Hf; [reflexivity|].
  cbn [flat_map map]. rewrite (Hf a (or_introl eq_refl)), IH; [reflexivity|].
  intros b Hb. apply Hf. right. exact Hb.
Qed.

(** A left merge onto the aggregates gives one row for each row of the
    roads, in the order of the roads. *)
Lemma merge_rows (roads_gdf : RoadsFrame) (joined : list Joined) :
  merge roads_gdf (groupby_agg joined) =
  map (merged_row joined) (roads_rows roads_gdf).
Proof.
  unfold merge. apply flat_map_singletons. intros r _. unfold merged_row.
  destruct (filter_unique_key eco_segment_id (segment_id r) (groupby_agg joined)
              (groupby_agg_unique joined)) as [He|(e & Hin & Hk & He)]; rewrite He.
  - destruct (in_dec Z.eq_dec (segment_id r) (map joined_segment_id joined))
      as [Hin|Hnot]; [|reflexivity].
    exfalso. apply group_keys_In in Hin. rewrite <- groupby_agg_keys in Hin.
    apply in_map_iff in Hin. destruct Hin as (e & Hk & Hin).
    assert (In e (filter (fun e => (eco_segment_id e =? segment_id r)%Z)
                         (groupby_agg joined))) as Habs.
    { apply filter_In. split; [exact Hin|]. apply Z.eqb_eq. exact Hk. }
    rewrite He in Habs. exact Habs.
  - destruct (in_dec Z.eq_dec (segment_id r) (map joined_segment_id joined))
      as [Hin'|Hnot].
    + unfold groupby_agg in Hin. apply in_map_iff in Hin.
      destruct Hin as (k & <- & _). simpl in Hk. subst k. reflexivity.
    + exfalso. apply Hnot. apply group_keys_In. rewrite <- groupby_agg_keys.
      rewrite <- Hk. apply in_map. exact Hin.
Qed.

Lemma merged_row_road (joined : list Joined) (r : Road) :
  merged_road (merged_row joined r) = r.
Proof.
  unfold merged_row.
  destruct (in_dec Z.eq_dec (segment_id r) (map joined_segment_id joined));
    reflexivity.
Qed.

Lemma merge_roads (roads_gdf : RoadsFrame) (joined : list Joined) :
  map merged_road (merge roads_gdf (groupby_agg joined)) = roads_rows roads_gdf.
Proof.
  rewrite merge_rows, map_map. erewrite map_ext; [apply map_id|].
  apply merged_row_road.
Qed.

End Grouping.

(** ** Columns of the returned frame *)

Section Columns.
Context {G : Geometry}.

Lemma div_length (a b : list R) :
  List.length (Series.div a b) = List.length a.
Proof.
  revert b. induction a as [|x a IH]; intros [|y b]; simpl;
    try rewrite IH; reflexivity.
Qed.

Lemma rank_pct_length (col : list float) :
  List.length (Series.rank_pct col) = List.length col.
Proof. apply length_map. Qed.

Lemma scale_length (w : R) (col : list float) :
  List.length (Series.scale w col) = List.length col.
Proof. apply length_map. Qed.

Lemma add_length (xs ys : list float) :
  List.length xs = List.length ys ->
  List.length (Series.add xs ys) = List.length xs.
Proof.
  intros H. unfold Series.add. rewrite length_map, length_combine, <- H.
  apply Nat.min_id.
Qed.

Lemma div_aligned_length (index : list Z) (a : list R) (labels : list Z)
  (b : list R) :
  List.length index = List.length a ->
  List.length (Series.div_aligned index a labels b) = List.length a.
Proof.
  intros H. unfold Series.div_aligned.
  rewrite length_map, length_combine, H. apply Nat.min_id.
Qed.

Lemma quotient_length (index : list Z) (a : list R) (labels : list Z)
  (b : list R) :
  List.length index = List.length a ->
  List.length (Series.quotient index a labels b) = List.length a.
Proof.
  intros H. unfold Series.quotient.
  destruct (Series.index_equals index labels);
    [apply div_length|apply div_aligned_length; exact H].
Qed.

Lemma score_roads (roads_gdf : RoadsFrame) (bufs : list Buffer)
  (joined : list Joined) :
  out_roads (scored_frame roads_gdf bufs joined) = roads_rows roads_gdf.
Proof. unfold scored_frame, scores_from. cbn [out_roads]. apply merge_roads. Qed.

Lemma score_rectangular (roads_gdf : RoadsFrame) (bufs : list Buffer)
  (joined : list Joined) :
  rectangular (scored_frame roads_gdf bufs joined).
Proof.
  unfold rectangular, scored_frame, scores_from.
  cbn [out_roads out_canopy_area_sq_m out_s_co2_total out_s_bio_count
       s_canopy s_co2 s_bio s_canopy_norm s_co2_norm s_bio_norm
       static_eqs serenity_score].
  assert (List.length
            (Series.quotient
               (RangeIndex (List.length (merge roads_gdf (groupby_agg joined))))
               (map (fun m => fillna (merged_canopy_area_sq_m m))
                    (merge roads_gdf (groupby_agg joined)))
               (roads_index roads_gdf) (map buffer_area_sq_m bufs))
          = List.length (merge roads_gdf (groupby_agg joined))) as Hq.
  { rewrite quotient_length; rewrite length_map; [reflexivity|].
    apply RangeIndex_length. }
  repeat rewrite ?add_length, ?scale_length, ?rank_pct_length, ?div_length,
    ?Hq, ?length_map;
  repeat split; reflexivity.
Qed.

End Columns.

(** ** One row per road segment *)

Section Rows.
Context {G : Geometry}.
Implicit Types (s : Caller) (d : Z).

(** C1. For roads with unique [segment_id] values and any trees, the
    frame that the call returns has exactly one row per input road segment,
    keyed by its [segment_id]: as many rows as roads, every column of that
    height, the key of every road on exactly one row (whether or not any
    tree joined it), and no key on two rows. *)
Theorem one_row_per_segment d s :
  NoDup (map segment_id (roads_rows (caller_roads s))) ->
  runs s ->
  exists out,
    result d s = Returned out /\
    List.length (out_roads out) = List.length (roads_rows (caller_roads s)) /\
    rectangular out /\
    (forall r, In r (roads_rows (caller_roads s)) ->
               rows_keyed (segment_id r) out = 1%nat) /\
    (forall k, (rows_keyed k out <= 1)%nat).
Proof.
  intros Hnd Hruns. eexists. split; [apply result_eq; exact Hruns|].
  unfold rows_keyed, frame. rewrite score_roads.
  split; [reflexivity|]. split; [apply score_rectangular|]. split.
  - intros r Hr. apply NoDup_count_occ'; [exact Hnd|].
    apply in_map. exact Hr.
  - intros k. apply (proj1 (NoDup_count_occ Z.eq_dec _) Hnd).
Qed.

(** C10. The rows of the returned frame are the rows of the input roads in
    the same order: row [i] of the output carries the [segment_id] and the
    geometry of row [i] of the input. *)
Theorem rows_in_input_order d s :
  runs s ->
  exists out,
    result d s = Returned out /\
    forall i, nth_error (out_roads out) i =
              nth_error (roads_rows (caller_roads s)) i.
Proof.
  intros Hruns. eexists. split; [apply result_eq; exact Hruns|].
  intros i. unfold frame. rewrite score_roads. reflexivity.
Qed.

End Rows.

(** ** Raw scores *)

Section RawScores.
Context {G : Geometry}.
Implicit Types (s : Caller) (d : Z).

Lemma div_map {A} (f g : A -> R) (l : list A) :
  Series.div (map f l) (map g l) = map (fun a => Float.div (f a) (g a)) l.
Proof. induction l as [|a l IH]; simpl; [|rewrite IH]; reflexivity. Qed.


Lemma div_nonzero (x y : R) : y <> 0 -> Float.div x y = Fin (x / y).
Proof.
  intros Hy. unfold Float.div. destruct (Req_dec_T y 0); [contradiction|].
  reflexivity.
Qed.

Lemma div_by_zero (x : R) :
  Float.div x 0 = if Req_dec_T x 0 then NaN
                  else if Rlt_dec 0 x then PInf else NInf.
Proof.
  unfold Float.div. destruct (Req_dec_T 0 0) as [_|Hne]; [reflexivity|].
  exfalso. apply Hne. reflexivity.
Qed.

Lemma log1p_zero : Float.log1p 0 = Fin 0.
Proof.
  unfold Float.log1p. destruct (Rlt_dec (-1) 0) as [_|Hn]; [|exfalso; lra].
  rewrite Rplus_0_r, ln_1. reflexivity.
Qed.

Lemma default_labels_runs s :
  reprojectable s -> default_labels (caller_roads s) -> runs s.
Proof.
  intros Hcrs Hlab. split; [exact Hcrs|]. rewrite Hlab. apply RangeIndex_NoDup.
Qed.

(** The frame a call returns, its raw columns row by row.  The cells of
    [s_canopy] are those of the aligned quotient of line 52. *)
Lemma raw_columns d s :
  runs s ->
  exists out,
    result d s = Returned out /\
    out_roads out = roads_rows (caller_roads s) /\
    out_canopy_area_sq_m out =
      map (fun r => fillna (merged_canopy_area_sq_m (merged_row (joined_rows d s) r)))
          (roads_rows (caller_roads s)) /\
    out_s_co2_total out =
      map (fun r => fillna (merged_s_co2_total (merged_row (joined_rows d s) r)))
          (roads_rows (caller_roads s)) /\
    out_s_bio_count out =
      map (fun r => fillna (merged_s_bio_count (merged_row (joined_rows d s) r)))
          (roads_rows (caller_roads s)) /\
    s_canopy out =
      Series.quotient
        (RangeIndex (List.length (roads_rows (caller_roads s))))
        (map (fun r => fillna (merged_canopy_area_sq_m (merged_row (joined_rows d s) r)))
             (roads_rows (caller_roads s)))
        (roads_index (caller_roads s))
        (map (fun r => area (buffer (geometry r) d))
             (roads_rows (caller_roads s))) /\
    s_co2 out =
      map (fun r =>
             Float.div (fillna (merged_s_co2_total (merged_row (joined_rows d s) r)))
                       (length (geometry r)))
          (roads_rows (caller_roads s)) /\
    s_bio out =
      map (fun r =>
             Float.log1p (fillna (merged_s_bio_count (merged_row (joined_rows d s) r))))
          (roads_rows (caller_roads s)).
Proof.
  intros Hruns. eexists. split; [apply result_eq; exact Hruns|].
  unfold frame. split; [apply score_roads|].
  unfold scored_frame, scores_from.
  cbn [out_canopy_area_sq_m out_s_co2_total out_s_bio_count s_canopy s_co2 s_bio].
  rewrite merge_rows, !map_map, length_map.
  unfold make_road_buffers. rewrite !map_map. cbn [buffer_area_sq_m].
  repeat split; try reflexivity.
  erewrite (map_ext (fun x => length (geometry (merged_road (merged_row _ x)))));
    [apply div_map|].
  intros r. rewrite merged_row_road. reflexivity.
Qed.

(** On roads with their default labels the quotient of line 52 is taken
    row by row. *)
Lemma quotient_default {A} (roads_gdf : RoadsFrame) (f g : A -> R) (l : list A) :
  default_labels roads_gdf ->
  List.length l = List.length (roads_table roads_gdf) ->
  Series.quotient (RangeIndex (List.length l)) (map f l)
                  (roads_index roads_gdf) (map g l)
  = map (fun a => Float.div (f a) (g a)) l.
Proof.
  intros Hlab Hlen. unfold Series.quotient. rewrite Hlab, Hlen.
  rewrite (proj2 (index_equals_eq _ _) eq_refl). apply div_map.
Qed.

Lemma raw_columns_default d s :
  reprojectable s ->
  default_labels (caller_roads s) ->
  exists out,
    result d s = Returned out /\
    out_roads out = roads_rows (caller_roads s) /\
    out_canopy_area_sq_m out =
      map (fun r => fillna (merged_canopy_area_sq_m (merged_row (joined_rows d s) r)))
          (roads_rows (caller_roads s)) /\
    out_s_co2_total out =
      map (fun r => fillna (merged_s_co2_total (merged_row (joined_rows d s) r)))
          (roads_rows (caller_roads s)) /\
    out_s_bio_count out =
      map (fun r => fillna (merged_s_bio_count (merged_row (joined_rows d s) r)))
          (roads_rows (caller_roads s)) /\
    s_canopy out =
      map (fun r =>
             Float.div (fillna (merged_canopy_area_sq_m (merged_row (joined_rows d s) r)))
                       (area (buffer (geometry r) d)))
          (roads_rows (caller_roads s)) /\
    s_co2 out =
      map (fun r =>
             Float.div (fillna (merged_s_co2_total (merged_row (joined_rows d s) r)))
                       (length (geometry r)))
          (roads_rows (caller_roads s)) /\
    s_bio out =
      map (fun r =>
             Float.log1p (fillna (merged_s_bio_count (merged_row (joined_rows d s) r))))
          (roads_rows (caller_roads s)).
Proof.
  intros Hcrs Hlab.
  destruct (raw_columns d s (default_labels_runs s Hcrs Hlab))
    as (out & Hres & Hroads & Hcan & Hco2 & Hbio & Hsc & Hsco2 & Hsbio).
  exists out. repeat (split; [assumption|]). split; [|split; assumption].
  rewrite Hsc. apply quotient_default; [exact Hlab|].
  unfold roads_rows. apply length_map.
Qed.





End RawScores.

(** ** Zero denominators *)

Section ZeroDenominators.
Context {G : Geometry}.
Implicit Types (s : Caller) (d : Z).

(** C3, as the code has it.  The two divisions are not guarded.  For a
    segment of a call that returns, a non-zero length gives [s_co2] as the
    quotient, and a zero length makes it NaN when the summed CO2 is 0 and a
    signed infinity otherwise: never the number 0.  On roads with their
    default row labels, on which line 52 divides row by row, the buffer
    area does the same to [s_canopy] with the summed canopy area. *)
Theorem unguarded_divisions d s (i : nat) (r : Road) :
  runs s ->
  nth_error (roads_rows (caller_roads s)) i = Some r ->
  exists out canopy co2,
    result d s = Returned out /\
    nth_error (out_canopy_area_sq_m out) i = Some canopy /\
    nth_error (out_s_co2_total out) i = Some co2 /\
    (length (geometry r) <> 0 ->
     nth_error (s_co2 out) i = Some (Fin (co2 / length (geometry r)))) /\
    (length (geometry r) = 0 ->
     nth_error (s_co2 out) i =
       Some (if Req_dec_T co2 0 then NaN
             else if Rlt_dec 0 co2 then PInf else NInf) /\
     nth_error (s_co2 out) i <> Some (Fin 0)) /\
    (default_labels (caller_roads s) ->
     (area (buffer (geometry r) d) <> 0 ->
      nth_error (s_canopy out) i =
        Some (Fin (canopy / area (buffer (geometry r) d)))) /\
     (area (buffer (geometry r) d) = 0 ->
      nth_error (s_canopy out) i =
        Some (if Req_dec_T canopy 0 then NaN
              else if Rlt_dec 0 canopy then PInf else NInf) /\
      nth_error (s_canopy out) i <> Some (Fin 0))).
Proof.
  intros Hruns Hi.
  destruct (raw_columns d s Hruns)
    as (out & Hres & _ & Hcan & Hco2 & _ & Hsc & Hsco2 & _).
  exists out. do 2 eexists. split; [exact Hres|].
  rewrite Hcan, Hco2, Hsc, Hsco2, !nth_error_map, Hi. cbn [option_map].
  split; [reflexivity|]. split; [reflexivity|].
  split; [|split].
  - intros Hne. rewrite div_nonzero by exact Hne. reflexivity.
  - intros ->. rewrite div_by_zero. split; [reflexivity|].
    destruct (Req_dec_T _ 0); [discriminate|].
    destruct (Rlt_dec 0 _); discriminate.
  - intros Hlab. rewrite quotient_default;
      [|exact Hlab|unfold roads_rows; apply length_map].
    rewrite nth_error_map, Hi. cbn [option_map]. split.
    + intros Hne. rewrite div_nonzero by exact Hne. reflexivity.
    + intros ->. rewrite div_by_zero. split; [reflexivity|].
      destruct (Req_dec_T _ 0); [discriminate|].
      destruct (Rlt_dec 0 _); discriminate.
Qed.

End ZeroDenominators.


(** ** Percentile ranks *)

Section Ranks.
Import Series.

Lemma ltb_lt (x y : float) : Float.ltb x y = true <-> Float.lt x y.
Proof.
  destruct x as [a| | |], y as [b| | |]; simpl;
    try (split; [discriminate|contradiction]);
    try (split; auto; fail).
  destruct (Rlt_dec a b); split; intros; auto; try discriminate; try contradiction.
Qed.

Lemma eqb_eq (x y : float) : Float.eqb x y = true <-> Float.eq x y.
Proof.
  destruct x as [a| | |], y as [b| | |]; simpl;
    try (split; [discriminate|contradiction]);
    try (split; auto; fail).
  destruct (Req_dec_T a b); split; intros; auto; try discriminate; try contradiction.
Qed.

Lemma leb_le (x y : float) : Float.leb x y = true <-> Float.le x y.
Proof.
  unfold Float.leb, Float.le. rewrite orb_true_iff, ltb_lt, eqb_eq. tauto.
Qed.

Lemma eq_refl_valid (x : float) : isnan x = false -> Float.eq x x.
Proof. destruct x; simpl; auto; discriminate. Qed.

Lemma lt_not_eq (x y : float) : Float.lt x y -> ~ Float.eq x y.
Proof. destruct x, y; simpl; auto; lra. Qed.

Lemma le_valid (x y : float) : Float.le x y -> isnan x = false /\ isnan y = false.
Proof. destruct x, y; simpl; intros [H|H]; auto; contradiction. Qed.

Lemma lt_eq_trans (z x y : float) : Float.lt z x -> Float.eq x y -> Float.lt z y.
Proof. destruct z, x, y; simpl; auto; try contradiction; lra. Qed.

Lemma eq_eq_trans (z x y : float) : Float.eq z x -> Float.eq x y -> Float.eq z y.
Proof. destruct z, x, y; simpl; auto; try contradiction; congruence. Qed.

Lemma eq_sym_float (x y : float) : Float.eq x y -> Float.eq y x.
Proof. destruct x, y; simpl; auto. Qed.

Lemma le_lt_trans_float (z x y : float) :
  Float.le z x -> Float.lt x y -> Float.lt z y.
Proof.
  intros [H|H]; destruct z, x, y; simpl in *; auto; try contradiction; lra.
Qed.

Lemma filter_length_le {A} (p q : A -> bool) (l : list A) :
  (forall a, p a = true -> q a = true) ->
  (List.length (filter p l) <= List.length (filter q l))%nat.
Proof.
  intros Hpq. induction l as [|a l IH]; simpl; [lia|].
  destruct (p a) eqn:Hp.
  - rewrite (Hpq a Hp). simpl. lia.
  - destruct (q a); simpl; lia.
Qed.

Lemma filter_length_ext {A} (p q : A -> bool) (l : list A) :
  (forall a, p a = q a) -> List.length (filter p l) = List.length (filter q l).
Proof. intros H. rewrite (filter_ext _ _ H). reflexivity. Qed.

Lemma filter_length_disjoint {A} (p q : A -> bool) (l : list A) :
  (forall a, p a = true -> q a = false) ->
  List.length (filter (fun a => p a || q a) l) =
  (List.length (filter p l) + List.length (filter q l))%nat.
Proof.
  intros Hpq. induction l as [|a l IH]; simpl; [reflexivity|].
  destruct (p a) eqn:Hp; simpl.
  - rewrite (Hpq a Hp). simpl. lia.
  - destruct (q a); simpl; lia.
Qed.

Lemma count_le_split (col : list float) (x : float) :
  count_le col x = (count_lt col x + count_eq col x)%nat.
Proof.
  unfold count_le, count_lt, count_eq, Float.leb.
  apply filter_length_disjoint. intros y Hlt.
  destruct (Float.eqb y x) eqn:Heq; [|reflexivity].
  exfalso. apply ltb_lt in Hlt. apply eqb_eq in Heq.
  exact (lt_not_eq _ _ Hlt Heq).
Qed.

Lemma count_le_valid (col : list float) (x : float) :
  (count_le col x <= count_valid col)%nat.
Proof.
  apply filter_length_le. intros y Hle. apply leb_le, le_valid in Hle.
  destruct Hle as [-> _]. reflexivity.
Qed.

Lemma count_eq_pos (col : list float) (x : float) :
  In x col -> isnan x = false -> (1 <= count_eq col x)%nat.
Proof.
  intros Hin Hx. unfold count_eq.
  assert (In x (filter (fun y => Float.eqb y x) col)) as H.
  { apply filter_In. split; [exact Hin|]. apply eqb_eq, eq_refl_valid, Hx. }
  destruct (filter _ col); [contradiction|simpl; lia].
Qed.

Lemma sum_ranks_closed (below dups : nat) :
  sum_ranks below dups =
  INR dups * INR below + INR dups * (INR dups + 1) / 2.
Proof.
  unfold sum_ranks. revert below.
  induction dups as [|n IH]; intros below.
  - simpl. lra.
  - cbn [seq map Series.sum fold_right]. fold (Series.sum (map INR (seq (S (S below)) n))).
    rewrite IH, !S_INR. field.
Qed.

(** The rank of a value that is not NaN, in closed form. *)
Lemma pct_closed (col : list float) (x : float) :
  In x col -> isnan x = false ->
  pct col x = Fin ((INR (count_lt col x) + (INR (count_eq col x) + 1) / 2)
                   / INR (count_valid col)).
Proof.
  intros Hin Hx. unfold pct, rank_average. rewrite Hx.
  rewrite sum_ranks_closed. f_equal. f_equal.
  pose proof (count_eq_pos col x Hin Hx) as Hpos. apply le_INR in Hpos.
  simpl in Hpos. field. lra.
Qed.

Lemma pct_nan (col : list float) (x : float) : isnan x = true -> pct col x = NaN.
Proof. intros Hx. unfold pct, rank_average. rewrite Hx. reflexivity. Qed.

(** What the counts of a value that is not NaN satisfy. *)
Lemma counts_bounds (col : list float) (x : float) :
  In x col -> isnan x = false ->
  0 <= INR (count_lt col x) /\
  1 <= INR (count_eq col x) /\
  INR (count_lt col x) + INR (count_eq col x) = INR (count_le col x) /\
  INR (count_le col x) <= INR (count_valid col).
Proof.
  intros Hin Hx. split; [apply pos_INR|]. split.
  - apply (le_INR 1). apply count_eq_pos; assumption.
  - rewrite <- plus_INR, <- count_le_split. split; [reflexivity|].
    apply le_INR, count_le_valid.
Qed.

Lemma pct_unit_interval (col : list float) (x : float) :
  In x col -> isnan x = false -> unit_interval (pct col x).
Proof.
  intros Hin Hx. rewrite (pct_closed col x Hin Hx).
  destruct (counts_bounds col x Hin Hx) as (Hl & He & Hs & Hv).
  eexists. split; [reflexivity|].
  set (L := INR (count_lt col x)) in *. set (E := INR (count_eq col x)) in *.
  set (V := INR (count_valid col)) in *.
  assert (0 < V) by lra. split.
  - apply Rdiv_lt_0_compat; lra.
  - apply (Rmult_le_reg_r V); [assumption|].
    unfold Rdiv. rewrite Rmult_assoc, Rinv_l by lra. lra.
Qed.

Lemma counts_eq_compat (col : list float) (x y : float) :
  Float.eq x y ->
  count_lt col x = count_lt col y /\ count_eq col x = count_eq col y.
Proof.
  intros Hxy. split; apply filter_length_ext; intros z.
  - destruct (Float.ltb z x) eqn:H1, (Float.ltb z y) eqn:H2; auto; exfalso.
    + apply ltb_lt in H1. pose proof (lt_eq_trans _ _ _ H1 Hxy) as H.
      apply ltb_lt in H. congruence.
    + apply ltb_lt in H2.
      pose proof (lt_eq_trans _ _ _ H2 (eq_sym_float _ _ Hxy)) as H.
      apply ltb_lt in H. congruence.
  - destruct (Float.eqb z x) eqn:H1, (Float.eqb z y) eqn:H2; auto; exfalso.
    + apply eqb_eq in H1. pose proof (eq_eq_trans _ _ _ H1 Hxy) as H.
      apply eqb_eq in H. congruence.
    + apply eqb_eq in H2.
      pose proof (eq_eq_trans _ _ _ H2 (eq_sym_float _ _ Hxy)) as H.
      apply eqb_eq in H. congruence.
Qed.

Lemma count_le_lt (col : list float) (x y : float) :
  Float.lt x y -> (count_le col x <= count_lt col y)%nat.
Proof.
  intros Hxy. apply filter_length_le. intros z Hz.
  apply leb_le in Hz. apply ltb_lt. eapply le_lt_trans_float; eassumption.
Qed.

Lemma pct_monotone (col : list float) (x y : float) :
  In x col -> In y col -> Float.le x y -> Float.le (pct col x) (pct col y).
Proof.
  intros Hx Hy Hle. destruct (le_valid _ _ Hle) as [Vx Vy].
  rewrite (pct_closed col x Hx Vx), (pct_closed col y Hy Vy).
  destruct (counts_bounds col x Hx Vx) as (Hlx & Hex & Hsx & Hvx).
  destruct (counts_bounds col y Hy Vy) as (Hly & Hey & Hsy & Hvy).
  destruct Hle as [Hlt|Heq].
  - left. simpl. pose proof (le_INR _ _ (count_le_lt col x y Hlt)) as Hc.
    assert (0 < INR (count_valid col)) by lra.
    unfold Rdiv. apply Rmult_lt_compat_r; [apply Rinv_0_lt_compat; lra|]. lra.
  - right. destruct (counts_eq_compat col x y Heq) as [-> ->]. simpl. reflexivity.
Qed.

Lemma count_valid_all (col : list float) :
  (forall x, In x col -> isnan x = false) -> count_valid col = List.length col.
Proof.
  unfold count_valid. induction col as [|y col IH]; intros H; [reflexivity|].
  simpl. rewrite (H y (or_introl eq_refl)). simpl. f_equal. apply IH.
  intros x Hx. apply H. right. exact Hx.
Qed.

Lemma rank_pct_spec (col : list float) :
  percentile_ranked col (rank_pct col).
Proof.
  split; [apply length_map|]. split; [apply count_valid_all|].
  intros i x Hi. exists (pct col x). unfold rank_pct.
  split; [rewrite nth_error_map, Hi; reflexivity|].
  pose proof (nth_error_In _ _ Hi) as Hin.
  split; [apply pct_nan|]. intros Hx.
  split; [apply pct_closed; assumption|].
  destruct (counts_bounds col x Hin Hx) as (Hl & He & Hs & Hv).
  split; [|split; [|split]].
  - intros H1. rewrite (pct_closed col x Hin Hx). rewrite H1 in *.
    simpl in Hs |- *. rewrite <- Hs. f_equal. f_equal. lra.
  - apply pct_unit_interval; assumption.
  - intros H1 Hmax. rewrite (pct_closed col x Hin Hx). rewrite <- Hmax, <- Hs.
    rewrite H1 in *. simpl in He |- *. f_equal. field.
    pose proof (pos_INR (count_lt col x)). lra.
  - intros j y q Hj Hq Hle. rewrite nth_error_map, Hj in Hq.
    injection Hq as <-. apply pct_monotone; eauto using nth_error_In.
Qed.

End Ranks.

(** ** Normalized and composite scores of a call *)

Section Normalized.
Context {G : Geometry}.
Implicit Types (s : Caller) (d : Z).

Lemma norm_columns d s :
  runs s ->
  exists out,
    result d s = Returned out /\
    s_canopy_norm out = Series.rank_pct (s_canopy out) /\
    s_co2_norm out = Series.rank_pct (s_co2 out) /\
    s_bio_norm out = Series.rank_pct (s_bio out) /\
    static_eqs out =
      Series.add (Series.add (Series.scale (5/10) (s_canopy_norm out))
                             (Series.scale (3/10) (s_co2_norm out)))
                 (Series.scale (2/10) (s_bio_norm out)) /\
    serenity_score out =
      Series.add (Series.scale (7/10) (s_canopy_norm out))
                 (Series.scale (3/10) (s_bio_norm out)) /\
    rectangular out.
Proof.
  intros Hruns. eexists. split; [apply result_eq; exact Hruns|].
  repeat split; try reflexivity; apply score_rectangular.
Qed.

(** C4, as the code has it.  Each of the three normalized columns holds the
    percentile ranks of its raw column: a raw value that is not NaN gets
    the mean rank fraction of its tie group among the values that are not
    NaN, which is the fraction of values at most it when it is not tied,
    lies in (0, 1], is 1 for a value that occurs once and bounds the others,
    and grows with the raw value; a raw NaN is normalized to NaN. *)
Theorem normalized_scores_are_percentile_ranks d s :
  runs s ->
  exists out,
    result d s = Returned out /\
    percentile_ranked (s_canopy out) (s_canopy_norm out) /\
    percentile_ranked (s_co2 out) (s_co2_norm out) /\
    percentile_ranked (s_bio out) (s_bio_norm out).
Proof.
  intros Hruns.
  destruct (norm_columns d s Hruns) as (out & Hres & Hc & Hco2 & Hb & _).
  exists out. split; [exact Hres|]. rewrite Hc, Hco2, Hb.
  split; [|split]; apply rank_pct_spec.
Qed.

Lemma add_nth (xs ys : list float) (i : nat) (x y : float) :
  nth_error xs i = Some x -> nth_error ys i = Some y ->
  nth_error (Series.add xs ys) i = Some (Float.add x y).
Proof.
  unfold Series.add. revert ys i.
  induction xs as [|x0 xs IH]; intros [|y0 ys] [|i]; simpl;
    try discriminate; intros Hx Hy.
  - injection Hx as <-. injection Hy as <-. reflexivity.
  - apply IH; assumption.
Qed.

Lemma scale_nth (w : R) (xs : list float) (i : nat) (x : float) :
  nth_error xs i = Some x ->
  nth_error (Series.scale w xs) i = Some (Float.scale w x).
Proof. intros H. unfold Series.scale. rewrite nth_error_map, H. reflexivity. Qed.

Lemma percentile_ranked_number (raw norm : list float) (i : nat) (a : R) :
  percentile_ranked raw norm ->
  nth_error norm i = Some (Fin a) -> 0 < a <= 1.
Proof.
  intros (Hlen & _ & Hrank) Hi.
  destruct (nth_error raw i) as [x|] eqn:Hx.
  - destruct (Hrank i x Hx) as (p & Hp & Hnan & Hnum).
    rewrite Hi in Hp. injection Hp as <-.
    destruct (isnan x) eqn:Hv.
    + discriminate (Hnan eq_refl).
    + destruct (Hnum eq_refl) as (_ & _ & (r & Hr & Hbounds) & _).
      injection Hr as ->. exact Hbounds.
  - exfalso. apply nth_error_None in Hx.
    assert (i < List.length norm)%nat by (apply nth_error_Some; congruence).
    lia.
Qed.

Lemma add_nan_r (x : float) : Float.add x NaN = NaN.
Proof. destruct x; reflexivity. Qed.

(** The composite cells of a row, from its normalized cells. *)
Lemma composite_cells d s :
  runs s ->
  exists out,
    result d s = Returned out /\
    forall i pa pb pc,
      nth_error (s_canopy_norm out) i = Some pa ->
      nth_error (s_co2_norm out) i = Some pb ->
      nth_error (s_bio_norm out) i = Some pc ->
      nth_error (static_eqs out) i =
        Some (Float.add (Float.add (Float.scale (5/10) pa) (Float.scale (3/10) pb))
                        (Float.scale (2/10) pc)) /\
      nth_error (serenity_score out) i =
        Some (Float.add (Float.scale (7/10) pa) (Float.scale (3/10) pc)).
Proof.
  intros Hruns.
  destruct (norm_columns d s Hruns) as (out & Hres & _ & _ & _ & Hst & Hse & _).
  exists out. split; [exact Hres|].
  intros i pa pb pc Ha Hb Hc. rewrite Hst, Hse.
  split; repeat first [apply add_nth | apply scale_nth]; assumption.
Qed.

(** C5, as the code has it.  On every row the composite scores are the
    weighted sums of the normalized scores, NaN included: a composite is
    NaN as soon as a normalized score it uses is.  When the three
    normalized scores [a], [b], [c] are numbers, [static_eqs] is
    [0.5 a + 0.3 b + 0.2 c] and [serenity_score] is [0.7 a + 0.3 c],
    exactly (so within 1e-9), and both lie in (0, 1]. *)
Theorem composite_scores_weighted_sums d s :
  runs s ->
  exists out,
    result d s = Returned out /\
    forall i pa pb pc,
      nth_error (s_canopy_norm out) i = Some pa ->
      nth_error (s_co2_norm out) i = Some pb ->
      nth_error (s_bio_norm out) i = Some pc ->
      nth_error (static_eqs out) i =
        Some (Float.add (Float.add (Float.scale (5/10) pa) (Float.scale (3/10) pb))
                        (Float.scale (2/10) pc)) /\
      nth_error (serenity_score out) i =
        Some (Float.add (Float.scale (7/10) pa) (Float.scale (3/10) pc)) /\
      (pa = NaN \/ pb = NaN \/ pc = NaN ->
       nth_error (static_eqs out) i = Some NaN) /\
      (pa = NaN \/ pc = NaN ->
       nth_error (serenity_score out) i = Some NaN) /\
      forall a b c, pa = Fin a -> pb = Fin b -> pc = Fin c ->
        exists e q,
          nth_error (static_eqs out) i = Some (Fin e) /\
          nth_error (serenity_score out) i = Some (Fin q) /\
          e = 5/10 * a + 3/10 * b + 2/10 * c /\
          q = 7/10 * a + 3/10 * c /\
          Rabs (e - (5/10 * a + 3/10 * b + 2/10 * c)) <= / 10 ^ 9 /\
          Rabs (q - (7/10 * a + 3/10 * c)) <= / 10 ^ 9 /\
          0 < e <= 1 /\ 0 < q <= 1.
Proof.
  intros Hruns.
  destruct (norm_columns d s Hruns) as (out & Hres & Hc & Hco2 & Hb & _).
  destruct (composite_cells d s Hruns) as (out' & Hres' & Hcells).
  rewrite Hres in Hres'. injection Hres' as <-.
  exists out. split; [exact Hres|].
  intros i pa pb pc Ha Hb' Hc'.
  destruct (Hcells i pa pb pc Ha Hb' Hc') as [Hstatic Hser].
  split; [exact Hstatic|]. split; [exact Hser|].
  split; [|split].
  - intros Hnan. rewrite Hstatic. f_equal.
    destruct Hnan as [-> | [-> | ->]]; cbn [Float.scale];
      rewrite ?add_nan_r; reflexivity.
  - intros Hnan. rewrite Hser. f_equal.
    destruct Hnan as [-> | ->]; cbn [Float.scale];
      rewrite ?add_nan_r; reflexivity.
  - intros a b c -> -> ->.
    assert (0 < a <= 1) as Ba.
    { apply (percentile_ranked_number (s_canopy out) (s_canopy_norm out) i);
        [rewrite Hc; apply rank_pct_spec|exact Ha]. }
    assert (0 < b <= 1) as Bb.
    { apply (percentile_ranked_number (s_co2 out) (s_co2_norm out) i);
        [rewrite Hco2; apply rank_pct_spec|exact Hb']. }
    assert (0 < c <= 1) as Bc.
    { apply (percentile_ranked_number (s_bio out) (s_bio_norm out) i);
        [rewrite Hb; apply rank_pct_spec|exact Hc']. }
    do 2 eexists. split; [exact Hstatic|]. split; [exact Hser|].
    split; [reflexivity|]. split; [reflexivity|].
    assert (0 < / 10 ^ 9) as Htol by (apply Rinv_0_lt_compat; lra).
    rewrite !Rminus_diag, Rabs_R0.
    repeat split; lra.
Qed.

End Normalized.

(** ** Errors, reference systems and the caller's frames *)

Section Effects.
Context {G : Geometry}.
Implicit Types (s : Caller) (d : Z).

Lemma in_combine_map {A B} (f : A -> B) (l : list A) (a : A) (b : B) :
  In (a, b) (combine l (map f l)) -> b = f a.
Proof.
  induction l as [|x l IH]; simpl; [contradiction|].
  intros [Heq|Hin]; [injection Heq as <- <-; reflexivity|].
  apply IH. exact Hin.
Qed.

Lemma canopy_area_zero (t : Tree) : canopy_dia_m t = 0 -> canopy_area t = 0.
Proof. intros H. unfold canopy_area. rewrite H. simpl. lra. Qed.

Lemma canopy_area_nonneg (t : Tree) : 0 <= canopy_area t.
Proof.
  unfold canopy_area. apply Rmult_le_pos; [left; apply PI_RGT_0|].
  apply pow2_ge_0.
Qed.

Lemma canopy_area_absolute (t : Tree) :
  PI * (Rabs (canopy_dia_m t) / 2) ^ 2 = canopy_area t.
Proof.
  unfold canopy_area, Rabs. destruct (Rcase_abs (canopy_dia_m t)); field.
Qed.

Lemma canopy_area_of_absolute (t : Tree) :
  canopy_area (absolute_diameter t) = canopy_area t.
Proof. rewrite <- (canopy_area_absolute t). reflexivity. Qed.



Lemma runs_dec s : runs s \/ ~ runs s.
Proof.
  unfold runs. destruct (reprojectable_dec s) as [Hcrs|Hcrs]; [|tauto].
  destruct (Series.is_unique (roads_index (caller_roads s))) eqn:Hu.
  - left. split; [exact Hcrs|]. apply is_unique_NoDup. exact Hu.
  - right. intros [_ Hnd]. apply is_unique_NoDup in Hnd. congruence.
Qed.

(** A call returns or raises the same thing on two stores with the same
    labels of the roads, on which the same inputs are accepted and lead to
    the same frame. *)
Lemma result_of_frame d s s' :
  roads_index (caller_roads s') = roads_index (caller_roads s) ->
  (reprojectable s' <-> reprojectable s) ->
  frame d s' = frame d s ->
  result d s' = result d s.
Proof.
  intros Hr Hc Hf.
  assert (runs s' <-> runs s) as Hruns.
  { unfold runs. rewrite Hr, Hc. reflexivity. }
  destruct (runs_dec s) as [H|H].
  - rewrite !result_eq by tauto. rewrite Hf. reflexivity.
  - rewrite !result_raises by tauto. reflexivity.
Qed.

Lemma result_of_joined_rows d s s' :
  caller_roads s' = caller_roads s ->
  (reprojectable s' <-> reprojectable s) ->
  joined_rows d s' = joined_rows d s ->
  result d s' = result d s.
Proof.
  intros Hr Hc Hj. apply result_of_frame; [rewrite Hr; reflexivity|exact Hc|].
  unfold frame. rewrite Hr, Hj. reflexivity.
Qed.

(** What a call returns or raises depends on the roads and on the
    reference system and rows of the trees, on nothing else of the store. *)
Lemma result_depends_on_frames d s s' :
  caller_roads s' = caller_roads s ->
  trees_crs (caller_trees s') = trees_crs (caller_trees s) ->
  trees_rows (caller_trees s') = trees_rows (caller_trees s) ->
  result d s' = result d s.
Proof.
  intros Hr Hc Ht. apply result_of_joined_rows;
    [exact Hr|unfold reprojectable; rewrite Hr, Hc; reflexivity|].
  unfold joined_rows, aligned_trees, to_crs. rewrite Hr, Hc, Ht.
  destruct (crs_eqb _ _); [reflexivity|].
  destruct (trees_crs (caller_trees s)); [|reflexivity].
  destruct (roads_crs (caller_roads s)); reflexivity.
Qed.

Lemma join_rows_absolute (l : list Tree) (bufs : list Buffer) :
  join_rows (combine (map absolute_diameter l)
                     (map canopy_area (map absolute_diameter l))) bufs
  = join_rows (combine l (map canopy_area l)) bufs.
Proof.
  unfold join_rows. induction l as [|t l IH]; [reflexivity|].
  cbn [map combine flat_map fst snd]. rewrite IH. f_equal.
  rewrite canopy_area_of_absolute. reflexivity.
Qed.

Lemma aligned_trees_absolute s :
  aligned_trees (with_trees s (absolute_diameters (caller_trees s)))
  = map absolute_diameter (aligned_trees s).
Proof.
  unfold aligned_trees, to_crs, with_trees, absolute_diameters.
  cbn [caller_roads caller_trees trees_crs trees_rows].
  destruct (crs_eqb _ _); [reflexivity|].
  destruct (trees_crs (caller_trees s)) as [from|]; [|reflexivity].
  destruct (roads_crs (caller_roads s)) as [to|]; [|reflexivity].
  cbn [trees_rows]. rewrite !map_map. reflexivity.
Qed.

(** C6, as the code has it.  The call has no [InvalidMeasurementError] and
    does not look at the sign of a canopy diameter: on trees with negative
    diameters among them it does what it does on the same trees with every
    diameter replaced by its absolute value.  The canopy area that the
    joined rows carry, and that the call writes into the trees of its
    caller, is that of the disc of diameter [Rabs dia], for a [dia] of
    either sign. *)
Theorem negative_diameter_is_not_rejected d s :
  result d (with_trees s (absolute_diameters (caller_trees s))) = result d s /\
  result d s <> Raised "InvalidMeasurementError" /\
  (forall j, In j (joined_rows d s) ->
     exists t, In t (aligned_trees s) /\
               joined_canopy_area_sq_m j = PI * (Rabs (canopy_dia_m t) / 2) ^ 2) /\
  (roads_crs (caller_roads s) = trees_crs (caller_trees s) ->
   canopy_area_sq_m (caller_trees (after d s)) =
     Some (map (fun t => PI * (Rabs (canopy_dia_m t) / 2) ^ 2)
               (trees_rows (caller_trees s)))).
Proof.
  split; [|split; [|split]].
  - apply result_of_joined_rows; try reflexivity.
    unfold joined_rows at 1. rewrite aligned_trees_absolute.
    cbn [with_trees caller_roads]. apply join_rows_absolute.
  - destruct (runs_dec s) as [H|H].
    + rewrite result_eq by exact H. discriminate.
    + rewrite result_raises by exact H. discriminate.
  - intros j Hj. unfold joined_rows, join_rows in Hj.
    apply in_flat_map in Hj. destruct Hj as ([t a] & Hta & Hj).
    apply in_map_iff in Hj. destruct Hj as (b & <- & _).
    cbn [joined_canopy_area_sq_m fst snd].
    exists t. split; [eapply in_combine_l; exact Hta|].
    rewrite canopy_area_absolute. eapply in_combine_map. exact Hta.
  - intros Heq. rewrite after_eq. cbn [caller_trees].
    rewrite Heq, crs_eqb_refl. cbn [assign_canopy_area canopy_area_sq_m].
    f_equal. apply map_ext. intros t. symmetry. apply canopy_area_absolute.
Qed.

(** C8. A call and a second call on the frames the first one leaves return
    the same frame (or raise the same error), and so do two calls on stores
    that hold the same roads and trees, whatever else the stores hold. *)
Theorem repeated_call_same_output d s :
  result d (after d s) = result d s /\
  (runs s ->
   exists out, result d s = Returned out /\ result d (after d s) = Returned out) /\
  (forall s', caller_roads s' = caller_roads s ->
              trees_crs (caller_trees s') = trees_crs (caller_trees s) ->
              trees_rows (caller_trees s') = trees_rows (caller_trees s) ->
              result d s' = result d s).
Proof.
  assert (result d (after d s) = result d s) as Hagain.
  { apply result_depends_on_frames; rewrite after_eq;
      cbn [caller_roads caller_trees]; try reflexivity;
      destruct (crs_eqb (roads_crs (caller_roads s)) (trees_crs (caller_trees s)));
      reflexivity. }
  split; [exact Hagain|]. split; [|intros s'; apply result_depends_on_frames].
  intros Hruns. eexists. split; [apply result_eq; exact Hruns|].
  rewrite Hagain. apply result_eq. exact Hruns.
Qed.

(** What a call leaves of the frames of its caller: the roads as they were;
    the trees as they were when it had to transform them, and with the
    column [canopy_area_sq_m] assigned when it did not. *)
Lemma frames_after_call d s :
  caller_roads (after d s) = caller_roads s /\
  (roads_crs (caller_roads s) <> trees_crs (caller_trees s) ->
   caller_trees (after d s) = caller_trees s) /\
  (roads_crs (caller_roads s) = trees_crs (caller_trees s) ->
   caller_trees (after d s) =
   assign_canopy_area (caller_trees s)
     (map canopy_area (trees_rows (caller_trees s)))).
Proof.
  rewrite after_eq. cbn [caller_roads caller_trees]. split; [reflexivity|].
  split; intros H.
  - apply crs_eqb_neq in H. rewrite H. reflexivity.
  - rewrite H, crs_eqb_refl. reflexivity.
Qed.

End Effects.

(** ** Runs on the plane *)

Section PlanarRuns.
#[local] Existing Instance Planar.plane.

Ltac decide_reals :=
  repeat match goal with
         | |- context [Rlt_dec ?a ?b] => destruct (Rlt_dec a b); try lra
         | |- context [Req_dec_T ?a ?b] => destruct (Req_dec_T a b); try lra
         end.

Ltac floats := repeat (apply f_equal2; [apply f_equal; lra|]); reflexivity.

Ltac reals := repeat (apply f_equal2; [field|]); reflexivity.

Ltac unfold_rank :=
  unfold Series.rank_pct, Series.pct, Series.rank_average,
    Series.count_lt, Series.count_eq, Series.count_valid, Series.sum_ranks;
  cbn [map filter isnan negb Float.ltb Float.eqb].

Lemma span_point (x y : Z) : Planar.span x y x y = 0.
Proof.
  unfold Planar.span. rewrite !Z.sub_diag. cbn [Z.mul Z.add]. apply sqrt_0.
Qed.



Lemma span_100 (x y : Z) : Planar.span x y (x + 100) y = 100.
Proof.
  unfold Planar.span.
  replace ((x + 100 - x) * (x + 100 - x) + (y - y) * (y - y))%Z
    with (100 * 100)%Z by lia.
  rewrite mult_IZR. apply sqrt_square. lra.
Qed.

Lemma rank_pct_pair_lt (x y : R) :
  x < y -> Series.rank_pct [Fin x; Fin y] = [Fin (1 / 2); Fin 1].
Proof. intros H. unfold_rank. decide_reals. cbn. floats. Qed.

Lemma rank_pct_pair_gt (x y : R) :
  y < x -> Series.rank_pct [Fin x; Fin y] = [Fin 1; Fin (1 / 2)].
Proof. intros H. unfold_rank. decide_reals. cbn. floats. Qed.

Lemma rank_pct_pair_tied (x : R) :
  Series.rank_pct [Fin x; Fin x] = [Fin (3 / 4); Fin (3 / 4)].
Proof. unfold_rank. decide_reals. cbn. floats. Qed.

Lemma rank_pct_number_nan (x : R) :
  Series.rank_pct [Fin x; NaN] = [Fin 1; NaN].
Proof. unfold_rank. decide_reals. cbn. floats. Qed.

Lemma nan_outside_unit_interval : ~ unit_interval NaN.
Proof. intros (r & Hr & _). discriminate Hr. Qed.

Lemma ln_3_pos : 0 < ln 3.
Proof. rewrite <- ln_1. apply ln_increasing; lra. Qed.

(** A call on planar frames that both have a reference system returns when
    the row labels of the roads are unique. *)
Lemma planar_runs (roads : RoadsFrame) (trees : TreesFrame) (X Y : CRS) :
  roads_crs roads = Some X -> trees_crs trees = Some Y ->
  NoDup (roads_index roads) ->
  runs (Planar.call roads trees).
Proof.
  intros HX HY Hnd. split; [|exact Hnd]. right. cbn. rewrite HX, HY.
  split; discriminate.
Qed.

Lemma demo_labels :
  default_labels Planar.demo_roads /\ default_labels Planar.roads_with_point.
Proof. split; reflexivity. Qed.

Lemma demo_reprojectable :
  reprojectable Planar.demo /\ reprojectable Planar.degenerate.
Proof. split; left; reflexivity. Qed.

Lemma demo_runs : runs Planar.demo /\ runs Planar.degenerate.
Proof.
  split; (apply default_labels_runs;
          [apply demo_reprojectable|apply demo_labels]).
Qed.

(** The line the demo prints first. *)
Lemma banner_default :
  banner 10 = "Performing vectorized analysis with a 10-meter buffer..."%string.
Proof. reflexivity. Qed.

(** *** The demo of [analytics_engine.py] *)

(** The rows of the merge in the demo: each road with the sums over its two
    trees and the number of their species. *)
Lemma demo_merged :
  merged_row (joined_rows 10 Planar.demo)
    {| segment_id := 1; geometry := Planar.LineString 0 0 100 0 |} =
    {| merged_road := {| segment_id := 1; geometry := Planar.LineString 0 0 100 0 |};
       merged_canopy_area_sq_m := Some (PI * (10 / 2) ^ 2 + (PI * (8 / 2) ^ 2 + 0));
       merged_s_co2_total := Some (50 + (30 + 0));
       merged_s_bio_count := Some (INR 2) |} /\
  merged_row (joined_rows 10 Planar.demo)
    {| segment_id := 2; geometry := Planar.LineString 0 50 100 50 |} =
    {| merged_road := {| segment_id := 2; geometry := Planar.LineString 0 50 100 50 |};
       merged_canopy_area_sq_m := Some (PI * (12 / 2) ^ 2 + (PI * (5 / 2) ^ 2 + 0));
       merged_s_co2_total := Some (70 + (15 + 0));
       merged_s_bio_count := Some (INR 2) |}.
Proof. split; reflexivity. Qed.

(** The frame the demo prints: the aggregates that the specification
    works out for this scenario, and the scores that follow from them. *)
Lemma demo_run :
  exists out,
    result 10 Planar.demo = Returned out /\
    map segment_id (out_roads out) = [1%Z; 2%Z] /\
    out_canopy_area_sq_m out = [PI * 41; PI * (36 + 25 / 4)] /\
    out_s_co2_total out = [80; 85] /\
    out_s_bio_count out = [2; 2] /\
    s_canopy_norm out = [Fin (1 / 2); Fin 1] /\
    s_co2_norm out = [Fin (1 / 2); Fin 1] /\
    s_bio_norm out = [Fin (3 / 4); Fin (3 / 4)] /\
    static_eqs out = [Fin (55 / 100); Fin (95 / 100)] /\
    serenity_score out = [Fin (575 / 1000); Fin (925 / 1000)].
Proof.
  destruct (raw_columns_default 10 Planar.demo
              (proj1 demo_reprojectable) (proj1 demo_labels))
    as (out & Hres & Hroads & Hcan & Hco2 & Hbio & Hsc & Hsco2 & Hsbio).
  destruct (norm_columns 10 Planar.demo (proj1 demo_runs))
    as (out' & Hres' & Hnc & Hnco2 & Hnb & Hst & Hse & _).
  rewrite Hres in Hres'. injection Hres' as <-.
  exists out. split; [exact Hres|].
  split; [rewrite Hroads; reflexivity|].
  pose proof PI_RGT_0 as Hpi.
  pose proof (span_100 0 0) as Hs1. pose proof (span_100 0 50) as Hs2.
  cbn [Z.add] in Hs1, Hs2.
  destruct demo_merged as [Hm1 Hm2].
  change (roads_rows (caller_roads Planar.demo))
    with [ {| segment_id := 1; geometry := Planar.LineString 0 0 100 0 |};
           {| segment_id := 2; geometry := Planar.LineString 0 50 100 50 |} ] in *.
  cbn [map] in Hcan, Hco2, Hbio, Hsc, Hsco2, Hsbio.
  rewrite Hm1, Hm2 in Hcan, Hco2, Hbio, Hsc, Hsco2, Hsbio.
  cbn [fillna merged_canopy_area_sq_m merged_s_co2_total merged_s_bio_count
       geometry area buffer length Planar.plane Planar.buffer Planar.area
       Planar.length Z.ltb Z.compare]
    in Hcan, Hco2, Hbio, Hsc, Hsco2, Hsbio.
  rewrite Hs1, Hs2 in Hsc, Hsco2.
  assert (s_canopy out =
          [Fin (PI * 41 / (2000 + PI * 100));
           Fin (PI * (36 + 25 / 4) / (2000 + PI * 100))]) as Hsc'.
  { rewrite Hsc, !div_nonzero by lra.
    repeat (apply f_equal2; [apply f_equal; field; lra|]). reflexivity. }
  assert (s_co2 out = [Fin (80 / 100); Fin (85 / 100)]) as Hsco2'.
  { rewrite Hsco2, !div_nonzero by lra. floats. }
  assert (s_bio out = [Fin (ln 3); Fin (ln 3)]) as Hsbio'.
  { rewrite Hsbio. unfold Float.log1p. cbn [INR]. decide_reals.
    replace (1 + (1 + 1)) with 3 by lra. reflexivity. }
  assert (s_canopy_norm out = [Fin (1 / 2); Fin 1]) as Hnc'.
  { rewrite Hnc, Hsc'. apply rank_pct_pair_lt.
    apply Rmult_lt_compat_r; [apply Rinv_0_lt_compat; lra|lra]. }
  assert (s_co2_norm out = [Fin (1 / 2); Fin 1]) as Hnco2'.
  { rewrite Hnco2, Hsco2'. apply rank_pct_pair_lt. lra. }
  assert (s_bio_norm out = [Fin (3 / 4); Fin (3 / 4)]) as Hnb'.
  { rewrite Hnb, Hsbio'. apply rank_pct_pair_tied. }
  split; [rewrite Hcan; reals|]. split; [rewrite Hco2; reals|].
  split; [rewrite Hbio; cbn [INR]; reals|].
  split; [exact Hnc'|]. split; [exact Hnco2'|]. split; [exact Hnb'|].
  rewrite Hst, Hse, Hnc', Hnco2', Hnb'. cbn. split; floats.
Qed.

(** *** A road reduced to a point *)

Lemma degenerate_merged :
  merged_row (joined_rows 10 Planar.degenerate)
    {| segment_id := 1; geometry := Planar.LineString 0 0 100 0 |} =
    {| merged_road := {| segment_id := 1; geometry := Planar.LineString 0 0 100 0 |};
       merged_canopy_area_sq_m := Some (PI * (10 / 2) ^ 2 + (PI * (8 / 2) ^ 2 + 0));
       merged_s_co2_total := Some (50 + (30 + 0));
       merged_s_bio_count := Some (INR 2) |} /\
  merged_row (joined_rows 10 Planar.degenerate)
    {| segment_id := 2; geometry := Planar.LineString 0 50 0 50 |} =
    {| merged_road := {| segment_id := 2; geometry := Planar.LineString 0 50 0 50 |};
       merged_canopy_area_sq_m := None;
       merged_s_co2_total := None;
       merged_s_bio_count := None |}.
Proof. split; reflexivity. Qed.

(** The first road has its two trees; the point has a buffer, a disc, with
    no tree in it, and no length. *)
Lemma degenerate_run :
  exists out,
    result 10 Planar.degenerate = Returned out /\
    out_s_co2_total out = [80; 0] /\
    s_canopy out = [Fin (PI * 41 / (2000 + PI * 100)); Fin 0] /\
    s_co2 out = [Fin (80 / 100); NaN] /\
    s_bio out = [Fin (ln 3); Fin 0] /\
    s_canopy_norm out = [Fin 1; Fin (1 / 2)] /\
    s_co2_norm out = [Fin 1; NaN] /\
    s_bio_norm out = [Fin 1; Fin (1 / 2)] /\
    static_eqs out = [Fin 1; NaN] /\
    serenity_score out = [Fin 1; Fin (1 / 2)].
Proof.
  destruct (raw_columns_default 10 Planar.degenerate
              (proj2 demo_reprojectable) (proj2 demo_labels))
    as (out & Hres & Hroads & _ & Hco2 & _ & Hsc & Hsco2 & Hsbio).
  destruct (norm_columns 10 Planar.degenerate (proj2 demo_runs))
    as (out' & Hres' & Hnc & Hnco2 & Hnb & Hst & Hse & _).
  rewrite Hres in Hres'. injection Hres' as <-.
  exists out. split; [exact Hres|].
  pose proof PI_RGT_0 as Hpi. pose proof ln_3_pos as Hln.
  pose proof (span_100 0 0) as Hs1. pose proof (span_point 0 50) as Hs2.
  cbn [Z.add] in Hs1.
  destruct degenerate_merged as [Hm1 Hm2].
  change (roads_rows (caller_roads Planar.degenerate))
    with [ {| segment_id := 1; geometry := Planar.LineString 0 0 100 0 |};
           {| segment_id := 2; geometry := Planar.LineString 0 50 0 50 |} ] in *.
  cbn [map] in Hco2, Hsc, Hsco2, Hsbio.
  rewrite Hm1, Hm2 in Hco2, Hsc, Hsco2, Hsbio.
  cbn [fillna merged_canopy_area_sq_m merged_s_co2_total merged_s_bio_count
       geometry area buffer length Planar.plane Planar.buffer Planar.area
       Planar.length Z.ltb Z.compare]
    in Hco2, Hsc, Hsco2, Hsbio.
  rewrite Hs1, Hs2 in Hsc, Hsco2.
  assert (s_canopy out = [Fin (PI * 41 / (2000 + PI * 100)); Fin 0]) as Hsc'.
  { rewrite Hsc, !div_nonzero by lra.
    repeat (apply f_equal2; [apply f_equal; field; lra|]). reflexivity. }
  assert (s_co2 out = [Fin (80 / 100); NaN]) as Hsco2'.
  { rewrite Hsco2, div_nonzero, div_by_zero by lra. decide_reals. floats. }
  assert (s_bio out = [Fin (ln 3); Fin 0]) as Hsbio'.
  { rewrite Hsbio, log1p_zero. unfold Float.log1p. cbn [INR]. decide_reals.
    replace (1 + (1 + 1)) with 3 by lra. reflexivity. }
  assert (s_canopy_norm out = [Fin 1; Fin (1 / 2)]) as Hnc'.
  { rewrite Hnc, Hsc'. apply rank_pct_pair_gt.
    apply Rdiv_lt_0_compat; lra. }
  assert (s_co2_norm out = [Fin 1; NaN]) as Hnco2'.
  { rewrite Hnco2, Hsco2'. apply rank_pct_number_nan. }
  assert (s_bio_norm out = [Fin 1; Fin (1 / 2)]) as Hnb'.
  { rewrite Hnb, Hsbio'. apply rank_pct_pair_gt. exact Hln. }
  split; [rewrite Hco2; reals|].
  split; [exact Hsc'|]. split; [exact Hsco2'|]. split; [exact Hsbio'|].
  split; [exact Hnc'|]. split; [exact Hnco2'|]. split; [exact Hnb'|].
  rewrite Hst, Hse, Hnc', Hnco2', Hnb'. cbn. split; floats.
Qed.

(** C3, counterexample.  The second road is reduced to a point: its length
    is 0, no tree stands in its buffer, and its [s_co2] is NaN, not 0. *)
Lemma zero_length_segment_scores_nan :
  exists out r,
    result 10 Planar.degenerate = Returned out /\
    nth_error (roads_rows Planar.roads_with_point) 1 = Some r /\
    length (geometry r) = 0 /\
    nth_error (out_s_co2_total out) 1 = Some 0 /\
    nth_error (s_co2 out) 1 = Some NaN /\
    nth_error (s_co2 out) 1 <> Some (Fin 0).
Proof.
  destruct degenerate_run as (out & Hres & Hco2 & _ & Hsco2 & _).
  exists out. eexists. split; [exact Hres|]. split; [reflexivity|].
  split; [apply span_point|]. rewrite Hco2, Hsco2.
  split; [reflexivity|]. split; [reflexivity|discriminate].
Qed.

(** C4, counterexample.  On the same roads the raw [s_co2] of the second
    segment is NaN and so is its normalized value, which is no number of
    (0, 1]. *)
Lemma nan_raw_score_normalized_to_nan :
  exists out,
    result 10 Planar.degenerate = Returned out /\
    nth_error (s_co2 out) 1 = Some NaN /\
    nth_error (s_co2_norm out) 1 = Some NaN /\
    ~ unit_interval NaN.
Proof.
  destruct degenerate_run as (out & Hres & _ & _ & Hsco2 & _ & _ & Hnorm & _).
  exists out. split; [exact Hres|]. rewrite Hsco2, Hnorm.
  repeat split. apply nan_outside_unit_interval.
Qed.

(** C5, counterexample.  On the same roads the [static_eqs] of the second
    segment is NaN, which is no number of (0, 1]. *)
Lemma nan_composite_score :
  exists out,
    result 10 Planar.degenerate = Returned out /\
    nth_error (s_canopy_norm out) 1 = Some (Fin (1 / 2)) /\
    nth_error (s_co2_norm out) 1 = Some NaN /\
    nth_error (s_bio_norm out) 1 = Some (Fin (1 / 2)) /\
    nth_error (static_eqs out) 1 = Some NaN /\
    ~ unit_interval NaN.
Proof.
  destruct degenerate_run
    as (out & Hres & _ & _ & _ & _ & Hnc & Hnco2 & Hnb & Hst & _).
  exists out. split; [exact Hres|]. rewrite Hnc, Hnco2, Hnb, Hst.
  repeat split. apply nan_outside_unit_interval.
Qed.

(** C6, counterexample.  One tree of canopy diameter -2: the call returns,
    raises no [InvalidMeasurementError], and writes the canopy area [PI]
    of that tree into the frame. *)
Lemma negative_diameter_accepted :
  exists out t,
    trees_rows Planar.negative_tree = [t] /\
    canopy_dia_m t < 0 /\
    result 10 (Planar.call Planar.demo_roads Planar.negative_tree) = Returned out /\
    result 10 (Planar.call Planar.demo_roads Planar.negative_tree)
      <> Raised "InvalidMeasurementError" /\
    canopy_area_sq_m
      (caller_trees (after 10 (Planar.call Planar.demo_roads Planar.negative_tree)))
      = Some [PI].
Proof.
  assert (runs (Planar.call Planar.demo_roads Planar.negative_tree)) as Hruns.
  { apply default_labels_runs; [left; reflexivity|reflexivity]. }
  do 2 eexists. split; [reflexivity|]. split; [cbn; lra|].
  split; [apply result_eq; exact Hruns|].
  split; [rewrite result_eq by exact Hruns; discriminate|].
  rewrite after_eq. cbn. unfold canopy_area. cbn. do 2 f_equal. field.
Qed.

(** C9, the call of the demo.  Roads and trees share their reference system.
    The roads of the caller are as before the call; the trees of the
    caller, which had no column [canopy_area_sq_m], have it after the call. *)
Lemma demo_call_writes_callers_trees :
  canopy_area_sq_m Planar.demo_trees = None /\
  caller_roads (after 10 Planar.demo) = Planar.demo_roads /\
  canopy_area_sq_m (caller_trees (after 10 Planar.demo))
    = Some (map canopy_area (trees_rows Planar.demo_trees)) /\
  caller_trees (after 10 Planar.demo) <> Planar.demo_trees.
Proof.
  split; [reflexivity|]. rewrite after_eq. split; [reflexivity|].
  split; [reflexivity|]. cbn. discriminate.
Qed.

(** *** Roads under other row labels, and roads that share a key *)



(** *** Instances of the theorems that have hypotheses *)

Lemma demo_keys : NoDup (map segment_id (roads_rows Planar.demo_roads)).
Proof. cbn. repeat constructor; cbn; intuition discriminate. Qed.

Lemma one_row_per_segment_witness :
  NoDup (map segment_id (roads_rows Planar.demo_roads)) /\
  runs Planar.demo /\
  exists out,
    result 10 Planar.demo = Returned out /\
    List.length (out_roads out) = 2%nat /\
    rectangular out /\
    (forall r, In r (roads_rows Planar.demo_roads) ->
               rows_keyed (segment_id r) out = 1%nat) /\
    (forall k, (rows_keyed k out <= 1)%nat).
Proof.
  split; [exact demo_keys|]. split; [exact (proj1 demo_runs)|].
  exact (one_row_per_segment 10 Planar.demo demo_keys (proj1 demo_runs)).
Defined.

Lemma rows_in_input_order_witness :
  runs Planar.demo /\
  exists out,
    result 10 Planar.demo = Returned out /\
    forall i, nth_error (out_roads out) i = nth_error (roads_rows Planar.demo_roads) i.
Proof.
  split; [exact (proj1 demo_runs)|].
  exact (rows_in_input_order 10 Planar.demo (proj1 demo_runs)).
Defined.


Lemma unguarded_divisions_witness :
  runs Planar.degenerate /\
  nth_error (roads_rows Planar.roads_with_point) 1
    = Some {| segment_id := 2; geometry := Planar.LineString 0 50 0 50 |} /\
  Planar.length (Planar.LineString 0 50 0 50) = 0 /\
  exists out co2,
    result 10 Planar.degenerate = Returned out /\
    nth_error (out_s_co2_total out) 1 = Some co2 /\
    nth_error (s_co2 out) 1 =
      Some (if Req_dec_T co2 0 then NaN
            else if Rlt_dec 0 co2 then PInf else NInf) /\
    nth_error (s_co2 out) 1 <> Some (Fin 0).
Proof.
  split; [exact (proj2 demo_runs)|]. split; [reflexivity|].
  split; [apply span_point|].
  destruct (unguarded_divisions 10 Planar.degenerate 1 Variations.point_road
              (proj2 demo_runs) eq_refl)
    as (out & canopy & co2 & Hres & _ & Hco2 & _ & Hzero & _).
  exists out, co2. split; [exact Hres|]. split; [exact Hco2|].
  apply Hzero. apply span_point.
Defined.

Lemma normalized_scores_are_percentile_ranks_witness :
  runs Planar.demo /\
  exists out,
    result 10 Planar.demo = Returned out /\
    percentile_ranked (s_canopy out) (s_canopy_norm out) /\
    percentile_ranked (s_co2 out) (s_co2_norm out) /\
    percentile_ranked (s_bio out) (s_bio_norm out).
Proof.
  split; [exact (proj1 demo_runs)|].
  exact (normalized_scores_are_percentile_ranks 10 Planar.demo (proj1 demo_runs)).
Defined.

Lemma composite_scores_weighted_sums_witness :
  runs Planar.demo /\
  exists out e q,
    result 10 Planar.demo = Returned out /\
    nth_error (static_eqs out) 0 = Some (Fin e) /\
    nth_error (serenity_score out) 0 = Some (Fin q) /\
    e = 5/10 * (1 / 2) + 3/10 * (1 / 2) + 2/10 * (3 / 4) /\
    q = 7/10 * (1 / 2) + 3/10 * (3 / 4).
Proof.
  split; [exact (proj1 demo_runs)|].
  destruct (composite_scores_weighted_sums 10 Planar.demo (proj1 demo_runs))
    as (out & Hres & Hrows).
  destruct demo_run
    as (out' & Hres' & _ & _ & _ & _ & Hnc & Hnco2 & Hnb & _).
  rewrite Hres in Hres'. injection Hres' as <-.
  destruct (Hrows 0%nat (Fin (1 / 2)) (Fin (1 / 2)) (Fin (3 / 4)))
    as (_ & _ & _ & _ & Hnum);
    [rewrite Hnc; reflexivity|rewrite Hnco2; reflexivity|
     rewrite Hnb; reflexivity|].
  destruct (Hnum _ _ _ eq_refl eq_refl eq_refl)
    as (e & q & He & Hq & Hev & Hqv & _).
  exists out, e, q. repeat split; assumption.
Defined.

End PlanarRuns.

(** * Further properties *)

(** ** What the aggregates add up *)

Section Aggregates.
Context {G : Geometry}.
Implicit Types (s : Caller) (d : Z).

Lemma combine_self_map {A B} (f : A -> B) (l : list A) :
  combine l (map f l) = map (fun a => (a, f a)) l.
Proof. induction l as [|a l IH]; simpl; [|rewrite IH]; reflexivity. Qed.

Lemma filter_of_flat_map {A B} (p : B -> bool) (g : A -> list B) (l : list A) :
  filter p (flat_map g l) = flat_map (fun a => filter p (g a)) l.
Proof.
  induction l as [|a l IH]; simpl; [reflexivity|].
  rewrite filter_app, IH. reflexivity.
Qed.

Lemma flat_map_optional {A B} (c : A -> bool) (g : A -> B) (l : list A) :
  flat_map (fun a => if c a then [g a] else []) l = map g (filter c l).
Proof.
  induction l as [|a l IH]; simpl; [reflexivity|].
  rewrite IH. destruct (c a); reflexivity.
Qed.

(** Among the buffers that contain a point, the one of a given road, when
    the keys of the roads are unique. *)
Lemma buffers_of_key (roads_gdf : RoadsFrame) d (r : Road) (p : geom) :
  NoDup (map segment_id (roads_rows roads_gdf)) -> In r (roads_rows roads_gdf) ->
  filter (fun b => (buffer_segment_id b =? segment_id r)%Z)
    (filter (fun b => within p (buffer_geometry b))
       (make_road_buffers roads_gdf d)) =
  if within p (buffer (geometry r) d)
  then [ {| buffer_segment_id := segment_id r;
            buffer_geometry := buffer (geometry r) d;
            buffer_area_sq_m := area (buffer (geometry r) d) |} ]
  else [].
Proof.
  unfold make_road_buffers. generalize (roads_rows roads_gdf). intros rows.
  induction rows as [|a rows IH]; intros Hnd Hin; [contradiction|].
  inversion Hnd as [|? ? Hnot Hnd']; subst.
  assert (forall l, ~ In (segment_id r) (map segment_id l) ->
          filter (fun b => (buffer_segment_id b =? segment_id r)%Z)
            (filter (fun b => within p (buffer_geometry b))
               (map (fun r0 => {| buffer_segment_id := segment_id r0;
                                  buffer_geometry := buffer (geometry r0) d;
                                  buffer_area_sq_m := area (buffer (geometry r0) d) |}) l))
          = []) as Hnone.
  { induction l as [|x l IHl]; intros Hx; [reflexivity|]. cbn [map filter].
    cbn [buffer_geometry]. 
    assert (segment_id x <> segment_id r) as Hne.
    { intros Heq. apply Hx. left. exact Heq. }
    assert (~ In (segment_id r) (map segment_id l)) as Hl.
    { intros H. apply Hx. right. exact H. }
    destruct (within p (buffer (geometry x) d)); [|apply IHl; exact Hl].
    cbn [filter buffer_segment_id]. apply Z.eqb_neq in Hne. rewrite Hne.
    apply IHl. exact Hl. }
  cbn [map filter buffer_geometry].
  destruct Hin as [->|Hin].
  - destruct (within p (buffer (geometry r) d)); [|apply Hnone; exact Hnot].
    cbn [filter buffer_segment_id]. rewrite Z.eqb_refl, (Hnone rows Hnot).
    reflexivity.
  - assert (segment_id a <> segment_id r) as Hne.
    { intros Heq. apply Hnot. rewrite Heq. apply in_map. exact Hin. }
    destruct (within p (buffer (geometry a) d)); [|apply IH; assumption].
    cbn [filter buffer_segment_id]. apply Z.eqb_neq in Hne. rewrite Hne.
    apply IH; assumption.
Qed.

(** The group of a road in [joined_gdf]: one row for each tree joined to
    its buffer. *)
Lemma group_of_road d s (r : Road) :
  NoDup (map segment_id (roads_rows (caller_roads s))) ->
  In r (roads_rows (caller_roads s)) ->
  group (joined_rows d s) (segment_id r) =
  map (fun t => {| joined_canopy_area_sq_m := canopy_area t;
                   joined_CO2_sequestered_kg := CO2_sequestered_kg t;
                   joined_botanical_name := botanical_name t;
                   joined_segment_id := segment_id r |})
      (trees_joined d s r).
Proof.
  intros Hnd Hin. unfold group, joined_rows, join_rows, trees_joined.
  rewrite combine_self_map, filter_of_flat_map, flat_map_concat_map, map_map.
  rewrite <- flat_map_concat_map. cbn [fst snd].
  rewrite <- (flat_map_optional
                (fun t => within (tree_geometry t) (buffer (geometry r) d))).
  apply flat_map_ext. intros t.
  rewrite filter_map_swap. cbn [joined_segment_id].
  rewrite buffers_of_key by assumption.
  destruct (within (tree_geometry t) (buffer (geometry r) d)); reflexivity.
Qed.

Lemma group_without_key (joined : list Joined) (k : Z) :
  ~ In k (map joined_segment_id joined) -> group joined k = [].
Proof.
  unfold group. induction joined as [|j joined IH]; intros Hk; [reflexivity|].
  cbn [filter]. destruct (Z.eqb_spec (joined_segment_id j) k) as [Heq|_].
  - exfalso. apply Hk. left. exact Heq.
  - apply IH. intros H. apply Hk. right. exact H.
Qed.

(** After [fillna(0)] the cells of a merged row are the sums and the
    count over the group of its key, an empty group included. *)
Lemma filled_cells (joined : list Joined) (r : Road) :
  fillna (merged_canopy_area_sq_m (merged_row joined r)) =
    Series.sum (map joined_canopy_area_sq_m (group joined (segment_id r))) /\
  fillna (merged_s_co2_total (merged_row joined r)) =
    Series.sum (map joined_CO2_sequestered_kg (group joined (segment_id r))) /\
  fillna (merged_s_bio_count (merged_row joined r)) =
    INR (nunique (map joined_botanical_name (group joined (segment_id r)))).
Proof.
  unfold merged_row.
  destruct (in_dec Z.eq_dec (segment_id r) (map joined_segment_id joined))
    as [_|Hnot]; [repeat split; reflexivity|].
  rewrite (group_without_key joined _ Hnot). repeat split; reflexivity.
Qed.

Lemma log1p_count (n : nat) : Float.log1p (INR n) = Fin (ln (1 + INR n)).
Proof.
  unfold Float.log1p. pose proof (pos_INR n).
  destruct (Rlt_dec (-1) (INR n)); [reflexivity|lra].
Qed.

Lemma road_aggregates d s (i : nat) (r : Road) :
  NoDup (map segment_id (roads_rows (caller_roads s))) ->
  runs s ->
  nth_error (roads_rows (caller_roads s)) i = Some r ->
  exists out,
    result d s = Returned out /\
    nth_error (out_canopy_area_sq_m out) i =
      Some (Series.sum (map canopy_area (trees_joined d s r))) /\
    nth_error (out_s_co2_total out) i =
      Some (Series.sum (map CO2_sequestered_kg (trees_joined d s r))) /\
    nth_error (out_s_bio_count out) i =
      Some (INR (nunique (map botanical_name (trees_joined d s r)))) /\
    nth_error (s_bio out) i =
      Some (Fin (ln (1 + INR (nunique (map botanical_name (trees_joined d s r)))))).
Proof.
  intros Hnd Hruns Hi.
  destruct (raw_columns d s Hruns)
    as (out & Hres & _ & Hcan & Hco2 & Hbio & _ & _ & Hsbio).
  exists out. split; [exact Hres|].
  rewrite Hcan, Hco2, Hbio, Hsbio, !nth_error_map, Hi. cbn [option_map].
  destruct (filled_cells (joined_rows d s) r) as (-> & -> & ->).
  rewrite (group_of_road d s r Hnd (nth_error_In _ _ Hi)), !map_map.
  cbn [joined_canopy_area_sq_m joined_CO2_sequestered_kg joined_botanical_name].
  rewrite log1p_count. repeat split; reflexivity.
Qed.

(** X1.  When the roads have distinct [segment_id]s, the row of the output
    for a road carries the aggregates of exactly the trees that the spatial
    join puts within the buffer of that road: [canopy_area_sq_m] is the sum
    of their canopy areas, [s_co2_total] the sum of their
    [CO2_sequestered_kg], [s_bio_count] the number of their distinct
    [botanical_name]s, and [s_bio] is [ln (1 + s_bio_count)]. *)
Theorem aggregates_of_joined_trees d s (i : nat) (r : Road) :
  NoDup (map segment_id (roads_rows (caller_roads s))) ->
  runs s ->
  nth_error (roads_rows (caller_roads s)) i = Some r ->
  exists out,
    result d s = Returned out /\
    nth_error (out_canopy_area_sq_m out) i =
      Some (Series.sum (map canopy_area (trees_joined d s r))) /\
    nth_error (out_s_co2_total out) i =
      Some (Series.sum (map CO2_sequestered_kg (trees_joined d s r))) /\
    nth_error (out_s_bio_count out) i =
      Some (INR (nunique (map botanical_name (trees_joined d s r)))) /\
    nth_error (s_bio out) i =
      Some (Fin (ln (1 + INR (nunique (map botanical_name (trees_joined d s r)))))).
Proof.
  intros Hnd Hruns Hi.
  destruct (road_aggregates d s i r Hnd Hruns Hi) as (out & Hres & Hcells).
  exists out. split; assumption.
Qed.

End Aggregates.

(** ** Trees in another reference system *)

Section Reprojection.
Context {G : Geometry}.
Implicit Types (s : Caller) (d : Z).



End Reprojection.

(** ** Row labels and errors *)

Section Labels.
Context {G : Geometry}.
Implicit Types (s : Caller) (d : Z).

Lemma RangeIndex_nth (n i : nat) :
  (i < n)%nat -> nth_error (RangeIndex n) i = Some (Z.of_nat i).
Proof.
  intros H. unfold RangeIndex. rewrite nth_error_map, nth_error_seq.
  destruct (Nat.ltb_spec i n) as [_|Hge]; [reflexivity|lia].
Qed.

Lemma combine_nth_error {A B} (l : list A) (l' : list B) (i : nat) (x : A) (y : B) :
  nth_error l i = Some x -> nth_error l' i = Some y ->
  nth_error (combine l l') i = Some (x, y).
Proof.
  revert l' i. induction l as [|a l IH]; intros [|b l'] [|i]; cbn;
    try discriminate.
  - intros Hx Hy. injection Hx as <-. injection Hy as <-. reflexivity.
  - apply IH.
Qed.

(** Under unique labels, the cell under a label is the cell of the row
    that carries it. *)
Lemma loc_found (labels : list Z) (b : list R) (j : nat) (k : Z) (y : R) :
  NoDup labels ->
  nth_error labels j = Some k -> nth_error b j = Some y ->
  Series.loc labels b k = Some y.
Proof.
  unfold Series.loc. revert b j.
  induction labels as [|l0 labels IH]; intros [|y0 b] [|j] Hnd Hk Hy;
    try discriminate.
  - cbn in Hk, Hy. injection Hk as ->. injection Hy as ->.
    cbn. rewrite Z.eqb_refl. reflexivity.
  - inversion Hnd as [|? ? Hnot Hnd']; subst. cbn in Hk, Hy.
    cbn [combine find fst]. destruct (Z.eqb_spec l0 k) as [->|_].
    + exfalso. apply Hnot. eapply nth_error_In. exact Hk.
    + apply (IH b j Hnd' Hk Hy).
Qed.

Lemma loc_missing (labels : list Z) (b : list R) (k : Z) :
  ~ In k labels -> Series.loc labels b k = None.
Proof.
  unfold Series.loc. revert b.
  induction labels as [|l0 labels IH]; intros [|y0 b] Hk; try reflexivity.
  cbn [combine find fst]. destruct (Z.eqb_spec l0 k) as [->|_].
  - exfalso. apply Hk. left. reflexivity.
  - apply IH. intros H. apply Hk. right. exact H.
Qed.

Lemma div_aligned_nth (index : list Z) (a : list R) (labels : list Z)
  (b : list R) (i : nat) (k : Z) (x : R) :
  nth_error index i = Some k -> nth_error a i = Some x ->
  nth_error (Series.div_aligned index a labels b) i =
  Some match Series.loc labels b k with
       | Some y => Float.div x y
       | None => NaN
       end.
Proof.
  intros Hk Hx. unfold Series.div_aligned.
  rewrite nth_error_map, (combine_nth_error _ _ _ _ _ Hk Hx). reflexivity.
Qed.

(** X19.  The call returns on the inputs on which [runs] holds, and raises
    [ValueError] on all others, in one of two places.  When one frame has
    a reference system and the other has none, [to_crs] raises: the
    warning is already printed and the trees of the caller are untouched.
    When two roads share a row label, the assignment of line 52 raises:
    the trees of the caller, when the call did not have to transform them,
    already carry the column [canopy_area_sq_m] of line 35. *)
Theorem raises_value_error_or_returns d s :
  (runs s -> exists out, result d s = Returned out) /\
  (~ reprojectable s ->
   result d s = Raised "ValueError" /\
   stdout (after d s) = stdout s ++ [banner d; warning] /\
   caller_trees (after d s) = caller_trees s) /\
  (reprojectable s -> ~ NoDup (roads_index (caller_roads s)) ->
   result d s = Raised "ValueError" /\
   (roads_crs (caller_roads s) = trees_crs (caller_trees s) ->
    canopy_area_sq_m (caller_trees (after d s))
      = Some (map canopy_area (trees_rows (caller_trees s))))).
Proof.
  split; [|split].
  - intros Hruns. eexists. apply result_eq. exact Hruns.
  - intros Hnot. split.
    + apply result_raises. intros [Hcrs _]. contradiction.
    + destruct (to_crs_raises s Hnot) as [Hdiff _].
      rewrite after_eq. cbn [stdout caller_trees]. rewrite Hdiff.
      split; reflexivity.
  - intros Hcrs Hdup. split.
    + apply result_raises. intros [_ Hnd]. contradiction.
    + intros Heq. rewrite after_eq. cbn [caller_trees].
      rewrite Heq, crs_eqb_refl. reflexivity.
Qed.

(** X20.  On roads that do not carry their default row labels, line 52
    divides the summed canopy area of row [i] by the buffer area of the
    road whose row label is [i], which may be another road; when no road
    has the label [i], [s_canopy] is NaN on row [i], and so are
    [s_canopy_norm], [static_eqs] and [serenity_score]. *)
Theorem canopy_score_is_aligned_on_labels d s :
  runs s ->
  ~ default_labels (caller_roads s) ->
  exists out,
    result d s = Returned out /\
    forall i canopy,
      nth_error (out_canopy_area_sq_m out) i = Some canopy ->
      (forall j r',
         nth_error (roads_table (caller_roads s)) j = Some (Z.of_nat i, r') ->
         nth_error (s_canopy out) i
           = Some (Float.div canopy (area (buffer (geometry r') d)))) /\
      (~ In (Z.of_nat i) (roads_index (caller_roads s)) ->
       nth_error (s_canopy out) i = Some NaN /\
       nth_error (s_canopy_norm out) i = Some NaN /\
       nth_error (static_eqs out) i = Some NaN /\
       nth_error (serenity_score out) i = Some NaN).
Proof.
  intros Hruns Hlab.
  destruct (raw_columns d s Hruns)
    as (out & Hres & _ & Hcan & _ & _ & Hsc & _).
  destruct (norm_columns d s Hruns)
    as (out1 & Hres1 & Hnc & _ & _ & _ & _ & Hrect).
  rewrite Hres in Hres1. injection Hres1 as <-.
  destruct (composite_cells d s Hruns) as (out2 & Hres2 & Hcells).
  rewrite Hres in Hres2. injection Hres2 as <-.
  exists out. split; [exact Hres|]. intros i canopy Hi.
  assert (i < List.length (roads_rows (caller_roads s)))%nat as Hlt.
  { assert (i < List.length (out_canopy_area_sq_m out))%nat as H
      by (apply nth_error_Some; congruence).
    rewrite Hcan, length_map in H. exact H. }
  assert (Series.index_equals
            (RangeIndex (List.length (roads_rows (caller_roads s))))
            (roads_index (caller_roads s)) = false) as Hdiff.
  { destruct (Series.index_equals _ _) eqn:He; [|reflexivity].
    exfalso. apply Hlab. apply index_equals_eq in He.
    unfold default_labels. rewrite <- He. unfold roads_rows.
    rewrite length_map. reflexivity. }
  assert (nth_error (s_canopy out) i =
          Some match Series.loc (roads_index (caller_roads s))
                       (map (fun r => area (buffer (geometry r) d))
                            (roads_rows (caller_roads s)))
                       (Z.of_nat i) with
               | Some y => Float.div canopy y
               | None => NaN
               end) as Hcell.
  { rewrite Hsc. unfold Series.quotient. rewrite Hdiff.
    apply div_aligned_nth; [apply RangeIndex_nth; exact Hlt|].
    rewrite <- Hcan. exact Hi. }
  split.
  - intros j r' Hj. rewrite Hcell.
    rewrite (loc_found _ _ j (Z.of_nat i) (area (buffer (geometry r') d)));
      [reflexivity|apply Hruns| |].
    + unfold roads_index. rewrite nth_error_map, Hj. reflexivity.
    + unfold roads_rows. rewrite !nth_error_map, Hj. reflexivity.
  - intros Hnone. rewrite loc_missing in Hcell by exact Hnone.
    assert (nth_error (s_canopy_norm out) i = Some NaN) as Hnorm.
    { rewrite Hnc. unfold Series.rank_pct. rewrite nth_error_map, Hcell.
      cbn [option_map]. rewrite pct_nan by reflexivity. reflexivity. }
    split; [exact Hcell|]. split; [exact Hnorm|].
    assert (i < List.length (s_canopy_norm out))%nat as Hi'
      by (apply nth_error_Some; congruence).
    destruct Hrect as (_ & _ & _ & _ & _ & _ & Hla & Hlb & Hlc & _).
    destruct (nth_error (s_co2_norm out) i) as [pb|] eqn:Hb;
      [|apply nth_error_None in Hb; lia].
    destruct (nth_error (s_bio_norm out) i) as [pc|] eqn:Hc;
      [|apply nth_error_None in Hc; lia].
    destruct (Hcells i NaN pb pc Hnorm Hb Hc) as [Hst Hse].
    rewrite Hst, Hse. split; reflexivity.
Qed.

End Labels.


(** ** Scores that are numbers *)

Section Numbers.
Context {G : Geometry}.
Implicit Types (s : Caller) (d : Z).

Lemma ln_1_plus_nonneg (x : R) : 0 <= x -> 0 <= ln (1 + x).
Proof.
  intros [Hx|<-].
  - left. rewrite <- ln_1. apply ln_increasing; lra.
  - rewrite Rplus_0_r, ln_1. lra.
Qed.

(** The normalized value of a raw number, from the columns of a call. *)
Lemma norm_of_number (raw norm : list float) (i : nat) (x : R) :
  norm = Series.rank_pct raw ->
  nth_error raw i = Some (Fin x) ->
  exists p, nth_error norm i = Some (Fin p) /\ 0 < p <= 1.
Proof.
  intros -> Hi.
  destruct (rank_pct_spec raw) as (_ & _ & Hrank).
  destruct (Hrank i (Fin x) Hi) as (p & Hp & _ & Hnum).
  destruct (Hnum eq_refl) as (_ & _ & (q & -> & Hq) & _).
  exists q. split; assumption.
Qed.

(** The biodiversity cells of a row. *)
Lemma bio_cells d s :
  runs s ->
  exists out,
    result d s = Returned out /\
    forall i r, nth_error (roads_rows (caller_roads s)) i = Some r ->
      exists n : nat,
        nth_error (out_s_bio_count out) i = Some (INR n) /\
        nth_error (s_bio out) i = Some (Fin (ln (1 + INR n))).
Proof.
  intros Hruns.
  destruct (raw_columns d s Hruns)
    as (out & Hres & _ & _ & _ & Hbio & _ & _ & Hsbio).
  exists out. split; [exact Hres|]. intros i r Hi.
  rewrite Hbio, Hsbio, !nth_error_map, Hi. cbn [option_map].
  destruct (filled_cells (joined_rows d s) r) as (_ & _ & ->).
  eexists. split; [reflexivity|]. rewrite log1p_count. reflexivity.
Qed.

(** X5.  Whatever the frames on which the call returns, the biodiversity
    columns hold numbers on every row: [s_bio_count] is a count,
    [s_bio = log1p(s_bio_count)] is a number that is not negative, and
    [s_bio_norm] is a number of (0, 1].  The NaN of the two divided scores
    cannot occur in this column. *)
Theorem biodiversity_scores_are_numbers d s :
  runs s ->
  exists out,
    result d s = Returned out /\
    forall i r, nth_error (roads_rows (caller_roads s)) i = Some r ->
      exists (n : nat) (p : R),
        nth_error (out_s_bio_count out) i = Some (INR n) /\
        nth_error (s_bio out) i = Some (Fin (ln (1 + INR n))) /\
        0 <= ln (1 + INR n) /\
        nth_error (s_bio_norm out) i = Some (Fin p) /\
        0 < p <= 1.
Proof.
  intros Hruns.
  destruct (bio_cells d s Hruns) as (out & Hres & Hcells).
  destruct (norm_columns d s Hruns) as (out' & Hres' & _ & _ & Hnb & _).
  rewrite Hres in Hres'. injection Hres' as <-.
  exists out. split; [exact Hres|]. intros i r Hi.
  destruct (Hcells i r Hi) as (n & Hn & Hb).
  destruct (norm_of_number _ _ i _ Hnb Hb) as (p & Hp & Hbounds).
  exists n, p. repeat split; try assumption; try apply Hbounds.
  apply ln_1_plus_nonneg, pos_INR.
Qed.

(** X6.  On roads that carry their default row labels, when no road has a
    buffer of area zero or a length of zero, every row of the output has
    three normalized scores that are numbers of (0, 1], and [static_eqs]
    and [serenity_score] are their weighted sums 0.5/0.3/0.2 and 0.7/0.3,
    again numbers of (0, 1]: no NaN reaches the output. *)
Theorem nonzero_denominators_scores_in_unit_interval d s :
  reprojectable s ->
  default_labels (caller_roads s) ->
  (forall r, In r (roads_rows (caller_roads s)) ->
             area (buffer (geometry r) d) <> 0 /\ length (geometry r) <> 0) ->
  exists out,
    result d s = Returned out /\
    forall i r, nth_error (roads_rows (caller_roads s)) i = Some r ->
      exists a b c,
        nth_error (s_canopy_norm out) i = Some (Fin a) /\
        nth_error (s_co2_norm out) i = Some (Fin b) /\
        nth_error (s_bio_norm out) i = Some (Fin c) /\
        0 < a <= 1 /\ 0 < b <= 1 /\ 0 < c <= 1 /\
        nth_error (static_eqs out) i =
          Some (Fin (5/10 * a + 3/10 * b + 2/10 * c)) /\
        nth_error (serenity_score out) i = Some (Fin (7/10 * a + 3/10 * c)) /\
        0 < 5/10 * a + 3/10 * b + 2/10 * c <= 1 /\
        0 < 7/10 * a + 3/10 * c <= 1.
Proof.
  intros Hcrs Hlab Hden.
  pose proof (default_labels_runs s Hcrs Hlab) as Hruns.
  destruct (raw_columns_default d s Hcrs Hlab)
    as (out & Hres & _ & _ & _ & _ & Hsc & Hsco2 & _).
  destruct (bio_cells d s Hruns) as (out1 & Hres1 & Hcells).
  rewrite Hres in Hres1. injection Hres1 as <-.
  destruct (norm_columns d s Hruns) as (out2 & Hres2 & Hnc & Hnco2 & Hnb & _).
  rewrite Hres in Hres2. injection Hres2 as <-.
  destruct (composite_cells d s Hruns) as (out3 & Hres3 & Hcomp).
  rewrite Hres in Hres3. injection Hres3 as <-.
  exists out. split; [exact Hres|]. intros i r Hi.
  destruct (Hden r (nth_error_In _ _ Hi)) as [Harea Hlen].
  assert (exists x, nth_error (s_canopy out) i = Some (Fin x)) as (x & Hx).
  { rewrite Hsc, nth_error_map, Hi. cbn [option_map].
    rewrite div_nonzero by exact Harea. eexists. reflexivity. }
  assert (exists y, nth_error (s_co2 out) i = Some (Fin y)) as (y & Hy).
  { rewrite Hsco2, nth_error_map, Hi. cbn [option_map].
    rewrite div_nonzero by exact Hlen. eexists. reflexivity. }
  destruct (Hcells i r Hi) as (n & _ & Hz).
  destruct (norm_of_number _ _ i _ Hnc Hx) as (a & Ha & Ba).
  destruct (norm_of_number _ _ i _ Hnco2 Hy) as (b & Hb & Bb).
  destruct (norm_of_number _ _ i _ Hnb Hz) as (c & Hc & Bc).
  destruct (Hcomp i _ _ _ Ha Hb Hc) as [Hst Hse].
  exists a, b, c. repeat split; try assumption; try lra.
Qed.

End Numbers.


(** ** The order of the trees *)

Section TreeOrder.
Context {G : Geometry}.
Implicit Types (s : Caller) (d : Z).

Lemma sum_permutation (l l' : list R) :
  Permutation l l' -> Series.sum l = Series.sum l'.
Proof.
  unfold Series.sum. induction 1; simpl; try lra; congruence.
Qed.

Lemma filter_permutation {A} (p : A -> bool) (l l' : list A) :
  Permutation l l' -> Permutation (filter p l) (filter p l').
Proof.
  induction 1 as [|x l l' _ IH|x y l|l l' l'' _ IH1 _ IH2]; simpl.
  - constructor.
  - destruct (p x); [constructor|]; exact IH.
  - destruct (p x), (p y); try reflexivity. constructor.
  - etransitivity; eassumption.
Qed.

Lemma nunique_permutation (l l' : list string) :
  Permutation l l' -> nunique l = nunique l'.
Proof.
  intros H. unfold nunique. apply Permutation_length.
  apply NoDup_Permutation; try apply NoDup_nodup.
  intros x. rewrite !nodup_In. split; apply Permutation_in;
    [exact H|symmetry; exact H].
Qed.

Lemma merged_row_permutation (joined joined' : list Joined) (r : Road) :
  Permutation joined joined' -> merged_row joined r = merged_row joined' r.
Proof.
  intros H. unfold merged_row.
  assert (forall k, Permutation (group joined k) (group joined' k)) as Hg.
  { intros k. apply filter_permutation. exact H. }
  destruct (in_dec Z.eq_dec (segment_id r) (map joined_segment_id joined))
    as [Hin|Hnot],
    (in_dec Z.eq_dec (segment_id r) (map joined_segment_id joined'))
    as [Hin'|Hnot'].
  - f_equal; f_equal.
    + apply sum_permutation, Permutation_map, Hg.
    + apply sum_permutation, Permutation_map, Hg.
    + f_equal. apply nunique_permutation, Permutation_map, Hg.
  - exfalso. apply Hnot'.
    eapply Permutation_in; [apply Permutation_map; exact H|exact Hin].
  - exfalso. apply Hnot.
    eapply Permutation_in; [apply Permutation_map; symmetry; exact H|exact Hin'].
  - reflexivity.
Qed.

(** The returned frame depends on the rows of [joined_gdf], not on their
    order. *)
Lemma score_permutation (roads_gdf : RoadsFrame) (bufs : list Buffer)
  (joined joined' : list Joined) :
  Permutation joined joined' ->
  scored_frame roads_gdf bufs joined = scored_frame roads_gdf bufs joined'.
Proof.
  intros H. unfold scored_frame. rewrite !merge_rows.
  rewrite (map_ext (merged_row joined) (merged_row joined'));
    [reflexivity|].
  intros r. apply merged_row_permutation. exact H.
Qed.

Lemma join_rows_permutation (trees trees' : list Tree) (bufs : list Buffer) :
  Permutation trees trees' ->
  Permutation (join_rows (combine trees (map canopy_area trees)) bufs)
              (join_rows (combine trees' (map canopy_area trees')) bufs).
Proof.
  intros H. unfold join_rows. rewrite !combine_self_map.
  apply Permutation_flat_map, Permutation_map. exact H.
Qed.

(** X3.  The order of the rows of [trees_gdf] is irrelevant: a call on the
    same trees in another order returns the same frame (the sums of line 46
    being taken exactly). *)
Theorem tree_order_is_irrelevant d s (trees' : TreesFrame) :
  trees_crs trees' = trees_crs (caller_trees s) ->
  Permutation (trees_rows (caller_trees s)) (trees_rows trees') ->
  result d (with_trees s trees') = result d s.
Proof.
  intros Hcrs Hperm. apply result_of_frame.
  - reflexivity.
  - unfold reprojectable. cbn [with_trees caller_roads caller_trees].
    rewrite Hcrs. reflexivity.
  - unfold frame. cbn [with_trees caller_roads].
    symmetry. apply score_permutation, join_rows_permutation.
    unfold aligned_trees, to_crs.
    cbn [with_trees caller_roads caller_trees trees_rows]. rewrite Hcrs.
    destruct (crs_eqb (roads_crs (caller_roads s)) (trees_crs (caller_trees s)));
      [exact Hperm|].
    destruct (trees_crs (caller_trees s)); [|constructor].
    destruct (roads_crs (caller_roads s)); [|constructor].
    cbn [trees_rows]. apply Permutation_map. exact Hperm.
Qed.

End TreeOrder.


(** ** Trees out of reach and the order of the roads *)

Section Frame.
Context {G : Geometry}.
Implicit Types (s : Caller) (d : Z).

Lemma filter_none {A} (p : A -> bool) (l : list A) :
  (forall a, In a l -> p a = false) -> filter p l = [].
Proof.
  induction l as [|a l IH]; intros H; [reflexivity|]. cbn [filter].
  rewrite (H a (or_introl eq_refl)). apply IH.
  intros b Hb. apply H. right. exact Hb.
Qed.

(** X2.  A tree that lies within the buffer of no road contributes to
    nothing: the inner join of line 38 drops it, and the call returns the
    same frame with or without it. *)
Theorem tree_outside_buffers_changes_nothing d s (t : Tree) (col : option (list R)) :
  (forall r, In r (roads_rows (caller_roads s)) ->
     within (in_roads_crs s (tree_geometry t)) (buffer (geometry r) d) = false) ->
  result d (with_trees s {| trees_crs := trees_crs (caller_trees s);
                            trees_rows := t :: trees_rows (caller_trees s);
                            canopy_area_sq_m := col |})
  = result d s.
Proof.
  intros Hout. apply result_of_joined_rows; [reflexivity|reflexivity|].
  unfold joined_rows, aligned_trees, in_roads_crs, to_crs in *.
  cbn [with_trees caller_roads caller_trees trees_crs trees_rows].
  destruct (trees_crs (caller_trees s)) as [from|],
           (roads_crs (caller_roads s)) as [to|];
    cbn [crs_eqb]; try reflexivity;
    try destruct (to =? from)%string;
    cbn [trees_rows map combine join_rows flat_map fst snd tree_geometry
         reproject];
    (rewrite filter_none; [reflexivity|]);
    intros b Hb; unfold make_road_buffers in Hb; apply in_map_iff in Hb;
    destruct Hb as (r & <- & Hr); cbn [buffer_geometry]; apply Hout, Hr.
Qed.

Lemma flat_map_permutation {A B} (g g' : A -> list B) (l : list A) :
  (forall a, Permutation (g a) (g' a)) ->
  Permutation (flat_map g l) (flat_map g' l).
Proof.
  intros H. induction l as [|a l IH]; [constructor|].
  cbn [flat_map]. apply Permutation_app; [apply H|exact IH].
Qed.

Lemma pct_permutation (col col' : list float) (x : float) :
  Permutation col col' -> Series.pct col x = Series.pct col' x.
Proof.
  intros H. unfold Series.pct, Series.rank_average, Series.count_lt,
    Series.count_eq, Series.count_valid.
  rewrite (Permutation_length (filter_permutation (fun y => Float.ltb y x) _ _ H)).
  rewrite (Permutation_length (filter_permutation (fun y => Float.eqb y x) _ _ H)).
  rewrite (Permutation_length
             (filter_permutation (fun y => negb (isnan y)) _ _ H)).
  reflexivity.
Qed.

Lemma joined_rows_roads_permutation d s (roads : RoadsFrame) :
  roads_crs roads = roads_crs (caller_roads s) ->
  Permutation (roads_rows (caller_roads s)) (roads_rows roads) ->
  Permutation (joined_rows d s) (joined_rows d (with_roads s roads)).
Proof.
  intros Hcrs Hperm. unfold joined_rows, join_rows.
  assert (aligned_trees (with_roads s roads) = aligned_trees s) as ->.
  { unfold aligned_trees. cbn [with_roads caller_roads caller_trees].
    rewrite Hcrs. reflexivity. }
  apply flat_map_permutation. intros ta.
  apply Permutation_map, filter_permutation. unfold make_road_buffers.
  cbn [with_roads caller_roads]. apply Permutation_map. exact Hperm.
Qed.

(** The raw and normalized columns of a call, as functions of the road
    mapped over the rows. *)
Lemma columns_by_road d s :
  reprojectable s ->
  default_labels (caller_roads s) ->
  exists out,
    result d s = Returned out /\
    s_canopy out = map (raw_canopy d s) (roads_rows (caller_roads s)) /\
    s_co2 out = map (raw_co2 d s) (roads_rows (caller_roads s)) /\
    s_bio out = map (raw_bio d s) (roads_rows (caller_roads s)) /\
    s_canopy_norm out = Series.rank_pct (s_canopy out) /\
    s_co2_norm out = Series.rank_pct (s_co2 out) /\
    s_bio_norm out = Series.rank_pct (s_bio out).
Proof.
  intros Hcrs Hlab.
  destruct (raw_columns_default d s Hcrs Hlab)
    as (out & Hres & _ & _ & _ & _ & Hsc & Hsco2 & Hsbio).
  destruct (norm_columns d s (default_labels_runs s Hcrs Hlab))
    as (out' & Hres' & Hnc & Hnco2 & Hnb & _).
  rewrite Hres in Hres'. injection Hres' as <-.
  exists out. repeat split; assumption.
Qed.

Lemma raw_by_road_permutation d s (roads : RoadsFrame) (r : Road) :
  roads_crs roads = roads_crs (caller_roads s) ->
  Permutation (roads_rows (caller_roads s)) (roads_rows roads) ->
  raw_canopy d (with_roads s roads) r = raw_canopy d s r /\
  raw_co2 d (with_roads s roads) r = raw_co2 d s r /\
  raw_bio d (with_roads s roads) r = raw_bio d s r.
Proof.
  intros Hcrs Hperm. unfold raw_canopy, raw_co2, raw_bio.
  rewrite <- (merged_row_permutation _ _ r
                (joined_rows_roads_permutation d s roads Hcrs Hperm)).
  repeat split; reflexivity.
Qed.

Lemma norm_by_road (f : Road -> float) (rows : list Road) (norm : list float)
  (i : nat) (r : Road) :
  norm = Series.rank_pct (map f rows) ->
  nth_error rows i = Some r ->
  nth_error norm i = Some (Series.pct (map f rows) (f r)).
Proof.
  intros -> Hi. unfold Series.rank_pct. rewrite !nth_error_map, Hi. reflexivity.
Qed.

(** X4.  The scores of a road do not depend on where its row stands in
    [roads_gdf]: between two frames that hold the same roads in different
    orders, each under its default row labels, a road has the same raw
    scores, the same normalized scores and the same composite scores on
    its row in the one as on its row in the other. *)
Theorem road_order_is_irrelevant d s (roads : RoadsFrame) :
  reprojectable s ->
  default_labels (caller_roads s) ->
  default_labels roads ->
  roads_crs roads = roads_crs (caller_roads s) ->
  Permutation (roads_rows (caller_roads s)) (roads_rows roads) ->
  exists out out',
    result d s = Returned out /\
    result d (with_roads s roads) = Returned out' /\
    forall i j r,
      nth_error (roads_rows (caller_roads s)) i = Some r ->
      nth_error (roads_rows roads) j = Some r ->
      nth_error (s_canopy out') j = nth_error (s_canopy out) i /\
      nth_error (s_co2 out') j = nth_error (s_co2 out) i /\
      nth_error (s_bio out') j = nth_error (s_bio out) i /\
      nth_error (s_canopy_norm out') j = nth_error (s_canopy_norm out) i /\
      nth_error (s_co2_norm out') j = nth_error (s_co2_norm out) i /\
      nth_error (s_bio_norm out') j = nth_error (s_bio_norm out) i /\
      nth_error (static_eqs out') j = nth_error (static_eqs out) i /\
      nth_error (serenity_score out') j = nth_error (serenity_score out) i.
Proof.
  intros Hrep Hlab Hlab' Hcrs Hperm.
  assert (reprojectable (with_roads s roads)) as Hrep'.
  { unfold reprojectable in *. cbn [with_roads caller_roads caller_trees].
    rewrite Hcrs. exact Hrep. }
  destruct (columns_by_road d s Hrep Hlab)
    as (out & Hres & Ha & Hb & Hc & Hna & Hnb & Hnc).
  destruct (columns_by_road d (with_roads s roads) Hrep' Hlab')
    as (out' & Hres' & Ha' & Hb' & Hc' & Hna' & Hnb' & Hnc').
  destruct (composite_cells d s (default_labels_runs s Hrep Hlab))
    as (o & Ho & Hcomp).
  rewrite Hres in Ho. injection Ho as <-.
  destruct (composite_cells d (with_roads s roads)
              (default_labels_runs _ Hrep' Hlab')) as (o' & Ho' & Hcomp').
  rewrite Hres' in Ho'. injection Ho' as <-.
  exists out, out'. split; [exact Hres|]. split; [exact Hres'|].
  intros i j r Hi Hj. cbn [with_roads caller_roads] in *.
  rewrite (map_ext _ (raw_canopy d s)) in Ha'
    by (intros x; apply (raw_by_road_permutation d s roads x Hcrs Hperm)).
  rewrite (map_ext _ (raw_co2 d s)) in Hb'
    by (intros x; apply (raw_by_road_permutation d s roads x Hcrs Hperm)).
  rewrite (map_ext _ (raw_bio d s)) in Hc'
    by (intros x; apply (raw_by_road_permutation d s roads x Hcrs Hperm)).
  rewrite Ha in Hna. rewrite Hb in Hnb. rewrite Hc in Hnc.
  rewrite Ha' in Hna'. rewrite Hb' in Hnb'. rewrite Hc' in Hnc'.
  pose proof (norm_by_road _ _ _ i r Hna Hi) as Pa.
  pose proof (norm_by_road _ _ _ i r Hnb Hi) as Pb.
  pose proof (norm_by_road _ _ _ i r Hnc Hi) as Pc.
  pose proof (norm_by_road _ _ _ j r Hna' Hj) as Pa'.
  pose proof (norm_by_road _ _ _ j r Hnb' Hj) as Pb'.
  pose proof (norm_by_road _ _ _ j r Hnc' Hj) as Pc'.
  rewrite <- (pct_permutation _ _ _ (Permutation_map (raw_canopy d s) Hperm)) in Pa'.
  rewrite <- (pct_permutation _ _ _ (Permutation_map (raw_co2 d s) Hperm)) in Pb'.
  rewrite <- (pct_permutation _ _ _ (Permutation_map (raw_bio d s) Hperm)) in Pc'.
  destruct (Hcomp i _ _ _ Pa Pb Pc) as [Hst Hse].
  destruct (Hcomp' j _ _ _ Pa' Pb' Pc') as [Hst' Hse'].
  rewrite Ha, Hb, Hc, Ha', Hb', Hc', !nth_error_map, Hi, Hj.
  rewrite Pa, Pb, Pc, Pa', Pb', Pc', Hst, Hse, Hst', Hse'.
  repeat split; reflexivity.
Qed.

End Frame.


(** ** The emission factor *)

Section Emissions.
Import Routing.

Lemma truediv_numbers (a b : R) :
  b <> 0 -> FloatArith.truediv (Fin a) (Fin b) = Returned (Fin (a / b)).
Proof.
  intros Hb. unfold FloatArith.truediv, FloatArith.fdiv.
  destruct (Req_dec_T b 0); [contradiction|]. rewrite div_nonzero by exact Hb.
  reflexivity.
Qed.

Lemma emission_factor_number (v : R) :
  calculate_emission_factor_g_per_km (Fin v) =
  Returned (Fin (emission_curve (Rmax 1 v))).
Proof.
  unfold calculate_emission_factor_g_per_km, emission_curve. cbn [Float.ltb].
  destruct (Rlt_dec v 1) as [Hlt|Hge].
  - rewrite Rmax_left by lra. rewrite truediv_numbers by lra. cbn.
    do 2 f_equal. 
  - rewrite Rmax_right by lra. rewrite truediv_numbers by lra. cbn.
    reflexivity.
Qed.
End Emissions.

Section Shape.
Import Routing.

Lemma curve_difference (v w : R) :
  v <> 0 -> w <> 0 ->
  emission_curve v - emission_curve w =
  (w - v) * (6500 - 3 / 100 * (v * w * (v + w))) / (v * w).
Proof. intros Hv Hw. unfold emission_curve. field. split; assumption. Qed.

Lemma curve_decreasing (v w : R) :
  1 <= v -> v <= w -> w <= 47 -> emission_curve w <= emission_curve v.
Proof.
  intros H1 Hvw H47.
  assert (0 <= emission_curve v - emission_curve w); [|lra].
  rewrite curve_difference by lra.
  apply Rmult_le_pos; [|left; apply Rinv_0_lt_compat; nra].
  apply Rmult_le_pos; [lra|].
  assert (v * w <= 47 * 47) by nra.
  assert (v * w * (v + w) <= 47 * 47 * 94) by nra.
  lra.
Qed.

Lemma curve_increasing (v w : R) :
  48 <= v -> v <= w -> emission_curve v <= emission_curve w.
Proof.
  intros H48 Hvw.
  assert (emission_curve v - emission_curve w <= 0); [|lra].
  rewrite curve_difference by lra.
  assert (0 < / (v * w)) by (apply Rinv_0_lt_compat; nra).
  assert (48 * 48 <= v * w) by nra.
  assert (48 * 48 * 96 <= v * w * (v + w)) by nra.
  assert ((w - v) * (6500 - 3 / 100 * (v * w * (v + w))) <= 0) by nra.
  unfold Rdiv. nra.
Qed.

Lemma curve_floor (v : R) : 1 <= v -> 284 <= emission_curve v.
Proof.
  intros H1. unfold emission_curve.
  assert (0 <= 3 / 100 * (v * v * v) - 204 * v + 6500) as Hp.
  { destruct (Rle_dec v 300).
    - assert (3 / 100 * (v * v * v) - 204 * v + 6500 =
              3 / 100 * ((v - 476 / 10) * (v - 476 / 10) * (v + 952 / 10))
              + (2898944 / 100000 - 816 / 10000 * v)) as -> by field.
      pose proof (Rle_0_sqr (v - 476 / 10)) as Hsq. unfold Rsqr in Hsq.
      assert (0 <= (v - 476 / 10) * (v - 476 / 10) * (v + 952 / 10))
        by (apply Rmult_le_pos; lra).
      lra.
    - assert (300 * 300 <= v * v) by nra.
      assert (0 <= v * (3 / 100 * (v * v) - 204)) by (apply Rmult_le_pos; lra).
      lra. }
  assert (0 < / v) by (apply Rinv_0_lt_compat; lra).
  assert (6500 / v + 3 / 100 * (v * v) - 204 =
          (3 / 100 * (v * v * v) - 204 * v + 6500) * / v) as Heq by (field; lra).
  assert (0 <= 6500 / v + 3 / 100 * (v * v) - 204); [|lra].
  rewrite Heq. apply Rmult_le_pos; lra.
Qed.

End Shape.


Section Routes.
Import Routing.

Lemma fold_add_numbers (rs : list R) :
  fold_right Float.add (Fin 0) (map Fin rs) = Fin (Series.sum rs).
Proof.
  induction rs as [|r rs IH]; [reflexivity|].
  cbn [map fold_right]. rewrite IH. reflexivity.
Qed.

Lemma mean_numbers (rs : list R) :
  rs <> [] -> mean (map Fin rs) = Fin (Series.sum rs / INR (List.length rs)).
Proof.
  intros Hne. unfold mean.
  assert (filter (fun y => negb (isnan y)) (map Fin rs) = map Fin rs) as ->.
  { induction rs as [|r rs IH]; [reflexivity|]. cbn. f_equal.
    destruct rs; [reflexivity|]. apply IH. discriminate. }
  destruct rs as [|r rs]; [contradiction|].
  cbn [map]. rewrite <- (map_cons Fin r rs), fold_add_numbers.
  unfold FloatArith.fdiv. rewrite length_map, div_nonzero; [reflexivity|].
  cbn [List.length]. rewrite S_INR. pose proof (pos_INR (List.length rs)). lra.
Qed.

Lemma filter_valid_idempotent (col : list float) :
  filter (fun y => negb (isnan y)) (filter (fun y => negb (isnan y)) col)
  = filter (fun y => negb (isnan y)) col.
Proof.
  induction col as [|x col IH]; [reflexivity|]. cbn [filter].
  destruct (negb (isnan x)) eqn:Hx; [|exact IH].
  cbn [filter]. rewrite Hx, IH. reflexivity.
Qed.

Lemma mean_ignores_nan (col : list float) :
  mean (filter (fun y => negb (isnan y)) col) = mean col.
Proof. unfold mean. rewrite filter_valid_idempotent. reflexivity. Qed.

Lemma mean_without_numbers (col : list float) :
  (forall x, In x col -> x = NaN) -> mean col = NaN.
Proof.
  intros H. unfold mean.
  assert (filter (fun y => negb (isnan y)) col = []) as ->; [|reflexivity].
  induction col as [|x col IH]; [reflexivity|]. cbn [filter].
  rewrite (H x (or_introl eq_refl)). cbn. apply IH.
  intros y Hy. apply H. right. exact Hy.
Qed.

(** The cells that are numbers, when every cell is NaN or in (0, 1]. *)
Lemma scored_numbers (col : list float) :
  (forall x, In x col -> scored x) ->
  exists rs, filter (fun y => negb (isnan y)) col = map Fin rs /\
             Forall (fun r => 0 < r <= 1) rs /\
             (forall r, In (Fin r) col -> In r rs).
Proof.
  induction col as [|x col IH]; intros H.
  - exists []. repeat split; [constructor|contradiction].
  - destruct IH as (rs & Hf & Hall & Hin).
    { intros y Hy. apply H. right. exact Hy. }
    destruct (H x (or_introl eq_refl)) as [->|(e & -> & He)].
    + exists rs. cbn. repeat split; try assumption.
      intros r [Habs|Hr]; [discriminate|auto].
    + exists (e :: rs). cbn. rewrite Hf. repeat split.
      * constructor; assumption.
      * intros r [Heq|Hr]; [injection Heq as ->; left; reflexivity|right; auto].
Qed.

Lemma sum_unit_bounds (rs : list R) :
  Forall (fun r => 0 < r <= 1) rs -> rs <> [] ->
  0 < Series.sum rs <= INR (List.length rs).
Proof.
  induction 1 as [|r rs Hr Hall IH]; intros Hne; [contradiction|].
  cbn [Series.sum fold_right List.length]. rewrite S_INR.
  fold (Series.sum rs).
  destruct rs as [|r' rs'].
  - cbn. lra.
  - assert (0 < Series.sum (r' :: rs') <= INR (List.length (r' :: rs')))
      by (apply IH; discriminate).
    lra.
Qed.

Lemma mean_scored (col : list float) (x : R) :
  (forall c, In c col -> scored c) -> In (Fin x) col ->
  exists m, mean col = Fin m /\ 0 < m <= 1.
Proof.
  intros Hs Hx. destruct (scored_numbers col Hs) as (rs & Hf & Hall & Hin).
  assert (rs <> []) as Hne.
  { intros ->. exact (Hin x Hx). }
  rewrite <- mean_ignores_nan, Hf, (mean_numbers rs Hne).
  eexists. split; [reflexivity|].
  pose proof (sum_unit_bounds rs Hall Hne) as [Hlo Hhi].
  assert (0 < INR (List.length rs)) by lra.
  split.
  - apply Rdiv_lt_0_compat; assumption.
  - apply (Rmult_le_reg_r (INR (List.length rs))); [assumption|].
    unfold Rdiv. rewrite Rmult_assoc, Rinv_l by lra. lra.
Qed.

Lemma avg_speed_clamped (L T : R) :
  T <= 0 -> Rmax 1 (avg_speed L T) = 1.
Proof.
  intros HT. unfold avg_speed. destruct (Rlt_dec 0 T); [lra|].
  apply Rmax_left. lra.
Qed.

(** The dictionary of a route, term by term. *)
Lemma analyze_closed (col : list float) (L T : R) :
  analyze_route_holistic_cost col L T =
  Returned
    {| holistic_cost :=
         FloatArith.sub
           (Fin (3 / 10 * L
                 + 5 / 10 * (emission_curve (Rmax 1 (avg_speed L T)) * L / 1000)))
           (FloatArith.mul (FloatArith.mul (Fin (2 / 10)) (mean col)) (Fin L));
       avg_eco_score := mean col;
       total_emissions_kg :=
         Fin (emission_curve (Rmax 1 (avg_speed L T)) * L / 1000);
       components :=
         {| distance_cost := Fin (3 / 10 * L);
            emissions_cost :=
              Fin (5 / 10 * (emission_curve (Rmax 1 (avg_speed L T)) * L / 1000));
            environmental_reward :=
              FloatArith.mul (FloatArith.mul (Fin (2 / 10)) (mean col)) (Fin L) |} |}.
Proof.
  unfold analyze_route_holistic_cost, avg_speed.
  destruct (Rlt_dec 0 T) as [HT|HT].
  - rewrite truediv_numbers by lra. cbn [FloatArith.and_then].
    rewrite truediv_numbers by lra. cbn [FloatArith.and_then].
    rewrite emission_factor_number. cbn [FloatArith.and_then].
    cbn [FloatArith.mul Float.scale]. rewrite truediv_numbers by lra.
    cbn [FloatArith.and_then Float.add].
    repeat f_equal; field.
  - cbn [FloatArith.and_then]. rewrite emission_factor_number.
    cbn [FloatArith.and_then FloatArith.mul Float.scale].
    rewrite truediv_numbers by lra. cbn [FloatArith.and_then Float.add].
    repeat f_equal; field.
Qed.

End Routes.


Section RouteProperties.
Import Routing.

(** X8.  [calculate_emission_factor_g_per_km] never divides by zero and
    returns for every speed: a speed is clamped to 1 from below, the factor
    of a number is [80 + 6500/v + 0.03 v^2] at the clamped speed and is at
    least 284 g/km; every speed of at most 1 (zero, negative, -inf) gives
    6580.03; +inf gives +inf and NaN, which the test [< 1] lets through,
    gives NaN. *)
Theorem emission_factor_never_divides_by_zero (speed_kmh : float) :
  exists e,
    calculate_emission_factor_g_per_km speed_kmh = Returned e /\
    (forall v, speed_kmh = Fin v ->
       e = Fin (emission_curve (Rmax 1 v)) /\
       284 <= emission_curve (Rmax 1 v)) /\
    (forall v, speed_kmh = Fin v -> v <= 1 -> e = Fin (658003 / 100)) /\
    (speed_kmh = NInf -> e = Fin (658003 / 100)) /\
    (speed_kmh = PInf -> e = PInf) /\
    (speed_kmh = NaN -> e = NaN).
Proof.
  destruct speed_kmh as [v| | |].
  - eexists. split; [apply emission_factor_number|].
    split; [|split; [|repeat split; discriminate]].
    + intros v' Hv. injection Hv as <-. split; [reflexivity|].
      apply curve_floor, Rmax_l.
    + intros v' Hv Hle. injection Hv as <-. rewrite Rmax_left by exact Hle.
      unfold emission_curve. f_equal. field.
  - eexists. split; [reflexivity|].
    repeat split; try discriminate. intros _. cbn.
    destruct (Req_dec_T (3 / 100) 0); [lra|].
    destruct (Rlt_dec 0 (3 / 100)); [reflexivity|lra].
  - eexists. split.
    + unfold calculate_emission_factor_g_per_km. cbn [Float.ltb].
      rewrite truediv_numbers by lra. reflexivity.
    + repeat split; try discriminate. intros _. cbn. f_equal. field.
  - eexists. split; [reflexivity|]. repeat split; discriminate.
Qed.

(** X9.  The emission factor is U-shaped in the speed, as its docstring
    says: it does not increase with the speed up to 47 km/h and does not
    decrease from 48 km/h on. *)
Theorem emission_factor_u_shaped (v w : R) :
  v <= w ->
  exists ev ew,
    calculate_emission_factor_g_per_km (Fin v) = Returned (Fin ev) /\
    calculate_emission_factor_g_per_km (Fin w) = Returned (Fin ew) /\
    (w <= 47 -> ew <= ev) /\
    (48 <= v -> ev <= ew).
Proof.
  intros Hvw. do 2 eexists. rewrite !emission_factor_number.
  split; [reflexivity|]. split; [reflexivity|]. split.
  - intros H47. apply curve_decreasing.
    + apply Rmax_l.
    + apply Rle_max_compat_l. exact Hvw.
    + apply Rmax_lub; lra.
  - intros H48. rewrite !Rmax_right by lra. apply curve_increasing; assumption.
Qed.

(** X10.  [analyze_route_holistic_cost] returns for every length and time:
    the test [route_time_min > 0] guards the division by the time, and the
    clamp of the emission factor the division by the speed.  The distance
    cost is [0.3 L], the emissions are those of the curve at the average
    speed clamped to 1 km/h, and a route that takes no time (or a negative
    one) is charged the 6580.03 g/km of a standstill. *)
Theorem route_analysis_always_returns (static_eqs : list float) (L T : R) :
  exists a,
    analyze_route_holistic_cost static_eqs L T = Returned a /\
    distance_cost (components a) = Fin (3 / 10 * L) /\
    total_emissions_kg a =
      Fin (emission_curve (Rmax 1 (avg_speed L T)) * L / 1000) /\
    emissions_cost (components a) =
      Fin (5 / 10 * (emission_curve (Rmax 1 (avg_speed L T)) * L / 1000)) /\
    (T <= 0 -> total_emissions_kg a = Fin (658003 / 100 * L / 1000)).
Proof.
  eexists. split; [apply analyze_closed|]. cbn.
  repeat split. intros HT. rewrite avg_speed_clamped by exact HT.
  unfold emission_curve. f_equal. field.
Qed.

Lemma holistic_number (col : list float) (L T a : R) :
  mean col = Fin a ->
  exists analysis,
    analyze_route_holistic_cost col L T = Returned analysis /\
    avg_eco_score analysis = Fin a /\
    holistic_cost analysis =
      Fin (3 / 10 * L
           + 5 / 10 * (emission_curve (Rmax 1 (avg_speed L T)) * L / 1000)
           - 2 / 10 * a * L).
Proof.
  intros Hm. eexists. split; [apply analyze_closed|].
  cbn [avg_eco_score holistic_cost]. rewrite Hm. split; [reflexivity|].
  cbn. f_equal. ring.
Qed.

(** X11.  [Series.mean()] skips NaN: the analysis of a route is the analysis
    of its segments whose [static_eqs] is not NaN.  When no segment is left
    (none at all, or all NaN) the average score, the reward and the
    holistic cost are NaN, while the emissions stay a number. *)
Theorem nan_scores_are_skipped (static_eqs : list float) (L T : R) :
  analyze_route_holistic_cost (filter (fun y => negb (isnan y)) static_eqs) L T
  = analyze_route_holistic_cost static_eqs L T /\
  ((forall x, In x static_eqs -> x = NaN) ->
   exists a e,
     analyze_route_holistic_cost static_eqs L T = Returned a /\
     avg_eco_score a = NaN /\
     environmental_reward (components a) = NaN /\
     holistic_cost a = NaN /\
     total_emissions_kg a = Fin e).
Proof.
  split; [rewrite !analyze_closed, mean_ignores_nan; reflexivity|].
  intros H. do 2 eexists. split; [apply analyze_closed|].
  cbn [avg_eco_score components environmental_reward holistic_cost
       total_emissions_kg].
  rewrite (mean_without_numbers static_eqs H). repeat split.
Qed.

(** X12.  Of two routes of the same length (not negative) and the same time,
    the one with the higher average [static_eqs] has the lower or equal
    holistic cost, and the same emissions. *)
Theorem greener_route_is_cheaper (col col' : list float) (L T a a' : R) :
  mean col = Fin a -> mean col' = Fin a' -> a <= a' -> 0 <= L ->
  exists r r' h h',
    analyze_route_holistic_cost col L T = Returned r /\
    analyze_route_holistic_cost col' L T = Returned r' /\
    holistic_cost r = Fin h /\ holistic_cost r' = Fin h' /\
    h' <= h /\
    total_emissions_kg r' = total_emissions_kg r.
Proof.
  intros Hm Hm' Ha HL.
  destruct (holistic_number col L T a Hm) as (r & Hr & _ & Hh).
  destruct (holistic_number col' L T a' Hm') as (r' & Hr' & _ & Hh').
  exists r, r'. do 2 eexists. repeat split; try eassumption.
  - assert (a * L <= a' * L) by (apply Rmult_le_compat_r; assumption). lra.
  - rewrite analyze_closed in Hr, Hr'. injection Hr as <-. injection Hr' as <-.
    reflexivity.
Qed.

Lemma avg_speed_scale (k L T : R) :
  0 < T -> 0 < k -> avg_speed (k * L) (k * T) = avg_speed L T.
Proof.
  intros HT Hk. unfold avg_speed.
  assert (0 < k * T) by (apply Rmult_lt_0_compat; assumption).
  destruct (Rlt_dec 0 (k * T)); [|lra]. destruct (Rlt_dec 0 T); [|lra].
  field. lra.
Qed.

(** X13.  A route [k] times as long that takes [k] times as long has the same
    average speed, so [k] times the emissions and [k] times the holistic
    cost. *)
Theorem route_cost_scales_with_length (col : list float) (k L T a : R) :
  0 < T -> 0 < k -> mean col = Fin a ->
  exists r rk h e,
    analyze_route_holistic_cost col L T = Returned r /\
    analyze_route_holistic_cost col (k * L) (k * T) = Returned rk /\
    holistic_cost r = Fin h /\ holistic_cost rk = Fin (k * h) /\
    total_emissions_kg r = Fin e /\ total_emissions_kg rk = Fin (k * e) /\
    avg_eco_score rk = avg_eco_score r.
Proof.
  intros HT Hk Hm.
  destruct (holistic_number col L T a Hm) as (r & Hr & Ha & Hh).
  destruct (holistic_number col (k * L) (k * T) a Hm) as (rk & Hrk & Hak & Hhk).
  exists r, rk. do 2 eexists.
  split; [exact Hr|]. split; [exact Hrk|]. split; [exact Hh|].
  rewrite avg_speed_scale in Hhk by assumption.
  split; [rewrite Hhk; f_equal; field|].
  rewrite analyze_closed in Hr, Hrk. injection Hr as <-. injection Hrk as <-.
  cbn [total_emissions_kg avg_eco_score].
  rewrite avg_speed_scale by assumption.
  split; [reflexivity|]. split; [f_equal; field|reflexivity].
Qed.

End RouteProperties.


(** ** A route over scored segments *)

Section ScoredRoutes.
Context {G : Geometry}.
Implicit Types (s : Caller) (d : Z).
Import Routing.

Lemma norm_cell (raw norm : list float) (i : nat) (p : float) :
  norm = Series.rank_pct raw -> nth_error norm i = Some p -> scored p.
Proof.
  intros -> Hp. unfold Series.rank_pct in Hp. rewrite nth_error_map in Hp.
  destruct (nth_error raw i) as [x|] eqn:Hx; [|discriminate].
  injection Hp as <-. pose proof (nth_error_In _ _ Hx) as Hin.
  destruct (isnan x) eqn:Hnan.
  - left. apply pct_nan. exact Hnan.
  - right. destruct (pct_unit_interval raw x Hin Hnan) as (q & Hq & Hb).
    exists q. split; assumption.
Qed.

Lemma composite_scored (pa pb pc : float) :
  scored pa -> scored pb -> scored pc ->
  scored (Float.add (Float.add (Float.scale (5/10) pa) (Float.scale (3/10) pb))
                    (Float.scale (2/10) pc)).
Proof.
  intros [->|(a & -> & Ha)] [->|(b & -> & Hb)] [->|(c & -> & Hc)];
    try (left; reflexivity).
  right. eexists. split; [reflexivity|]. lra.
Qed.

(** Every cell of [static_eqs] is NaN or a number of (0, 1]. *)
Lemma static_cells_scored d s :
  runs s ->
  exists out,
    result d s = Returned out /\
    forall c, In c (static_eqs out) -> scored c.
Proof.
  intros Hruns.
  destruct (norm_columns d s Hruns)
    as (out & Hres & Hnc & Hnco2 & Hnb & _ & _ & Hrect).
  destruct (composite_cells d s Hruns) as (out' & Hres' & Hcells).
  rewrite Hres in Hres'. injection Hres' as <-.
  exists out. split; [exact Hres|]. intros c Hc.
  apply In_nth_error in Hc. destruct Hc as (i & Hi).
  assert (i < List.length (static_eqs out))%nat as Hlt
    by (apply nth_error_Some; congruence).
  destruct Hrect as (_ & _ & _ & _ & _ & _ & Hla & Hlb & Hlc & Hls & _).
  destruct (nth_error (s_canopy_norm out) i) as [pa|] eqn:Ha;
    [|apply nth_error_None in Ha; lia].
  destruct (nth_error (s_co2_norm out) i) as [pb|] eqn:Hb;
    [|apply nth_error_None in Hb; lia].
  destruct (nth_error (s_bio_norm out) i) as [pc|] eqn:Hpc;
    [|apply nth_error_None in Hpc; lia].
  destruct (Hcells i pa pb pc Ha Hb Hpc) as [Hst _].
  rewrite Hi in Hst. injection Hst as ->.
  apply composite_scored;
    [ exact (norm_cell _ _ i pa Hnc Ha)
    | exact (norm_cell _ _ i pb Hnco2 Hb)
    | exact (norm_cell _ _ i pc Hnb Hpc) ].
Qed.

(** X14.  On the scores that [calculate_environmental_scores] returns, the
    reward never exceeds the cost: a route of positive length, made of rows
    of the output of which one at least has a [static_eqs] that is a
    number, has an average score in (0, 1] and a holistic cost above
    [0.1 L]. *)
Theorem scored_route_has_positive_cost d s :
  runs s ->
  exists out,
    result d s = Returned out /\
    forall (route : list float) (L T x : R),
      incl route (static_eqs out) -> In (Fin x) route -> 0 < L ->
      exists a m h,
        analyze_route_holistic_cost route L T = Returned a /\
        avg_eco_score a = Fin m /\ 0 < m <= 1 /\
        holistic_cost a = Fin h /\ 1 / 10 * L < h.
Proof.
  intros Hruns.
  destruct (static_cells_scored d s Hruns) as (out & Hres & Hcells).
  exists out. split; [exact Hres|]. intros route L T x Hincl Hx HL.
  destruct (mean_scored route x) as (m & Hm & Hlo & Hhi); [|exact Hx|].
  { intros c Hc. apply Hcells, Hincl, Hc. }
  destruct (holistic_number route L T m Hm) as (a & Ha & Havg & Hh).
  exists a, m. eexists.
  split; [exact Ha|]. split; [exact Havg|]. split; [split; assumption|].
  split; [exact Hh|].
  pose proof (curve_floor (Rmax 1 (avg_speed L T)) (Rmax_l _ _)) as Hfloor.
  assert (0 < emission_curve (Rmax 1 (avg_speed L T)) * L / 1000).
  { apply Rdiv_lt_0_compat; [apply Rmult_lt_0_compat|]; lra. }
  assert (m * L <= 1 * L) by (apply Rmult_le_compat_r; lra).
  lra.
Qed.

End ScoredRoutes.

(** ** Measuring from pixels *)

Section Measurements.
Import Photogrammetry.

Lemma measure_valid
  (sensor_width_mm focal_length_mm distance_m : R)
  (photo_width_px dimension_in_pixels : Z) :
  0 < focal_length_mm -> (0 < photo_width_px)%Z ->
  measure sensor_width_mm focal_length_mm distance_m
          photo_width_px dimension_in_pixels =
  Returned (Fin (sensor_width_mm / focal_length_mm * distance_m
                 / IZR photo_width_px * IZR dimension_in_pixels)).
Proof.
  intros Hf Hw.
  unfold measure, calculate_camera_constant, calculate_scale_factor,
    measure_dimension_from_pixels.
  destruct (Rle_dec focal_length_mm 0) as [Hf'|_]; [lra|].
  rewrite truediv_numbers by lra. cbn [FloatArith.and_then].
  destruct (Z.leb_spec photo_width_px 0) as [Hw'|_]; [lia|].
  cbn [FloatArith.mul Float.scale].
  rewrite truediv_numbers by (apply not_0_IZR; lia).
  cbn [FloatArith.and_then FloatArith.mul Float.scale].
  reflexivity.
Qed.

(** X16.  The three steps of the measurement, chained as in the example:
    [ValueError] when the focal length or the width of the photo is not
    positive, and otherwise the number
    [sensor / focal * distance / width * pixels]; the two guards leave no
    division by zero. *)
Theorem measure_returns_number_or_value_error
  (sensor_width_mm focal_length_mm distance_m : R)
  (photo_width_px dimension_in_pixels : Z) :
  measure sensor_width_mm focal_length_mm distance_m
          photo_width_px dimension_in_pixels =
  if Rle_dec focal_length_mm 0 then Raised "ValueError"
  else if (photo_width_px <=? 0)%Z then Raised "ValueError"
  else Returned (Fin (sensor_width_mm / focal_length_mm * distance_m
                      / IZR photo_width_px * IZR dimension_in_pixels)).
Proof.
  destruct (Rle_dec focal_length_mm 0) as [Hf|Hf].
  - unfold measure, calculate_camera_constant.
    destruct (Rle_dec focal_length_mm 0); [reflexivity|contradiction].
  - destruct (Z.leb_spec photo_width_px 0) as [Hw|Hw].
    + unfold measure, calculate_camera_constant, calculate_scale_factor.
      destruct (Rle_dec focal_length_mm 0); [contradiction|].
      rewrite truediv_numbers by lra. cbn [FloatArith.and_then].
      destruct (Z.leb_spec photo_width_px 0); [reflexivity|lia].
    + apply measure_valid; [lra|exact Hw].
Qed.

(** X17.  A dimension that spans the whole width of the photo measures the
    width of the scene, [sensor / focal * distance], whatever the
    resolution of the photo. *)
Theorem whole_width_measures_scene
  (sensor_width_mm focal_length_mm distance_m : R) (photo_width_px : Z) :
  0 < focal_length_mm -> (0 < photo_width_px)%Z ->
  measure sensor_width_mm focal_length_mm distance_m photo_width_px photo_width_px
  = Returned (Fin (sensor_width_mm / focal_length_mm * distance_m)).
Proof.
  intros Hf Hw. rewrite measure_valid by assumption.
  assert (IZR photo_width_px <> 0) by (apply not_0_IZR; lia).
  do 2 f_equal. field. split; first [assumption|lra].
Qed.

(** X18.  With a valid camera and photo, the measurement is linear in the
    pixels and in the distance: the measure of [p + q] pixels is the sum of
    the measures of [p] and of [q], from [k] times the distance it is [k]
    times as large, and two measures are to each other as their pixels. *)
Theorem measurement_is_proportional
  (sensor_width_mm focal_length_mm distance_m k : R)
  (photo_width_px p q : Z) :
  0 < focal_length_mm -> (0 < photo_width_px)%Z ->
  exists mp mq,
    measure sensor_width_mm focal_length_mm distance_m photo_width_px p
      = Returned (Fin mp) /\
    measure sensor_width_mm focal_length_mm distance_m photo_width_px q
      = Returned (Fin mq) /\
    measure sensor_width_mm focal_length_mm distance_m photo_width_px (p + q)
      = Returned (Fin (mp + mq)) /\
    measure sensor_width_mm focal_length_mm (k * distance_m) photo_width_px p
      = Returned (Fin (k * mp)) /\
    mp * IZR q = mq * IZR p.
Proof.
  intros Hf Hw. do 2 eexists. rewrite !measure_valid by assumption.
  split; [reflexivity|]. split; [reflexivity|].
  assert (IZR photo_width_px <> 0) by (apply not_0_IZR; lia).
  split; [|split].
  - do 2 f_equal. rewrite plus_IZR. field. split; first [assumption|lra].
  - do 2 f_equal. field. split; first [assumption|lra].
  - field. split; first [assumption|lra].
Qed.

End Measurements.


(** ** The mean of the percentile ranks *)

Section MeanRank.
Import Series.

Lemma count_lt_cons (a : float) (l : list float) (x : float) :
  INR (count_lt (a :: l) x) = indicator (Float.ltb a x) + INR (count_lt l x).
Proof.
  unfold count_lt. cbn [filter]. destruct (Float.ltb a x); cbn [indicator].
  - cbn [List.length]. rewrite S_INR. lra.
  - lra.
Qed.

Lemma count_eq_cons (a : float) (l : list float) (x : float) :
  INR (count_eq (a :: l) x) = indicator (Float.eqb a x) + INR (count_eq l x).
Proof.
  unfold count_eq. cbn [filter]. destruct (Float.eqb a x); cbn [indicator].
  - cbn [List.length]. rewrite S_INR. lra.
  - lra.
Qed.

(** A float that is not NaN stands in exactly one way to another. *)
Lemma trichotomy (a x : float) :
  isnan a = false -> isnan x = false ->
  indicator (Float.ltb x a) + indicator (Float.eqb x a) + indicator (Float.ltb a x)
  = 1.
Proof.
  destruct a as [a| | |], x as [x| | |]; intros Ha Hx; try discriminate;
    cbn; try lra.
  destruct (Rlt_dec x a), (Req_dec_T x a), (Rlt_dec a x); cbn; lra.
Qed.

Lemma eqb_sym (a x : float) : Float.eqb a x = Float.eqb x a.
Proof.
  destruct a as [a| | |], x as [x| | |]; try reflexivity. cbn.
  destruct (Req_dec_T a x), (Req_dec_T x a); try reflexivity; congruence.
Qed.

Lemma ltb_irrefl (a : float) : Float.ltb a a = false.
Proof.
  destruct a as [a| | |]; try reflexivity. cbn.
  destruct (Rlt_dec a a); [lra|reflexivity].
Qed.

Lemma eqb_refl_valid (a : float) : isnan a = false -> Float.eqb a a = true.
Proof. intros H. apply eqb_eq, eq_refl_valid, H. Qed.

(** What one more value [a] in the column adds to the ranks of the values
    of [m]. *)
Lemma rank_values_shift (a : float) (l m : list float) :
  (forall x, In x m -> isnan x = false) -> isnan a = false ->
  Series.sum (map (rank_value (a :: l)) m) =
  Series.sum (map (rank_value l) m)
  + Series.sum (map (fun x => indicator (Float.ltb a x)
                              + indicator (Float.eqb a x) / 2) m).
Proof.
  intros Hm Ha. induction m as [|x m IH]; [cbn; lra|].
  cbn [map Series.sum fold_right].
  fold (Series.sum (map (rank_value (a :: l)) m)).
  fold (Series.sum (map (rank_value l) m)).
  fold (Series.sum (map (fun x => indicator (Float.ltb a x)
                                  + indicator (Float.eqb a x) / 2) m)).
  rewrite IH by (intros y Hy; apply Hm; right; exact Hy).
  unfold rank_value. rewrite count_lt_cons, count_eq_cons. lra.
Qed.

Lemma rank_value_new (a : float) (l : list float) :
  isnan a = false ->
  rank_value (a :: l) a = INR (count_lt l a) + (INR (count_eq l a) + 2) / 2.
Proof.
  intros Ha. unfold rank_value.
  rewrite count_lt_cons, count_eq_cons, ltb_irrefl, eqb_refl_valid by exact Ha.
  cbn [indicator]. lra.
Qed.

Lemma counts_around (a : float) (l : list float) :
  (forall x, In x l -> isnan x = false) -> isnan a = false ->
  INR (count_lt l a) + INR (count_eq l a)
  + Series.sum (map (fun x => indicator (Float.ltb a x)
                              + indicator (Float.eqb a x) / 2) l)
  = INR (List.length l) + INR (count_eq l a) / 2.
Proof.
  intros Hl Ha. induction l as [|x l IH]; [cbn; lra|].
  cbn [map Series.sum fold_right List.length].
  fold (Series.sum (map (fun x => indicator (Float.ltb a x)
                                  + indicator (Float.eqb a x) / 2) l)).
  rewrite count_lt_cons, count_eq_cons, S_INR.
  pose proof (trichotomy a x Ha (Hl x (or_introl eq_refl))) as Ht.
  rewrite (eqb_sym a x).
  assert (INR (count_lt l a) + INR (count_eq l a) +
          Series.sum (map (fun x => indicator (Float.ltb a x)
                                    + indicator (Float.eqb a x) / 2) l)
          = INR (List.length l) + INR (count_eq l a) / 2) as IH'
    by (apply IH; intros y Hy; apply Hl; right; exact Hy).
  lra.
Qed.

(** The ranks of a column without NaN add up to 1 + 2 + ... + n. *)
Lemma rank_values_sum (col : list float) :
  (forall x, In x col -> isnan x = false) ->
  Series.sum (map (rank_value col) col)
  = INR (List.length col) * (INR (List.length col) + 1) / 2.
Proof.
  induction col as [|a l IH]; intros Hv; [cbn; lra|].
  assert (isnan a = false) as Ha by (apply Hv; left; reflexivity).
  assert (forall x, In x l -> isnan x = false) as Hl
    by (intros x Hx; apply Hv; right; exact Hx).
  cbn [map Series.sum fold_right List.length].
  fold (Series.sum (map (rank_value (a :: l)) l)).
  rewrite rank_values_shift, rank_value_new, IH, S_INR by assumption.
  pose proof (counts_around a l Hl Ha). lra.
Qed.

End MeanRank.


Section MeanScores.
Context {G : Geometry}.
Implicit Types (s : Caller) (d : Z).
Import Series.

Lemma sum_divided (c : R) (l : list R) :
  Series.sum (map (fun x => x / c) l) = Series.sum l / c.
Proof.
  induction l as [|x l IH]; cbn [map Series.sum fold_right].
  - unfold Rdiv. rewrite Rmult_0_l. reflexivity.
  - fold (Series.sum (map (fun x => x / c) l)). fold (Series.sum l).
    rewrite IH. unfold Rdiv. ring.
Qed.

(** The percentile ranks of a column without NaN: numbers whose sum is
    (n + 1) / 2. *)
Lemma rank_pct_numbers (col : list float) :
  col <> [] -> (forall x, In x col -> isnan x = false) ->
  exists ps,
    rank_pct col = map Fin ps /\
    List.length ps = List.length col /\
    Series.sum ps = (INR (List.length col) + 1) / 2.
Proof.
  intros Hne Hv.
  exists (map (fun x => x / INR (List.length col)) (map (rank_value col) col)).
  split; [|split].
  - unfold rank_pct. rewrite !map_map. apply map_ext_in. intros x Hx.
    rewrite (pct_closed col x Hx (Hv x Hx)), (count_valid_all col Hv).
    reflexivity.
  - rewrite !length_map. reflexivity.
  - rewrite sum_divided, (rank_values_sum col Hv).
    assert (0 < INR (List.length col)).
    { destruct col; [contradiction|]. cbn [List.length]. rewrite S_INR.
      pose proof (pos_INR (List.length col)). lra. }
    field. lra.
Qed.

Lemma scale_numbers (w : R) (l : list R) :
  exists rs,
    Series.scale w (map Fin l) = map Fin rs /\
    List.length rs = List.length l /\
    Series.sum rs = w * Series.sum l.
Proof.
  exists (map (Rmult w) l). unfold Series.scale. rewrite !map_map, length_map.
  repeat split. induction l as [|x l IH]; cbn [map Series.sum fold_right].
  - ring.
  - fold (Series.sum (map (Rmult w) l)). fold (Series.sum l). rewrite IH. ring.
Qed.

Lemma add_numbers (a b : list R) :
  List.length a = List.length b ->
  exists rs,
    Series.add (map Fin a) (map Fin b) = map Fin rs /\
    List.length rs = List.length a /\
    Series.sum rs = Series.sum a + Series.sum b.
Proof.
  revert b. induction a as [|x a IH]; intros [|y b] Hlen; try discriminate.
  - exists []. cbn. repeat split. lra.
  - injection Hlen as Hlen. destruct (IH b Hlen) as (rs & Hrs & Hl & Hs).
    exists (x + y :: rs). unfold Series.add in *. cbn [map combine fst snd].
    rewrite Hrs. cbn [List.length Series.sum fold_right Float.add].
    fold (Series.sum rs). fold (Series.sum a). fold (Series.sum b).
    rewrite Hl, Hs. repeat split. lra.
Qed.

Lemma mean_of_numbers (rs : list R) (n : nat) (total : R) :
  List.length rs = S n -> Series.sum rs = total ->
  Routing.mean (map Fin rs) = Fin (total / INR (S n)).
Proof.
  intros Hl Hs. rewrite mean_numbers; [rewrite Hl, Hs; reflexivity|].
  intros ->. discriminate.
Qed.

End MeanScores.


Section MeanOfNetwork.
Context {G : Geometry}.
Implicit Types (s : Caller) (d : Z).
Import Series.

(** On roads with their default labels and non-zero denominators no raw
    score is NaN. *)
Lemma raw_scores_numbers d s :
  reprojectable s ->
  default_labels (caller_roads s) ->
  (forall r, In r (roads_rows (caller_roads s)) ->
             area (buffer (geometry r) d) <> 0 /\ length (geometry r) <> 0) ->
  exists out,
    result d s = Returned out /\
    List.length (s_canopy out) = List.length (roads_rows (caller_roads s)) /\
    List.length (s_co2 out) = List.length (roads_rows (caller_roads s)) /\
    List.length (s_bio out) = List.length (roads_rows (caller_roads s)) /\
    (forall x, In x (s_canopy out) -> isnan x = false) /\
    (forall x, In x (s_co2 out) -> isnan x = false) /\
    (forall x, In x (s_bio out) -> isnan x = false).
Proof.
  intros Hcrs Hlab Hden.
  destruct (raw_columns_default d s Hcrs Hlab)
    as (out & Hres & _ & _ & _ & _ & Hsc & Hsco2 & Hsbio).
  exists out. split; [exact Hres|].
  rewrite Hsc, Hsco2, Hsbio, !length_map.
  repeat split; intros x Hx; apply in_map_iff in Hx;
    destruct Hx as (r & <- & Hr).
  - rewrite div_nonzero by (apply (Hden r Hr)). reflexivity.
  - rewrite div_nonzero by (apply (Hden r Hr)). reflexivity.
  - destruct (filled_cells (joined_rows d s) r) as (_ & _ & ->).
    rewrite log1p_count. reflexivity.
Qed.

(** X7.  On roads that carry their default row labels, when no road has a
    buffer of area zero or a length of zero, the mean of each normalized
    column over the [n] roads of the network is [(n + 1) / (2 n)], whatever
    the trees, and so is the mean of [static_eqs] and of [serenity_score],
    whose weights add up to 1. *)
Theorem mean_score_of_network_is_constant d s :
  reprojectable s ->
  default_labels (caller_roads s) ->
  roads_rows (caller_roads s) <> [] ->
  (forall r, In r (roads_rows (caller_roads s)) ->
             area (buffer (geometry r) d) <> 0 /\ length (geometry r) <> 0) ->
  exists out,
    result d s = Returned out /\
    Routing.mean (s_canopy_norm out)
      = Fin ((INR (List.length (roads_rows (caller_roads s))) + 1) / 2
             / INR (List.length (roads_rows (caller_roads s)))) /\
    Routing.mean (s_co2_norm out)
      = Fin ((INR (List.length (roads_rows (caller_roads s))) + 1) / 2
             / INR (List.length (roads_rows (caller_roads s)))) /\
    Routing.mean (s_bio_norm out)
      = Fin ((INR (List.length (roads_rows (caller_roads s))) + 1) / 2
             / INR (List.length (roads_rows (caller_roads s)))) /\
    Routing.mean (static_eqs out)
      = Fin ((INR (List.length (roads_rows (caller_roads s))) + 1) / 2
             / INR (List.length (roads_rows (caller_roads s)))) /\
    Routing.mean (serenity_score out)
      = Fin ((INR (List.length (roads_rows (caller_roads s))) + 1) / 2
             / INR (List.length (roads_rows (caller_roads s)))).
Proof.
  intros Hcrs Hdefault Hne Hden.
  destruct (raw_scores_numbers d s Hcrs Hdefault Hden)
    as (out & Hres & Hla & Hlb & Hlc & Hva & Hvb & Hvc).
  destruct (norm_columns d s (default_labels_runs s Hcrs Hdefault))
    as (out' & Hres' & Hnc & Hnco2 & Hnb & Hst & Hse & _).
  rewrite Hres in Hres'. injection Hres' as <-.
  exists out. split; [exact Hres|].
  destruct (roads_rows (caller_roads s)) as [|r0 rows] eqn:Hrows;
    [contradiction|].
  cbn [List.length] in *.
  assert (forall col : list float, List.length col = S (List.length rows) -> col <> []) as Hnonempty
    by (intros col Hl ->; discriminate).
  destruct (rank_pct_numbers (s_canopy out) (Hnonempty _ Hla) Hva)
    as (pa & Hpa & Hlpa & Hspa).
  destruct (rank_pct_numbers (s_co2 out) (Hnonempty _ Hlb) Hvb)
    as (pb & Hpb & Hlpb & Hspb).
  destruct (rank_pct_numbers (s_bio out) (Hnonempty _ Hlc) Hvc)
    as (pc & Hpc & Hlpc & Hspc).
  rewrite Hla in Hlpa, Hspa. rewrite Hlb in Hlpb, Hspb.
  rewrite Hlc in Hlpc, Hspc.
  rewrite Hst, Hse, Hnc, Hnco2, Hnb, Hpa, Hpb, Hpc.
  split; [apply mean_of_numbers; assumption|].
  split; [apply mean_of_numbers; assumption|].
  split; [apply mean_of_numbers; assumption|].
  destruct (scale_numbers (5/10) pa) as (a5 & -> & Hl5 & Hs5).
  destruct (scale_numbers (3/10) pb) as (b3 & -> & Hl3 & Hs3).
  destruct (scale_numbers (2/10) pc) as (c2 & -> & Hl2 & Hs2).
  destruct (scale_numbers (7/10) pa) as (a7 & -> & Hl7 & Hs7).
  destruct (scale_numbers (3/10) pc) as (c3 & -> & Hlc3 & Hsc3).
  destruct (add_numbers a5 b3) as (ab & -> & Hlab & Hsab); [congruence|].
  destruct (add_numbers ab c2) as (abc & -> & Hlabc & Hsabc); [congruence|].
  destruct (add_numbers a7 c3) as (ac & -> & Hlac & Hsac); [congruence|].
  split; (apply mean_of_numbers; [lia|]).
  - rewrite Hsabc, Hsab, Hs5, Hs3, Hs2, Hspa, Hspb, Hspc. field.
  - rewrite Hsac, Hs7, Hsc3, Hspa, Hspc. field.
Qed.

End MeanOfNetwork.

(** ** Instances of the further properties *)

Section FurtherRuns.
#[local] Existing Instance Planar.plane.
Import Routing Photogrammetry.

Lemma demo_denominators (r : Road) :
  In r (roads_rows (caller_roads Planar.demo)) ->
  area (buffer (geometry r) 10) <> 0 /\ length (geometry r) <> 0.
Proof.
  pose proof PI_RGT_0 as Hpi.
  pose proof (span_100 0 0) as Hs1. pose proof (span_100 0 50) as Hs2.
  cbn [Z.add] in Hs1, Hs2.
  intros [<-|[<-|[]]]; cbn; rewrite ?Hs1, ?Hs2; split; lra.
Qed.

Lemma aggregates_of_joined_trees_witness :
  exists out,
    result 10 Planar.demo = Returned out /\
    nth_error (out_s_co2_total out) 0 =
      Some (Series.sum
              (map CO2_sequestered_kg
                 (trees_joined 10 Planar.demo Variations.first_road))).
Proof.
  destruct (aggregates_of_joined_trees 10 Planar.demo 0 Variations.first_road
              demo_keys (proj1 demo_runs) eq_refl)
    as (out & Hres & _ & Hco2 & _).
  exists out. split; assumption.
Defined.

Lemma biodiversity_scores_are_numbers_witness :
  runs Planar.demo /\
  exists out (n : nat) (p : R),
    result 10 Planar.demo = Returned out /\
    nth_error (s_bio out) 0 = Some (Fin (ln (1 + INR n))) /\
    nth_error (s_bio_norm out) 0 = Some (Fin p) /\ 0 < p <= 1.
Proof.
  split; [exact (proj1 demo_runs)|].
  destruct (biodiversity_scores_are_numbers 10 Planar.demo (proj1 demo_runs))
    as (out & Hres & Hrows).
  destruct (Hrows 0%nat Variations.first_road eq_refl)
    as (n & p & _ & Hb & _ & Hp & Hbounds).
  exists out, n, p. repeat split; try assumption; apply Hbounds.
Defined.


Lemma raises_value_error_or_returns_witness :
  result 10 (Planar.call Planar.demo_roads Planar.naive_trees)
    = Raised "ValueError" /\
  stdout (after 10 (Planar.call Planar.demo_roads Planar.naive_trees))
    = [banner 10; warning] /\
  result 10 (Planar.call Planar.concatenated_roads Planar.demo_trees)
    = Raised "ValueError" /\
  canopy_area_sq_m
    (caller_trees (after 10 (Planar.call Planar.concatenated_roads Planar.demo_trees)))
    = Some (map canopy_area (trees_rows Planar.demo_trees)).
Proof.
  destruct (raises_value_error_or_returns 10
              (Planar.call Planar.demo_roads Planar.naive_trees))
    as (_ & Hcrs & _).
  destruct (raises_value_error_or_returns 10
              (Planar.call Planar.concatenated_roads Planar.demo_trees))
    as (_ & _ & Hlabels).
  destruct Hcrs as (Hraise & Hout & _).
  { intros [H|[_ H]]; [discriminate H|apply H; reflexivity]. }
  destruct Hlabels as (Hraise' & Hcol).
  { left. reflexivity. }
  { intros Hnd. inversion Hnd as [|? ? Hnot _]; subst.
    apply Hnot. left. reflexivity. }
  split; [exact Hraise|]. split; [exact Hout|]. split; [exact Hraise'|].
  apply Hcol. reflexivity.
Defined.

Lemma canopy_score_is_aligned_on_labels_witness :
  runs (Planar.call Planar.sliced_roads Planar.demo_trees) /\
  ~ default_labels Planar.sliced_roads /\
  exists out,
    result 10 (Planar.call Planar.sliced_roads Planar.demo_trees) = Returned out /\
    nth_error (s_canopy out) 0 = Some NaN /\
    nth_error (static_eqs out) 0 = Some NaN.
Proof.
  assert (runs (Planar.call Planar.sliced_roads Planar.demo_trees)) as Hruns.
  { split; [left; reflexivity|].
    cbn. repeat constructor; cbn; intuition discriminate. }
  assert (~ default_labels Planar.sliced_roads) as Hlab.
  { intros H. discriminate H. }
  split; [exact Hruns|]. split; [exact Hlab|].
  destruct (canopy_score_is_aligned_on_labels 10
              (Planar.call Planar.sliced_roads Planar.demo_trees) Hruns Hlab)
    as (out & Hres & Hrows).
  destruct (raw_columns 10 _ Hruns) as (out' & Hres' & _ & Hcan & _).
  rewrite Hres in Hres'. injection Hres' as <-.
  exists out. split; [exact Hres|].
  destruct (Hrows 0%nat _ (eq_ind_r (fun col => nth_error col 0 = _) eq_refl Hcan))
    as (_ & Hnan).
  destruct Hnan as (Hsc & _ & Hst & _).
  { cbn. intuition discriminate. }
  split; assumption.
Defined.

Lemma scored_route_has_positive_cost_witness :
  runs Planar.demo /\
  exists out a h,
    result 10 Planar.demo = Returned out /\
    analyze_route_holistic_cost (static_eqs out) 5 10 = Returned a /\
    holistic_cost a = Fin h /\ 1 / 10 * 5 < h.
Proof.
  split; [exact (proj1 demo_runs)|].
  destruct (scored_route_has_positive_cost 10 Planar.demo (proj1 demo_runs))
    as (out & Hres & Hroutes).
  destruct demo_run as (out' & Hres' & _ & _ & _ & _ & _ & _ & _ & Hst & _).
  rewrite Hres in Hres'. injection Hres' as <-.
  assert (0 < 5) as HL by lra.
  destruct (Hroutes (static_eqs out) 5 10 (55 / 100) (incl_refl _))
    as (a & m & h & Ha & _ & _ & Hh & Hbound);
    [rewrite Hst; left; reflexivity|exact HL|].
  exists out, a, h. repeat split; assumption.
Defined.

Lemma tree_outside_buffers_changes_nothing_witness :
  result 10
    (with_trees Planar.demo Variations.trees_with_far_tree)
  = result 10 Planar.demo.
Proof.
  apply (tree_outside_buffers_changes_nothing 10 Planar.demo
           Variations.far_tree None).
  intros r [<-|[<-|[]]]; reflexivity.
Defined.

Lemma tree_order_is_irrelevant_witness :
  result 10
    (with_trees Planar.demo Variations.swapped_trees)
  = result 10 Planar.demo.
Proof.
  apply (tree_order_is_irrelevant 10 Planar.demo); [reflexivity|].
  apply perm_swap.
Defined.

Lemma road_order_is_irrelevant_witness :
  exists out out',
    result 10 Planar.demo = Returned out /\
    result 10 (with_roads Planar.demo Variations.reversed_roads)
      = Returned out' /\
    nth_error (static_eqs out') 1 = nth_error (static_eqs out) 0.
Proof.
  destruct (road_order_is_irrelevant 10 Planar.demo Variations.reversed_roads
              (proj1 demo_reprojectable) (proj1 demo_labels) eq_refl
              eq_refl (perm_swap _ _ _))
    as (out & out' & Hres & Hres' & Hrows).
  exists out, out'. split; [exact Hres|]. split; [exact Hres'|].
  apply (Hrows 0%nat 1%nat Variations.first_road); reflexivity.
Defined.

Lemma nonzero_denominators_scores_in_unit_interval_witness :
  exists out e,
    result 10 Planar.demo = Returned out /\
    nth_error (static_eqs out) 0 = Some (Fin e) /\ 0 < e <= 1.
Proof.
  destruct (nonzero_denominators_scores_in_unit_interval 10 Planar.demo
              (proj1 demo_reprojectable) (proj1 demo_labels) demo_denominators)
    as (out & Hres & Hrows).
  destruct (Hrows 0%nat Variations.first_road eq_refl)
    as (a & b & c & _ & _ & _ & _ & _ & _ & Hst & _ & Hb & _).
  exists out. eexists. split; [exact Hres|]. split; [exact Hst|exact Hb].
Defined.

Lemma mean_score_of_network_is_constant_witness :
  exists out,
    result 10 Planar.demo = Returned out /\
    Routing.mean (static_eqs out) = Fin ((INR 2 + 1) / 2 / INR 2).
Proof.
  assert (roads_rows (caller_roads Planar.demo) <> []) as Hne by discriminate.
  destruct (mean_score_of_network_is_constant 10 Planar.demo
              (proj1 demo_reprojectable) (proj1 demo_labels) Hne
              demo_denominators)
    as (out & Hres & _ & _ & _ & Hst & _).
  exists out. split; [exact Hres|exact Hst].
Defined.

Lemma emission_factor_u_shaped_witness :
  exists ev ew,
    calculate_emission_factor_g_per_km (Fin 10) = Returned (Fin ev) /\
    calculate_emission_factor_g_per_km (Fin 20) = Returned (Fin ew) /\
    ew <= ev.
Proof.
  assert (10 <= 20) as H by lra.
  destruct (emission_factor_u_shaped 10 20 H) as (ev & ew & Hv & Hw & Hdec & _).
  exists ev, ew. split; [exact Hv|]. split; [exact Hw|]. apply Hdec. lra.
Defined.

Lemma mean_of_one (x : R) : mean [Fin x] = Fin (x / 1).
Proof.
  change [Fin x] with (map Fin [x]).
  rewrite (mean_numbers [x]) by discriminate. cbn. f_equal. field.
Qed.

Lemma greener_route_is_cheaper_witness :
  exists r r' h h',
    analyze_route_holistic_cost [Fin (3 / 10)] 5 10 = Returned r /\
    analyze_route_holistic_cost [Fin (8 / 10)] 5 10 = Returned r' /\
    holistic_cost r = Fin h /\ holistic_cost r' = Fin h' /\ h' <= h.
Proof.
  assert (3 / 10 / 1 <= 8 / 10 / 1) as Ha by lra.
  assert (0 <= 5) as HL by lra.
  destruct (greener_route_is_cheaper [Fin (3 / 10)] [Fin (8 / 10)] 5 10
              _ _ (mean_of_one (3 / 10)) (mean_of_one (8 / 10)) Ha HL)
    as (r & r' & h & h' & Hr & Hr' & Hh & Hh' & Hle & _).
  exists r, r', h, h'. repeat split; assumption.
Defined.

Lemma route_cost_scales_with_length_witness :
  exists r rk h,
    analyze_route_holistic_cost [Fin (8 / 10)] 5 10 = Returned r /\
    analyze_route_holistic_cost [Fin (8 / 10)] (2 * 5) (2 * 10) = Returned rk /\
    holistic_cost r = Fin h /\ holistic_cost rk = Fin (2 * h).
Proof.
  assert (0 < 10) as HT by lra. assert (0 < 2) as Hk by lra.
  destruct (route_cost_scales_with_length [Fin (8 / 10)] 2 5 10 _ HT Hk
              (mean_of_one (8 / 10)))
    as (r & rk & h & e & Hr & Hrk & Hh & Hhk & _).
  exists r, rk, h. repeat split; assumption.
Defined.

Lemma whole_width_measures_scene_witness :
  measure (617 / 100) (425 / 100) (125 / 10) 4032 4032
  = Returned (Fin (617 / 100 / (425 / 100) * (125 / 10))).
Proof.
  apply whole_width_measures_scene; [lra|reflexivity].
Defined.

Lemma measurement_is_proportional_witness :
  exists height canopy,
    measure (617 / 100) (425 / 100) (125 / 10) 4032 1850 = Returned (Fin height) /\
    measure (617 / 100) (425 / 100) (125 / 10) 4032 1400 = Returned (Fin canopy) /\
    height * IZR 1400 = canopy * IZR 1850.
Proof.
  assert (0 < 425 / 100) as Hf by lra.
  destruct (measurement_is_proportional (617 / 100) (425 / 100) (125 / 10) 1
              4032 1850 1400 Hf eq_refl)
    as (mp & mq & Hp & Hq & _ & _ & Hratio).
  exists mp, mq. repeat split; assumption.
Defined.

End FurtherRuns.
